(** * Catalog query service: indexing, search, sort, pagination, cache

    A shallow embedding of [src/routes/products.js].  JavaScript strings
    are lists of code units (restricted to the range below 256, the type
    [ascii]); JavaScript [Map]s are finite maps; JavaScript [Set]s are
    duplicate-free lists in insertion order, because the handlers iterate
    over them; the module-level variables of the file are the fields of one
    explicit state record threaded through every handler. *)

From Stdlib Require Import ZArith QArith Qround Qpower Lqa Ascii String DecimalString DecimalPos DecimalZ Lia.
From stdpp Require Import gmap strings list sorting.

Local Open Scope Z_scope.

(** ** JavaScript strings *)

Abbreviation jsstring := (list ascii).

(** A literal of the source, as a list of code units. *)
Abbreviation js s := (list_ascii_of_string s).

Definition code (c : ascii) : N := N_of_ascii c.

(** [String.prototype.toLowerCase] on one code unit below 256: the ASCII
    capitals, and the Latin-1 capitals except the multiplication sign. *)
Definition toLowerCaseChar (c : ascii) : ascii :=
  let n := code c in
  if ((65 <=? n) && (n <=? 90) || (192 <=? n) && (n <=? 222) && negb (n =? 215))%N
  then ascii_of_N (n + 32)
  else c.

Definition toLowerCase (s : jsstring) : jsstring := map toLowerCaseChar s.

(** The class [\s] of a regular expression, which is also what [trim]
    strips: TAB, LF, VT, FF, CR, space and the no-break space. *)
Definition isWhiteSpace (c : ascii) : bool :=
  let n := code c in
  ((9 <=? n) && (n <=? 13) || (n =? 32) || (n =? 160))%N.

Definition space : ascii := ascii_of_N 32.

(** [value.replace(/\s+/g, ' ')]: every maximal run of white space becomes
    one space.  [inRun] records that the previous unit was white space. *)
Fixpoint replaceWhitespaceRuns (inRun : bool) (s : jsstring) : jsstring :=
  match s with
  | [] => []
  | c :: r =>
      if isWhiteSpace c
      then (if inRun then replaceWhitespaceRuns true r
            else space :: replaceWhitespaceRuns true r)
      else c :: replaceWhitespaceRuns false r
  end.

Fixpoint trimStart (s : jsstring) : jsstring :=
  match s with
  | [] => []
  | c :: r => if isWhiteSpace c then trimStart r else s
  end.

Definition trimEnd (s : jsstring) : jsstring := rev (trimStart (rev s)).

Definition trim (s : jsstring) : jsstring := trimEnd (trimStart s).

(** [normalizeText(value)]:
    [value.toLowerCase().replace(/\s+/g, ' ').trim()]. *)
Definition normalizeText (value : jsstring) : jsstring :=
  trim (replaceWhitespaceRuns false (toLowerCase value)).

(** The class [[a-z0-9]] under the flag [i]. *)
Definition isAlnum (c : ascii) : bool :=
  let n := code c in
  ((97 <=? n) && (n <=? 122) || (65 <=? n) && (n <=? 90)
   || (48 <=? n) && (n <=? 57))%N.

(** [text.split(/[^a-z0-9]+/i)]: the pieces between maximal runs of
    separators, the empty pieces at both ends included.  [cur] is the piece
    being read, reversed; [inSep] records that the previous unit was a
    separator. *)
Fixpoint splitNonAlnum (cur : jsstring) (inSep : bool) (s : jsstring)
  : list jsstring :=
  match s with
  | [] => [rev cur]
  | c :: r =>
      if isAlnum c then splitNonAlnum (c :: cur) false r
      else if inSep then splitNonAlnum cur true r
      else rev cur :: splitNonAlnum [] true r
  end.

(** [getWords(text)]. *)
Definition getWords (text : jsstring) : list jsstring :=
  filter (fun word => (1 < length word)%nat) (splitNonAlnum [] false text).

(** [Array.prototype.slice] and [String.prototype.slice]: a negative index
    counts from the end, and both ends are clamped to the length. *)
Definition relativeIndex (len i : Z) : Z :=
  if i <? 0 then Z.max (len + i) 0 else Z.min i len.

Definition slice {A} (l : list A) (b e : Z) : list A :=
  let len := Z.of_nat (length l) in
  let k := relativeIndex len b in
  let f := relativeIndex len e in
  take (Z.to_nat (f - k)) (drop (Z.to_nat k) l).

(** [getTrigrams(text)]: the loop runs over [i = 0 .. text.length - 3]. *)
Definition getTrigrams (text : jsstring) : list jsstring :=
  if Z.of_nat (length text) <? 3 then []
  else map (fun i : nat => slice text (Z.of_nat i) (Z.of_nat i + 3))
           (seq 0 (length text - 2)).

(** [text.includes(query)]. *)
Fixpoint startsWith (t q : jsstring) : bool :=
  match q, t with
  | [], _ => true
  | _ :: _, [] => false
  | c :: q', d :: t' => bool_decide (c = d) && startsWith t' q'
  end.

Fixpoint includes (t q : jsstring) : bool :=
  startsWith t q ||
  match t with
  | [] => false
  | _ :: t' => includes t' q
  end.

(** ** Numbers and field values *)

(** A JavaScript number: a finite value (doubles are rationals; the
    arithmetic of integers is exact on them, and a product of doubles is
    rounded, see [times] below), [NaN], or an infinity. *)
Inductive jsnum :=
  | Finite (q : Q)
  | NaN
  | Infinity (negative : bool).

Definition num (z : Z) : jsnum := Finite (inject_Z z).

(** [Number.isInteger(x)] together with the integer it denotes. *)
Definition asInteger (x : jsnum) : option Z :=
  match x with
  | Finite q =>
      if Qnum q mod Zpos (Qden q) =? 0 then Some (Qnum q / Zpos (Qden q))
      else None
  | _ => None
  end.

Definition isInteger (x : jsnum) : bool := bool_decide (is_Some (asInteger x)).

Definition isFinite (x : jsnum) : bool :=
  match x with Finite _ => true | _ => false end.

(** ** Arithmetic on doubles

    The numbers of the language are the doubles of IEEE 754, which are
    rationals.  [roundDouble q] is the double nearest to the rational [q],
    and of two nearest the one with the even significand: a significand of
    53 bits, whose last bit has an exponent of -1074 at least.  (From
    [2^1024] on a result is an infinity; the products below stay under
    1000.) *)

Definition pow2 (e : Z) : Q := (2 ^ e)%Q.

(** The integer [e] with [2^e <= q < 2^(e+1)], for a positive [q]. *)
Definition ilog2 (q : Q) : Z :=
  let e := Z.log2 (Qnum q) - Z.log2 (Zpos (Qden q)) in
  if Qle_bool (pow2 e) q then e else e - 1.

(** The integer nearest to [q], and of two nearest the even one. *)
Definition roundHalfEven (q : Q) : Z :=
  let f := Qfloor q in
  match (q - inject_Z f ?= 1 # 2)%Q with
  | Lt => f
  | Gt => f + 1
  | Eq => if Z.even f then f else f + 1
  end.

(** The exponent of the last bit of the significand of a positive [q]. *)
Definition lastBit (q : Q) : Z := Z.max (ilog2 q - 52) (-1074).

Definition roundDouble (q : Q) : Q :=
  match (q ?= 0)%Q with
  | Eq => 0%Q
  | Gt =>
      let e := lastBit q in
      (inject_Z (roundHalfEven (q / pow2 e)) * pow2 e)%Q
  | Lt =>
      let e := lastBit (- q) in
      (- (inject_Z (roundHalfEven (- q / pow2 e)) * pow2 e))%Q
  end.

(** [x * y] on doubles. *)
Definition times (x y : Q) : Q := roundDouble (x * y).

(** The relational operator [x < y] on numbers; [x > y] is [numLt y x]. *)
Definition numLt (x y : jsnum) : bool :=
  match x, y with
  | NaN, _ | _, NaN => false
  | Finite a, Finite b => match (a ?= b)%Q with Lt => true | _ => false end
  | Finite _, Infinity neg => negb neg
  | Infinity neg, Finite _ => neg
  | Infinity a, Infinity b => a && negb b
  end.

(** The relational operator [x <= y] on numbers. *)
Definition numLe (x y : jsnum) : bool :=
  match x, y with
  | NaN, _ | _, NaN => false
  | Finite a, Finite b => match (a ?= b)%Q with Gt => false | _ => true end
  | Finite _, Infinity neg => negb neg
  | Infinity neg, Finite _ => neg
  | Infinity a, Infinity b => a || negb b
  end.

(** [x === y] on numbers. *)
Definition numEq (x y : jsnum) : bool :=
  match x, y with
  | Finite a, Finite b => Qeq_bool a b
  | Infinity a, Infinity b => bool_decide (a = b)
  | _, _ => false
  end.

(** The value of a product field that can be sorted on: a number or a
    string ([rating] is the string made by [toFixed(1)] for generated
    products and the number 0 for created ones). *)
Inductive jsval :=
  | VNum (n : jsnum)
  | VStr (s : jsstring).

(** ** Products *)

Record Product := {
  id : jsstring;
  name : jsstring;
  description : jsstring;
  price : jsnum;
  category : jsstring;
  brand : jsstring;
  stock : jsnum;
  rating : jsval;
  tags : list jsstring;
  createdAt : jsstring;
  costPrice : jsnum;
  supplier : jsstring;
  internalNotes : jsstring;
  adminOnly : bool;
  (** [undefined] until the product has been indexed *)
  searchableText : option jsstring
}.

(** The projection sent to clients. *)
Record PublicProduct := {
  pub_id : jsstring;
  pub_name : jsstring;
  pub_description : jsstring;
  pub_price : jsnum;
  pub_category : jsstring;
  pub_brand : jsstring;
  pub_stock : jsnum;
  pub_rating : jsval;
  pub_tags : list jsstring;
  pub_createdAt : jsstring
}.

Definition toPublicProduct (product : Product) : PublicProduct :=
  {| pub_id := id product;
     pub_name := name product;
     pub_description := description product;
     pub_price := price product;
     pub_category := category product;
     pub_brand := brand product;
     pub_stock := stock product;
     pub_rating := rating product;
     pub_tags := tags product;
     pub_createdAt := createdAt product |}.

(** ** Posting sets and indexes *)

(** A [Set] of product ids, in insertion order. *)
Abbreviation idset := (list jsstring).

Definition setHas (s : idset) (x : jsstring) : bool := bool_decide (x ∈ s).

Definition setAdd (s : idset) (x : jsstring) : idset :=
  if setHas s x then s else s ++ [x].

(** [[...s].filter(id => other.has(id))] made into a new [Set]. *)
Definition setIntersect (s other : idset) : idset :=
  filter (fun x => setHas other x = true) s.

(** [addToIndex(indexMap, key, productId)]. *)
Definition addToIndex (indexMap : gmap jsstring idset) (key productId : jsstring)
  : gmap jsstring idset :=
  let indexMap :=
    if bool_decide (is_Some (indexMap !! key)) then indexMap
    else <[key := []]> indexMap in
  alter (fun s => setAdd s productId) key indexMap.

Record Indexes := {
  productById : gmap jsstring Product;
  trigramIndex : gmap jsstring idset;
  wordIndex : gmap jsstring idset;
  categoryIndex : gmap jsstring idset
}.

Definition emptyIndexes : Indexes :=
  {| productById := ∅; trigramIndex := ∅; wordIndex := ∅; categoryIndex := ∅ |}.

(** The text indexed for a product:
    [normalizeText(`${product.name} ${product.description}`)]. *)
Definition searchText (product : Product) : jsstring :=
  normalizeText (name product ++ space :: description product).

(** [product.searchableText = searchableText]: the product object is
    mutated in place. *)
Definition setSearchableText (product : Product) : Product :=
  {| id := id product; name := name product;
     description := description product; price := price product;
     category := category product; brand := brand product;
     stock := stock product; rating := rating product; tags := tags product;
     createdAt := createdAt product; costPrice := costPrice product;
     supplier := supplier product; internalNotes := internalNotes product;
     adminOnly := adminOnly product;
     searchableText := Some (searchText product) |}.

(** The body of the [forEach] of [buildIndexes], for one product. *)
Definition indexProduct (ix : Indexes) (product : Product) : Indexes :=
  let text := searchText product in
  let product := setSearchableText product in
  {| productById := <[id product := product]> (productById ix);
     categoryIndex :=
       addToIndex (categoryIndex ix) (category product) (id product);
     wordIndex :=
       fold_left (fun m word => addToIndex m word (id product))
                 (getWords text) (wordIndex ix);
     trigramIndex :=
       fold_left (fun m trigram => addToIndex m trigram (id product))
                 (getTrigrams text) (trigramIndex ix) |}.

Definition buildIndexMaps (productList : list Product) : Indexes :=
  fold_left indexProduct productList emptyIndexes.

(** ** Printing numbers and strings *)

(** [Number.prototype.toString] (and the number to string conversion of a
    template literal) on an integer: its decimal digits, with a minus sign
    when negative.  Integers are exact here; the source switches to
    exponent notation from 1e21 on. *)
Definition toString (z : Z) : jsstring :=
  js (NilZero.string_of_int (Z.to_int z)).

Definition hexDigit (n : N) : ascii :=
  if (n <? 10)%N then ascii_of_N (48 + n) else ascii_of_N (87 + n).

Definition hexDigitUpper (n : N) : ascii :=
  if (n <? 10)%N then ascii_of_N (48 + n) else ascii_of_N (55 + n).

Definition backslash : ascii := ascii_of_N 92.
Definition dquote : ascii := ascii_of_N 34.

(** [JSON.stringify] on one code unit of a string: the quotation mark and
    the backslash are escaped, the control characters have a short escape
    or the form [\u00xx]. *)
Definition escapeChar (c : ascii) : jsstring :=
  let n := code c in
  if (n =? 34)%N then [backslash; dquote]
  else if (n =? 92)%N then [backslash; backslash]
  else if (n =? 8)%N then backslash :: js "b"
  else if (n =? 9)%N then backslash :: js "t"
  else if (n =? 10)%N then backslash :: js "n"
  else if (n =? 12)%N then backslash :: js "f"
  else if (n =? 13)%N then backslash :: js "r"
  else if (n <? 32)%N
       then backslash :: js "u00" ++ [hexDigit (n / 16); hexDigit (n mod 16)]
  else [c].

Definition quoteJSON (s : jsstring) : jsstring :=
  dquote :: flat_map escapeChar s ++ [dquote].

(** The values held by the parameter object of a list request. *)
Inductive paramval :=
  | PNum (z : Z)
  | PStr (s : jsstring).

(** An object literal: its own properties in creation order. *)
Abbreviation jsobject := (list (jsstring * paramval)).

Definition stringifyValue (v : paramval) : jsstring :=
  match v with
  | PNum z => toString z
  | PStr s => quoteJSON s
  end.

Definition stringifyMember (kv : jsstring * paramval) : jsstring :=
  quoteJSON kv.1 ++ js ":" ++ stringifyValue kv.2.

Fixpoint joinWith (sep : jsstring) (l : list jsstring) : jsstring :=
  match l with
  | [] => []
  | [x] => x
  | x :: r => x ++ sep ++ joinWith sep r
  end.

(** [JSON.stringify] on an object of numbers and strings. *)
Definition stringify (o : jsobject) : jsstring :=
  js "{" ++ joinWith (js ",") (map stringifyMember o) ++ js "}".

(** [getCacheKey(params)]: the spread copies the properties in order. *)
Definition getCacheKey (params : jsobject) : jsstring := stringify params.

(** [encodeURIComponent]: the unreserved characters stay, every other code
    unit is written as the percent-encoded bytes of its UTF-8 form. *)
Definition isUnreserved (c : ascii) : bool :=
  isAlnum c || bool_decide (c ∈ js "-_.!~*'()").

Definition percent (n : N) : jsstring :=
  js "%" ++ [hexDigitUpper (n / 16); hexDigitUpper (n mod 16)].

Definition encodeURIComponent (s : jsstring) : jsstring :=
  flat_map (fun c =>
    let n := code c in
    if isUnreserved c then [c]
    else if (n <? 128)%N then percent n
    else percent (192 + n / 64) ++ percent (128 + n mod 64)) s.

(** ** Ordering (lodash)

    [_.orderBy] is a dependency and its code is not part of the
    repository; the definitions below follow its documented algorithm:
    every element is paired with its index, the pairs are sorted with
    [compareMultiple], which compares the field values with
    [compareAscending], reverses the outcome for ['desc'], and falls back
    on the index when the values compare equal. *)

(** [Number(s)] on a string: white space around the literal is dropped;
    the empty string is 0; the literal is [Infinity] with an optional sign,
    a decimal literal ([digits], [digits.], [digits.digits], [.digits], each
    with an optional sign and an optional exponent), or digits in base 16, 8
    or 2 after [0x], [0o] or [0b]; the value is rounded to a double;
    anything else is [NaN]. *)
Definition digitValue (c : ascii) : option Z :=
  let n := code c in
  if ((48 <=? n) && (n <=? 57))%N then Some (Z.of_N n - 48) else None.

Fixpoint digitsValue (acc : Z) (s : jsstring) : option Z :=
  match s with
  | [] => Some acc
  | c :: r =>
      match digitValue c with
      | Some d => digitsValue (10 * acc + d) r
      | None => None
      end
  end.

Definition dot : ascii := ascii_of_N 46.

Fixpoint splitAtDot (s : jsstring) : jsstring * option jsstring :=
  match s with
  | [] => ([], None)
  | c :: r =>
      if bool_decide (c = dot) then ([], Some r)
      else let '(a, b) := splitAtDot r in (c :: a, b)
  end.

(** The text before the first [e] or [E], and the text after it. *)
Fixpoint splitAtExponent (s : jsstring) : jsstring * option jsstring :=
  match s with
  | [] => ([], None)
  | c :: r =>
      if bool_decide (c = ascii_of_N 101 ∨ c = ascii_of_N 69) then ([], Some r)
      else let '(a, b) := splitAtExponent r in (c :: a, b)
  end.

(** A sign, when there is one, and what follows it. *)
Definition splitSign (s : jsstring) : bool * jsstring :=
  match s with
  | c :: r =>
      if bool_decide (c = ascii_of_N 45) then (true, r)
      else if bool_decide (c = ascii_of_N 43) then (false, r)
      else (false, s)
  | [] => (false, s)
  end.

(** One or more decimal digits. *)
Definition decimalDigits (s : jsstring) : option Z :=
  match s with
  | [] => None
  | _ :: _ => digitsValue 0 s
  end.

(** The value of an unsigned decimal literal. *)
Definition unsignedDecimal (s : jsstring) : option Q :=
  let '(mantissa, exponent) := splitAtExponent s in
  let '(whole, fraction) := splitAtDot mantissa in
  let frac := default [] fraction in
  match digitsValue 0 whole, digitsValue 0 frac with
  | Some w, Some f =>
      if bool_decide (whole = [] ∧ frac = []) then None
      else
        let significand :=
          (inject_Z w + inject_Z f / inject_Z (10 ^ Z.of_nat (length frac)))%Q in
        match exponent with
        | None => Some significand
        | Some digits =>
            let '(negative, digits) := splitSign digits in
            match decimalDigits digits with
            | Some k =>
                Some (significand * 10 ^ (if negative : bool then - k else k))%Q
            | None => None
            end
        end
  | _, _ => None
  end.

(** The digits of the bases 16, 8 and 2. *)
Definition radixDigit (radix : Z) (c : ascii) : option Z :=
  let n := Z.of_N (code c) in
  let value :=
    if (48 <=? n) && (n <=? 57) then Some (n - 48)
    else if (97 <=? n) && (n <=? 102) then Some (n - 87)
    else if (65 <=? n) && (n <=? 70) then Some (n - 55)
    else None in
  match value with
  | Some d => if d <? radix then Some d else None
  | None => None
  end.

Fixpoint radixValue (radix acc : Z) (s : jsstring) : option Z :=
  match s with
  | [] => Some acc
  | c :: r =>
      match radixDigit radix c with
      | Some d => radixValue radix (radix * acc + d) r
      | None => None
      end
  end.

(** [0x], [0o] or [0b], in either case, and one digit or more. *)
Definition nonDecimalLiteral (s : jsstring) : option Z :=
  match s with
  | zero :: letter :: (_ :: _) as digits =>
      if bool_decide (zero = ascii_of_N 48) then
        let n := code letter in
        if ((n =? 120) || (n =? 88))%N then radixValue 16 0 digits
        else if ((n =? 111) || (n =? 79))%N then radixValue 8 0 digits
        else if ((n =? 98) || (n =? 66))%N then radixValue 2 0 digits
        else None
      else None
  | _ => None
  end.

(** The number for a rational value: the nearest double, and an infinity
    when that is [2^1024] or more. *)
Definition toDouble (q : Q) : jsnum :=
  let d := roundDouble q in
  if Qle_bool (pow2 1024) d then Infinity false
  else if Qle_bool d (- pow2 1024) then Infinity true
  else Finite d.

Definition StringToNumber (s : jsstring) : jsnum :=
  let literal := trim s in
  if bool_decide (literal = []) then num 0
  else
    match nonDecimalLiteral literal with
    | Some value => toDouble (inject_Z value)
    | None =>
        let '(negative, unsigned) := splitSign literal in
        if bool_decide (unsigned = js "Infinity") then Infinity negative
        else
          match unsignedDecimal unsigned with
          | Some q => toDouble (if negative then - q else q)
          | None => NaN
          end
    end.

Definition valToNumber (v : option jsval) : jsnum :=
  match v with
  | None => NaN
  | Some (VNum n) => n
  | Some (VStr s) => StringToNumber s
  end.

(** [a < b] on strings: lexicographic on code units. *)
Fixpoint strLt (a b : jsstring) : bool :=
  match a, b with
  | _, [] => false
  | [], _ :: _ => true
  | c :: a', d :: b' =>
      if (code c <? code d)%N then true
      else if (code d <? code c)%N then false
      else strLt a' b'
  end.

(** [x < y] on field values; [None] is [undefined]. *)
Definition valLt (x y : option jsval) : bool :=
  match x, y with
  | Some (VStr a), Some (VStr b) => strLt a b
  | _, _ => numLt (valToNumber x) (valToNumber y)
  end.

(** [x === y] on field values. *)
Definition strictEq (x y : option jsval) : bool :=
  match x, y with
  | None, None => true
  | Some (VNum a), Some (VNum b) => numEq a b
  | Some (VStr a), Some (VStr b) => bool_decide (a = b)
  | _, _ => false
  end.

(** lodash's [compareAscending], on values that are neither [null] nor
    symbols. *)
Definition compareAscending (value other : option jsval) : Z :=
  if negb (strictEq value other) then
    let valIsDefined := bool_decide (is_Some value) in
    let valIsReflexive := strictEq value value in
    let othIsDefined := bool_decide (is_Some other) in
    let othIsReflexive := strictEq other other in
    if valLt other value || negb valIsDefined && othIsReflexive
       || negb valIsReflexive
    then 1
    else if valLt value other || negb othIsDefined && valIsReflexive
            || negb othIsReflexive
    then -1
    else 0
  else 0.

(** [product[sortBy]] for the fields in [ALLOWED_SORT_FIELDS]. *)
Definition fieldValue (sortBy : jsstring) (product : Product) : option jsval :=
  if bool_decide (sortBy = js "name") then Some (VStr (name product))
  else if bool_decide (sortBy = js "price") then Some (VNum (price product))
  else if bool_decide (sortBy = js "category") then Some (VStr (category product))
  else if bool_decide (sortBy = js "brand") then Some (VStr (brand product))
  else if bool_decide (sortBy = js "stock") then Some (VNum (stock product))
  else if bool_decide (sortBy = js "rating") then Some (rating product)
  else if bool_decide (sortBy = js "createdAt") then Some (VStr (createdAt product))
  else None.

(** lodash's [compareMultiple] for one criterion, on elements paired with
    their index. *)
Definition compareMultiple (sortBy sortOrder : jsstring)
    (object other : nat * Product) : Z :=
  let result :=
    compareAscending (fieldValue sortBy object.2) (fieldValue sortBy other.2) in
  if result =? 0 then Z.of_nat object.1 - Z.of_nat other.1
  else if bool_decide (sortOrder = js "desc") then result * -1
  else result.

(** Modelled from the spec: [Array.prototype.sort] with a comparator, which
    lodash calls and which is part of the language runtime, as insertion from
    the right; specification 4.4 asks for a stable sort by [sortBy] in the
    requested direction. *)
Fixpoint insertSorted {A} (comparer : A -> A -> Z) (x : A) (l : list A) : list A :=
  match l with
  | [] => [x]
  | y :: r => if comparer x y <? 0 then x :: l else y :: insertSorted comparer x r
  end.

Definition sortWith {A} (comparer : A -> A -> Z) (l : list A) : list A :=
  foldr (insertSorted comparer) [] l.

Definition withIndex {A} (l : list A) : list (nat * A) := imap (fun i x => (i, x)) l.

(** Modelled from the spec: [_.orderBy(collection, [sortBy], [sortOrder])]
    of lodash, which is not under src/. *)
Definition orderBy (collection : list Product) (sortBy sortOrder : jsstring)
  : list Product :=
  map snd (sortWith (compareMultiple sortBy sortOrder) (withIndex collection)).

(** ** State, cache and responses *)

Record Pagination := {
  currentPage : Z;
  totalPages : Z;
  totalItems : Z;
  itemsPerPage : Z;
  nextPage : option jsstring;
  prevPage : option jsstring
}.

Record Payload := {
  payloadProducts : list PublicProduct;
  pagination : Pagination
}.

Abbreviation Headers := (list (jsstring * jsstring)).

Record CacheEntry := {
  payload : Payload;
  headers : Headers;
  expiresAt : Z
}.

(** The module-level variables of the file. *)
Record State := {
  products : list Product;
  indexes : Indexes;
  generatedAt : Z;
  responseCache : gmap jsstring CacheEntry
}.

Definition PRODUCT_COUNT : Z := 1000.
Definition CACHE_TTL_MS : Z := 30 * 1000.
Definition DEFAULT_LIMIT : Z := 25.
Definition MAX_LIMIT : Z := 100.
Definition ALLOWED_SORT_FIELDS : list jsstring :=
  [js "name"; js "price"; js "category"; js "brand"; js "stock"; js "rating";
   js "createdAt"].

(** [buildIndexes(productList)].  Every caller passes the array held in
    [products]; its elements are mutated in place, so the product list of
    the resulting state is the list of the annotated products.  The four
    maps are replaced and the response cache is cleared. *)
Definition buildIndexes (productList : list Product) (s : State) : State :=
  {| products := map setSearchableText productList;
     indexes := buildIndexMaps productList;
     generatedAt := generatedAt s;
     responseCache := ∅ |}.

(** [getCachedResponse(cacheKey)] at time [now]: the entry, and the cache
    after the call (an expired entry is deleted). *)
Definition getCachedResponse (cacheKey : jsstring) (now : Z)
    (cache : gmap jsstring CacheEntry)
  : option CacheEntry * gmap jsstring CacheEntry :=
  match cache !! cacheKey with
  | None => (None, cache)
  | Some cached =>
      if expiresAt cached <? now then (None, delete cacheKey cache)
      else (Some cached, cache)
  end.

(** [setCachedResponse(cacheKey, payload, headers)] at time [now]. *)
Definition setCachedResponse (cacheKey : jsstring) (payload : Payload)
    (headers : Headers) (now : Z) (cache : gmap jsstring CacheEntry)
  : gmap jsstring CacheEntry :=
  <[cacheKey := {| payload := payload; headers := headers;
                   expiresAt := now + CACHE_TTL_MS |}]> cache.

(** What a handler sends. *)
Inductive Body :=
  | ListBody (p : Payload)
  | ProductBody (p : PublicProduct)
  | MutationBody (message : jsstring) (p : option PublicProduct)
  | ErrorBody (error : jsstring) (details : list jsstring).

Record Response := {
  status : Z;
  responseHeaders : Headers;
  body : Body
}.

Definition internalServerError : Response :=
  {| status := 500; responseHeaders := [];
     body := ErrorBody (js "Internal server error") [] |}.

(** ** The query planner *)

(** One [forEach] over the query's trigrams (or words): the posting set of
    the first key is copied, every later one is intersected with the
    candidates.  [None] is [null]. *)
Definition intersectPostings (index : gmap jsstring idset)
    (keys : list jsstring) (candidateIds : option idset) : option idset :=
  fold_left
    (fun candidateIds key =>
       let matches := default [] (index !! key) in
       match candidateIds with
       | None => Some matches
       | Some ids => Some (setIntersect ids matches)
       end)
    keys candidateIds.

(** The candidate ids of a normalized, non-empty query. *)
Definition searchCandidates (ix : Indexes) (normalizedQuery : jsstring)
  : option idset :=
  let queryTrigrams := getTrigrams normalizedQuery in
  let queryWords := getWords normalizedQuery in
  if 0 <? Z.of_nat (length queryTrigrams)
  then intersectPostings (trigramIndex ix) queryTrigrams None
  else if 0 <? Z.of_nat (length queryWords)
  then intersectPostings (wordIndex ix) queryWords None
  else None.

(** [ids.map(id => productById.get(id)).filter(Boolean)]. *)
Definition materialize (ix : Indexes) (ids : idset) : list Product :=
  omap (fun productId => productById ix !! productId) ids.

(** [l.filter(p => p.searchableText.includes(normalizedQuery))]; reading
    [includes] from an absent [searchableText] throws, which is [None]. *)
Fixpoint verifyMatches (normalizedQuery : jsstring) (l : list Product)
  : option (list Product) :=
  match l with
  | [] => Some []
  | p :: r =>
      match searchableText p with
      | None => None
      | Some text =>
          match verifyMatches normalizedQuery r with
          | None => None
          | Some kept =>
              Some (if includes text normalizedQuery then p :: kept else kept)
          end
      end
  end.

(** Lines 222 to 258: [filteredProducts] and [candidateIds] after the text
    search; [None] is a thrown exception. *)
Definition searchStage (s : State) (normalizedQuery : jsstring)
  : option (list Product * option idset) :=
  if bool_decide (normalizedQuery = []) then Some (products s, None)
  else
    let candidateIds := searchCandidates (indexes s) normalizedQuery in
    match candidateIds with
    | Some ((_ :: _) as ids) =>
        match verifyMatches normalizedQuery (materialize (indexes s) ids) with
        | Some kept => Some (kept, candidateIds)
        | None => None
        end
    | _ => Some ([], candidateIds)
    end.

(** Lines 260 to 269: [filteredProducts] after the category filter. *)
Definition categoryStage (ix : Indexes) (category : jsstring)
    (filteredProducts : list Product) (candidateIds : option idset)
  : list Product :=
  if bool_decide (category = []) then filteredProducts
  else
    let categoryMatches := default [] (categoryIndex ix !! category) in
    match candidateIds with
    | None => materialize ix categoryMatches
    | Some _ =>
        filter (fun p => setHas categoryMatches (id p) = true) filteredProducts
    end.

(** Lines 222 to 269: the products selected by [search] and [category],
    before sorting. *)
Definition selectProducts (s : State) (search category : jsstring)
  : option (list Product) :=
  let normalizedQuery :=
    if bool_decide (search = []) then [] else normalizeText search in
  match searchStage s normalizedQuery with
  | None => None
  | Some (filteredProducts, candidateIds) =>
      Some (categoryStage (indexes s) category filteredProducts candidateIds)
  end.

(** ** Generating the catalog *)

(** What the runtime supplies: the successive results of [Math.random()],
    the clock, and the environment variable read by the list handler. *)
Record Runtime := {
  random : nat -> Q;
  now : Z;
  nowISO : jsstring;
  BACKEND_URL : option jsstring
}.

Definition floor (q : Q) : Z := Qfloor q.

(** [x.toFixed(1)] for a non-negative [x]. *)
Definition toFixed1 (x : Q) : jsstring :=
  let tenths := floor (x * 10 + (1 # 2))%Q in
  toString (tenths / 10) ++ js "." ++ toString (tenths mod 10).

Definition categories : list jsstring :=
  [js "Electronics"; js "Clothing"; js "Books"; js "Home"; js "Sports";
   js "Beauty"].
Definition brands : list jsstring :=
  [js "BrandA"; js "BrandB"; js "BrandC"; js "BrandD"; js "BrandE"].

(** The product pushed for index [i]; it consumes seven random numbers,
    starting at draw [k].  The products of a draw are products of doubles,
    and [0.9] is the double nearest to 9/10. *)
Definition generateProduct (rt : Runtime) (k : nat) (i : Z) : Product :=
  let r j := random rt (k + j)%nat in
  {| id := toString i;
     name := js "Product " ++ toString i;
     description :=
       js "This is product number " ++ toString i ++ js " with amazing features";
     price := num (floor (times (r 0%nat) 1000) + 10);
     category :=
       default [] (categories !! Z.to_nat (floor (times (r 1%nat) 6)));
     brand := default [] (brands !! Z.to_nat (floor (times (r 2%nat) 5)));
     stock := num (floor (times (r 3%nat) 100));
     rating := VStr (toFixed1 (times (r 4%nat) 5));
     tags := [js "tag" ++ toString i; js "feature" ++ toString (i mod 10)];
     createdAt := nowISO rt;
     costPrice := num (floor (times (r 5%nat) 500) + 5);
     supplier := js "Supplier " ++ toString (i mod 20);
     internalNotes := js "Internal notes for product " ++ toString i;
     adminOnly :=
       match (r 6%nat ?= roundDouble (9 # 10))%Q with Gt => true | _ => false end;
     searchableText := None |}.

Definition newProducts (rt : Runtime) : list Product :=
  map (fun j : nat => generateProduct rt (7 * j) (Z.of_nat j + 1))
      (seq 0 (Z.to_nat PRODUCT_COUNT)).

(** [generateProducts()]. *)
Definition generateProducts (rt : Runtime) (s : State) : State :=
  let s := {| products := newProducts rt; indexes := indexes s;
              generatedAt := generatedAt s;
              responseCache := responseCache s |} in
  let s := buildIndexes (products s) s in
  {| products := products s; indexes := indexes s; generatedAt := now rt;
     responseCache := responseCache s |}.

(** [ensureProductsFresh()]. *)
Definition ensureProductsFresh (rt : Runtime) (s : State) : State :=
  if bool_decide (products s = []) then generateProducts rt s else s.

(** The state when the module has been loaded: the variables hold their
    initial values and [generateProducts()] has run once. *)
Definition initialState (rt : Runtime) : State :=
  generateProducts rt
    {| products := []; indexes := emptyIndexes; generatedAt := 0;
       responseCache := ∅ |}.

(** ** Listing products *)

(** The query string of a list request, after the conversions of lines
    206 to 213: [rawPage] is [Number(req.query.page || 1)], [rawLimit] is
    [Number(req.query.limit || DEFAULT_LIMIT)], [rawSearch] and
    [rawCategory] are the strings read (empty when absent), [rawSortBy] and
    [rawSortOrder] are the values read when they are strings. *)
Record ListQuery := {
  rawPage : jsnum;
  rawLimit : jsnum;
  rawSearch : jsstring;
  rawCategory : jsstring;
  rawSortBy : option jsstring;
  rawSortOrder : option jsstring
}.

(** The constants [page], [limit], [search], [category], [sortBy] and
    [sortOrder] of the handler. *)
Record ListParams := {
  page : Z;
  limit : Z;
  search : jsstring;
  categoryFilter : jsstring;
  sortBy : jsstring;
  sortOrder : jsstring
}.

Definition parseListQuery (q : ListQuery) : ListParams :=
  {| page :=
       match asInteger (rawPage q) with
       | Some n => if 0 <? n then n else 1
       | None => 1
       end;
     limit :=
       match asInteger (rawLimit q) with
       | Some n => Z.min (Z.max n 1) MAX_LIMIT
       | None => DEFAULT_LIMIT
       end;
     search := rawSearch q;
     categoryFilter := rawCategory q;
     sortBy :=
       match rawSortBy q with
       | Some f => if bool_decide (f ∈ ALLOWED_SORT_FIELDS) then f else js "name"
       | None => js "name"
       end;
     sortOrder :=
       if bool_decide (rawSortOrder q = Some (js "desc")) then js "desc"
       else js "asc" |}.

(** The object literal [{ page, limit, search, category, sortBy,
    sortOrder }] of line 215. *)
Definition paramObject (p : ListParams) : jsobject :=
  [(js "page", PNum (page p)); (js "limit", PNum (limit p));
   (js "search", PStr (search p)); (js "category", PStr (categoryFilter p));
   (js "sortBy", PStr (sortBy p)); (js "sortOrder", PStr (sortOrder p))].

(** [Math.ceil(n / d)] for a positive [d]. *)
Definition ceilDiv (n d : Z) : Z := - ((- n) / d).

(** The links of lines 285 and 286; an unset variable prints as
    [undefined]. *)
Definition pageLink (rt : Runtime) (p : ListParams) (pageNumber : Z) : jsstring :=
  default (js "undefined") (BACKEND_URL rt)
  ++ js "/api/products?page=" ++ toString pageNumber
  ++ js "&limit=" ++ toString (limit p)
  ++ js "&search=" ++ encodeURIComponent (search p)
  ++ js "&category=" ++ encodeURIComponent (categoryFilter p)
  ++ js "&sortBy=" ++ sortBy p
  ++ js "&sortOrder=" ++ sortOrder p.

(** Lines 271 to 273. *)
Definition sortProducts (p : ListParams) (filteredProducts : list Product)
  : list Product :=
  if 1 <? Z.of_nat (length filteredProducts)
  then orderBy filteredProducts (sortBy p) (sortOrder p)
  else filteredProducts.

(** Lines 275 to 288, on the sorted list. *)
Definition responsePayload (rt : Runtime) (p : ListParams)
    (filteredProducts : list Product) : Payload :=
  let startIndex := (page p - 1) * limit p in
  let paginatedProducts :=
    slice filteredProducts startIndex (startIndex + limit p) in
  let totalPages := ceilDiv (Z.of_nat (length filteredProducts)) (limit p) in
  {| payloadProducts := map toPublicProduct paginatedProducts;
     pagination :=
       {| currentPage := page p;
          totalPages := totalPages;
          totalItems := Z.of_nat (length filteredProducts);
          itemsPerPage := limit p;
          nextPage :=
            if totalPages <=? page p then None
            else Some (pageLink rt p (page p + 1));
          prevPage :=
            if 1 <? page p then Some (pageLink rt p (page p - 1))
            else None |} |}.

Definition totalCountHeaders (filteredProducts : list Product) : Headers :=
  [(js "X-Total-Count", toString (Z.of_nat (length filteredProducts)))].

Definition withCache (s : State) (cache : gmap jsstring CacheEntry) : State :=
  {| products := products s; indexes := indexes s;
     generatedAt := generatedAt s; responseCache := cache |}.

(** [router.get('/')]: the state after the request and the response. *)
Definition listProducts (rt : Runtime) (q : ListQuery) (s : State)
  : State * Response :=
  let s := ensureProductsFresh rt s in
  let p := parseListQuery q in
  let cacheKey := getCacheKey (paramObject p) in
  let '(cached, cache) := getCachedResponse cacheKey (now rt) (responseCache s) in
  let s := withCache s cache in
  match cached with
  | Some cached =>
      (s, {| status := 200; responseHeaders := headers cached;
             body := ListBody (payload cached) |})
  | None =>
      match selectProducts s (search p) (categoryFilter p) with
      | None => (s, internalServerError)
      | Some filteredProducts =>
          let filteredProducts := sortProducts p filteredProducts in
          let responsePayload := responsePayload rt p filteredProducts in
          let headers := totalCountHeaders filteredProducts in
          (withCache s
             (setCachedResponse cacheKey responsePayload headers (now rt)
                                (responseCache s)),
           {| status := 200; responseHeaders := headers;
              body := ListBody responsePayload |})
      end
  end.

(** ** Request bodies

    A request body is a decoded JSON object.  The handlers only apply the
    conversions of the language to its members, so the members are kept
    abstract: a type of values with the conversions [Boolean(v)],
    [String(v)], [Number(v)] and [Array.isArray(v)] (with the elements).
    An absent member, which reads as [undefined], is [None]. *)
Class JSValue (V : Type) := {
  ToBoolean : V -> bool;
  ToString : V -> jsstring;
  ToNumber : V -> jsnum;
  arrayElements : V -> option (list V)
}.

Record ProductData (V : Type) := {
  data_name : option V;
  data_description : option V;
  data_price : option V;
  data_category : option V;
  data_brand : option V;
  data_stock : option V;
  data_tags : option V
}.
Arguments data_name {V} _.
Arguments data_description {V} _.
Arguments data_price {V} _.
Arguments data_category {V} _.
Arguments data_brand {V} _.
Arguments data_stock {V} _.
Arguments data_tags {V} _.

(** [validator.escape], a dependency: the characters with a meaning in HTML
    are replaced by entities. *)
Definition escapeHtmlChar (c : ascii) : jsstring :=
  let n := code c in
  if (n =? 38)%N then js "&amp;"
  else if (n =? 34)%N then js "&quot;"
  else if (n =? 39)%N then js "&#x27;"
  else if (n =? 60)%N then js "&lt;"
  else if (n =? 62)%N then js "&gt;"
  else if (n =? 47)%N then js "&#x2F;"
  else if (n =? 92)%N then js "&#x5C;"
  else if (n =? 96)%N then js "&#96;"
  else [c].

Definition escape (s : jsstring) : jsstring := flat_map escapeHtmlChar s.

(** [validator.isLength(str, { min, max })], a dependency. *)
Definition isLength (str : jsstring) (min max : Z) : bool :=
  let len := Z.of_nat (length str) in (min <=? len) && (len <=? max).

(** [validator.isInt(str, { min })], a dependency, with its default
    options: an optional sign, then one or more decimal digits, leading
    zeros allowed; and the value is at least [min]. *)
Definition isInt (str : jsstring) (min : Z) : bool :=
  let '(negative, digits) :=
    match str with
    | c :: r =>
        if bool_decide (c = ascii_of_N 45) then (true, r)
        else if bool_decide (c = ascii_of_N 43) then (false, r)
        else (false, str)
    | [] => (false, str)
    end in
  match digits, digitsValue 0 digits with
  | _ :: _, Some v => min <=? (if negative : bool then - v else v)
  | _, _ => false
  end.

(** [validator.isInt(productId, { min: 1 })]. *)
Definition isIntMin1 (str : jsstring) : bool := isInt str 1.

(** [parseInt(s, 10)]: leading white space, a sign, then the longest run of
    digits; [None] is [NaN]. *)
Fixpoint leadingDigits (s : jsstring) : jsstring :=
  match s with
  | c :: r => if bool_decide (is_Some (digitValue c)) then c :: leadingDigits r else []
  | [] => []
  end.

Definition parseInt (s : jsstring) : option Z :=
  let s := trimStart s in
  let '(negative, s) :=
    match s with
    | c :: r =>
        if bool_decide (c = ascii_of_N 45) then (true, r)
        else if bool_decide (c = ascii_of_N 43) then (false, r)
        else (false, s)
    | [] => (false, s)
    end in
  match leadingDigits s with
  | [] => None
  | ds => (fun v => if negative : bool then - v else v) <$> digitsValue 0 ds
  end.

(** [x * 0.7] on numbers: [0.7] is the double nearest to 7/10, and the
    product is rounded. *)
Definition timesSevenTenths (x : jsnum) : jsnum :=
  match x with
  | Finite q => Finite (times q (roundDouble (7 # 10)))
  | other => other
  end.

(** ** Mutations *)

Section Mutations.
Context {V : Type} `{JSValue V}.

(** [!v] for a member that may be absent. *)
Definition falsy (v : option V) : bool :=
  match v with
  | None => true
  | Some v => negb (ToBoolean v)
  end.

(** [sanitizeText(value)]: [validator.escape(String(value || '').trim())]. *)
Definition sanitizeText (value : option V) : jsstring :=
  escape (trim (match value with
                | Some v => if ToBoolean v then ToString v else []
                | None => []
                end)).

(** [Number(value)] for a member that may be absent. *)
Definition Number (value : option V) : jsnum :=
  match value with
  | Some v => ToNumber v
  | None => NaN
  end.

(** [Number(value || 0)]. *)
Definition NumberOrZero (value : option V) : jsnum :=
  match value with
  | Some v => if ToBoolean v then ToNumber v else num 0
  | None => num 0
  end.

(** [validateProductInput(productData, { partial })]. *)
Definition validateProductInput (productData : ProductData V) (partial : bool)
  : list jsstring :=
  let present (v : option V) := bool_decide (is_Some v) in
  let text (v : option V) := from_option ToString [] v in
  let errors := [] in
  let errors :=
    if negb partial || present (data_name productData) then
      if falsy (data_name productData)
         || negb (isLength (text (data_name productData)) 2 120)
      then errors ++ [js "Name must be between 2 and 120 characters."]
      else errors
    else errors in
  let errors :=
    if negb partial || present (data_description productData) then
      if negb (falsy (data_description productData))
         && negb (isLength (text (data_description productData)) 0 500)
      then errors ++ [js "Description must be 500 characters or less."]
      else errors
    else errors in
  let errors :=
    if negb partial || present (data_price productData) then
      let priceValue := Number (data_price productData) in
      if negb (isFinite priceValue) || numLe priceValue (num 0)
      then errors ++ [js "Price must be a positive number."]
      else errors
    else errors in
  let errors :=
    if negb partial || present (data_category productData) then
      if falsy (data_category productData)
         || negb (isLength (text (data_category productData)) 2 60)
      then errors ++ [js "Category must be between 2 and 60 characters."]
      else errors
    else errors in
  let errors :=
    if negb partial || present (data_brand productData) then
      if negb (falsy (data_brand productData))
         && negb (isLength (text (data_brand productData)) 2 60)
      then errors ++ [js "Brand must be between 2 and 60 characters."]
      else errors
    else errors in
  let errors :=
    if negb partial || present (data_stock productData) then
      let stockValue := NumberOrZero (data_stock productData) in
      if negb (isInteger stockValue) || numLt stockValue (num 0)
      then errors ++ [js "Stock must be a non-negative integer."]
      else errors
    else errors in
  let errors :=
    match data_tags productData with
    | Some t =>
        if negb (bool_decide (is_Some (arrayElements t)))
        then errors ++ [js "Tags must be an array of strings."]
        else errors
    | None => errors
    end in
  errors.

(** [Array.isArray(tags) ? tags.map(sanitizeText) : []]. *)
Definition sanitizeTags (t : option V) : list jsstring :=
  match t ≫= arrayElements with
  | Some elements => map (fun e => sanitizeText (Some e)) elements
  | None => []
  end.

(** [(Math.max(...products.map(p => parseInt(p.id, 10))) + 1).toString()]:
    [Math.max] is [NaN] as soon as one id is not a number, and minus
    infinity on no argument. *)
Definition newId (products : list Product) : jsstring :=
  match mapM (fun p => parseInt (id p)) products with
  | None => js "NaN"
  | Some [] => js "-Infinity"
  | Some (n :: ns) => toString (foldr Z.max n ns + 1)
  end.

Definition errorResponse (code : Z) (message : string) (details : list jsstring)
  : Response :=
  {| status := code; responseHeaders := []; body := ErrorBody (js message) details |}.

(** [router.post('/')], once [requireAdmin] has let the request through. *)
Definition createProduct (rt : Runtime) (productData : ProductData V) (s : State)
  : State * Response :=
  let s := ensureProductsFresh rt s in
  let errors := validateProductInput productData false in
  if 0 <? Z.of_nat (length errors)
  then (s, errorResponse 400 "Validation failed" errors)
  else
    let newProduct :=
      {| id := newId (products s);
         name := sanitizeText (data_name productData);
         description := sanitizeText (data_description productData);
         price := Number (data_price productData);
         category := sanitizeText (data_category productData);
         brand := sanitizeText (data_brand productData);
         stock := NumberOrZero (data_stock productData);
         rating := VNum (num 0);
         tags := sanitizeTags (data_tags productData);
         createdAt := nowISO rt;
         costPrice := timesSevenTenths (Number (data_price productData));
         supplier := js "Unknown";
         internalNotes := [];
         adminOnly := false;
         searchableText := None |} in
    (buildIndexes (products s ++ [newProduct]) s,
     {| status := 201; responseHeaders := [];
        body := MutationBody (js "Product created successfully")
                             (Some (toPublicProduct newProduct)) |}).

(** The assignments of lines 406 to 415 on a copy of the stored product. *)
Definition applyUpdate (product : Product) (updateData : ProductData V) : Product :=
  let keep {A} (member : option V) (new old : A) : A :=
    if bool_decide (is_Some member) then new else old in
  {| id := id product;
     name := keep (data_name updateData)
               (sanitizeText (data_name updateData)) (name product);
     description := keep (data_description updateData)
               (sanitizeText (data_description updateData)) (description product);
     price := keep (data_price updateData)
               (Number (data_price updateData)) (price product);
     category := keep (data_category updateData)
               (sanitizeText (data_category updateData)) (category product);
     brand := keep (data_brand updateData)
               (sanitizeText (data_brand updateData)) (brand product);
     stock := keep (data_stock updateData)
               (NumberOrZero (data_stock updateData)) (stock product);
     rating := rating product;
     tags := keep (data_tags updateData)
               (sanitizeTags (data_tags updateData)) (tags product);
     createdAt := createdAt product;
     costPrice := costPrice product;
     supplier := supplier product;
     internalNotes := internalNotes product;
     adminOnly := adminOnly product;
     searchableText := searchableText product |}.

(** [products.findIndex(p => p.id === productId)]; [None] is [-1]. *)
Definition findIndex (productId : jsstring) (products : list Product)
  : option (nat * Product) :=
  list_find (fun p => id p = productId) products.

(** [router.put('/:productId')], once [requireAdmin] has let the request
    through. *)
Definition updateProduct (rt : Runtime) (productId : jsstring)
    (updateData : ProductData V) (s : State) : State * Response :=
  let s := ensureProductsFresh rt s in
  if negb (isIntMin1 productId)
  then (s, errorResponse 400 "Invalid product ID" [])
  else
    let errors := validateProductInput updateData true in
    if 0 <? Z.of_nat (length errors)
    then (s, errorResponse 400 "Validation failed" errors)
    else
      match findIndex productId (products s) with
      | None => (s, errorResponse 404 "Product not found" [])
      | Some (productIndex, stored) =>
          let updatedProduct := applyUpdate stored updateData in
          (buildIndexes (<[productIndex := updatedProduct]> (products s)) s,
           {| status := 200; responseHeaders := [];
              body := MutationBody (js "Product updated successfully")
                                   (Some (toPublicProduct updatedProduct)) |})
      end.

(** [router.delete('/:productId')], once [requireAdmin] has let the request
    through. *)
Definition deleteProduct (rt : Runtime) (productId : jsstring) (s : State)
  : State * Response :=
  let s := ensureProductsFresh rt s in
  if negb (isIntMin1 productId)
  then (s, errorResponse 400 "Invalid product ID" [])
  else
    match findIndex productId (products s) with
    | None => (s, errorResponse 404 "Product not found" [])
    | Some (productIndex, _) =>
        (buildIndexes (delete productIndex (products s)) s,
         {| status := 200; responseHeaders := [];
            body := MutationBody (js "Product deleted successfully") None |})
    end.

(** A request to the router, with what the runtime supplies while it is
    served. *)
Inductive Request :=
  | List (q : ListQuery)
  | Create (productData : ProductData V)
  | Update (productId : jsstring) (updateData : ProductData V)
  | Delete (productId : jsstring).

Definition isMutation (r : Request) : bool :=
  match r with List _ => false | _ => true end.

Definition handle (rt : Runtime) (r : Request) (s : State) : State * Response :=
  match r with
  | List q => listProducts rt q s
  | Create productData => createProduct rt productData s
  | Update productId updateData => updateProduct rt productId updateData s
  | Delete productId => deleteProduct rt productId s
  end.

(** Serving a sequence of requests, one after the other. *)
Definition serve (requests : list (Runtime * Request)) (s : State) : State :=
  fold_left (fun s r => (handle r.1 r.2 s).1) requests s.

(** A mutation was carried out when the handler answered 200 or 201. *)
Definition succeeded (r : Response) : bool :=
  (status r =? 200) || (status r =? 201).

End Mutations.
Arguments Request V : clear implicits.

(** ** Decoded JSON values

    An instance of the conversions, exact for the values whose numbers are
    integers: [null], booleans, integers, strings and arrays. *)
#[warnings="-register-all"]
Inductive json :=
  | JNull
  | JBool (b : bool)
  | JNumber (z : Z)
  | JString (s : jsstring)
  | JArray (elements : list json).

Fixpoint jsonToString (v : json) : jsstring :=
  match v with
  | JNull => js "null"
  | JBool b => if b then js "true" else js "false"
  | JNumber z => toString z
  | JString s => s
  | JArray elements =>
      joinWith (js ",")
        (map (fun e => match e with JNull => [] | _ => jsonToString e end)
             elements)
  end.

Definition jsonToNumber (v : json) : jsnum :=
  match v with
  | JNull => num 0
  | JBool b => if b then num 1 else num 0
  | JNumber z => num z
  | JString s => StringToNumber s
  | JArray _ => StringToNumber (jsonToString v)
  end.

#[export] Instance json_value : JSValue json := {
  ToBoolean v :=
    match v with
    | JNull => false
    | JBool b => b
    | JNumber z => negb (z =? 0)
    | JString s => negb (bool_decide (s = []))
    | JArray _ => true
    end;
  ToString := jsonToString;
  ToNumber := jsonToNumber;
  arrayElements v := match v with JArray elements => Some elements | _ => None end
}.

(** ** The routes that read one product and the categories *)

(** [Array.prototype.sort()] without a comparator, on strings: the order of
    the code units. *)
Definition sortCompare (x y : jsstring) : Z :=
  if strLt x y then -1 else if strLt y x then 1 else 0.

(** What [router.get('/categories/list')] sends, with status 200. *)
Record CategoryList := {
  categoryNames : list jsstring;
  total : Z
}.

(** [router.get('/categories/list')].  The keys of a [Map] are pairwise
    distinct, so the sorted array does not depend on the order in which the
    keys are read. *)
Definition listCategories (rt : Runtime) (s : State) : State * CategoryList :=
  let s := ensureProductsFresh rt s in
  let categories :=
    sortWith sortCompare (map fst (map_to_list (categoryIndex (indexes s)))) in
  (s, {| categoryNames := categories;
         total := Z.of_nat (length categories) |}).

(** [router.get('/:productId')]. *)
Definition getProduct (rt : Runtime) (productId : jsstring) (s : State)
  : State * Response :=
  let s := ensureProductsFresh rt s in
  if negb (isInt productId 1)
  then (s, errorResponse 400 "Invalid product ID" [])
  else
    match productById (indexes s) !! productId with
    | None => (s, errorResponse 404 "Product not found" [])
    | Some product =>
        (s, {| status := 200; responseHeaders := [];
               body := ProductBody (toPublicProduct product) |})
    end.

(** ** Authentication

    The middleware [requireAdmin] runs before the handlers that change the
    catalog.  [jwt.verify] is a dependency: it is a parameter of the
    model, which yields the payload of the token, or nothing when it
    throws.  The members of the payload that the middleware reads are
    decoded JSON values; an absent member is [None]. *)

Record TokenPayload := {
  token_sub : option json;
  token_id : option json;
  token_role : option json
}.

Record AuthEnv := {
  JWT_SECRET : jsstring;
  verify : jsstring -> jsstring -> option TokenPayload
}.

(** [req.user]. *)
Record User := {
  user_id : option json;
  user_role : json
}.

(** [str.split(separator)] for a separator of one code unit; [cur] is the
    piece being read, reversed. *)
Fixpoint splitOn (separator : ascii) (cur : jsstring) (s : jsstring)
  : list jsstring :=
  match s with
  | [] => [rev cur]
  | c :: r =>
      if bool_decide (c = separator) then rev cur :: splitOn separator [] r
      else splitOn separator (c :: cur) r
  end.

(** [getTokenFromRequest(req)], on the value of the header
    [authorization]; [None] is [null]. *)
Definition getTokenFromRequest (authorization : option jsstring)
  : option jsstring :=
  let authHeader := default [] authorization in
  let parts := splitOn space [] authHeader in
  match parts !! 0%nat, parts !! 1%nat with
  | Some scheme, Some token =>
      if bool_decide (scheme ≠ js "Bearer") || bool_decide (token = [])
      then None else Some token
  | _, _ => None
  end.

(** [a || b] on members that may be absent. *)
Definition orElse (a b : option json) : option json :=
  if falsy a then b else a.

(** [authenticate(req, res, next)]: the response sent, or the user with
    which [next] is called. *)
Definition authenticate (env : AuthEnv) (authorization : option jsstring)
  : Response + User :=
  match getTokenFromRequest authorization with
  | None => inl (errorResponse 401 "Authentication required" [])
  | Some token =>
      if bool_decide (JWT_SECRET env = [])
      then inl (errorResponse 500 "Server authentication not configured" [])
      else
        match verify env token (JWT_SECRET env) with
        | None => inl (errorResponse 401 "Invalid authentication token" [])
        | Some payload =>
            let user :=
              {| user_id := orElse (token_sub payload) (token_id payload);
                 user_role :=
                   default (JString (js "user"))
                           (orElse (token_role payload) None) |} in
            if falsy (user_id user)
            then inl (errorResponse 401 "Invalid authentication token" [])
            else inr user
        end
  end.

(** [v === s] for a string [s]. *)
Definition isTheString (v : json) (s : jsstring) : bool :=
  match v with
  | JString t => bool_decide (t = s)
  | _ => false
  end.

(** [requireAdmin(req, res, next)]. *)
Definition requireAdmin (env : AuthEnv) (authorization : option jsstring)
  : Response + User :=
  match authenticate env authorization with
  | inl response => inl response
  | inr user =>
      if negb (isTheString (user_role user) (js "admin"))
      then inl (errorResponse 403 "Admin access required" [])
      else inr user
  end.

(** ** The router *)

Section Router.
Context {V : Type} `{JSValue V}.

(** A request to one of the routes of the file; the routes that change the
    catalog come with the value of the header [authorization]. *)
Inductive Call :=
  | GetProducts (q : ListQuery)
  | GetCategories
  | GetProductById (productId : jsstring)
  | PostProduct (authorization : option jsstring) (productData : ProductData V)
  | PutProduct (authorization : option jsstring) (productId : jsstring)
               (updateData : ProductData V)
  | DeleteProductById (authorization : option jsstring) (productId : jsstring).

Inductive Reply :=
  | Answer (response : Response)
  | CategoriesAnswer (categories : CategoryList).

(** A handler behind [requireAdmin]. *)
Definition adminRoute (env : AuthEnv) (authorization : option jsstring)
    (handler : State -> State * Response) (s : State) : State * Reply :=
  match requireAdmin env authorization with
  | inl response => (s, Answer response)
  | inr _ => let '(s, response) := handler s in (s, Answer response)
  end.

Definition router (env : AuthEnv) (rt : Runtime) (c : Call) (s : State)
  : State * Reply :=
  match c with
  | GetProducts q =>
      let '(s, response) := listProducts rt q s in (s, Answer response)
  | GetCategories =>
      let '(s, categories) := listCategories rt s in
      (s, CategoriesAnswer categories)
  | GetProductById productId =>
      let '(s, response) := getProduct rt productId s in (s, Answer response)
  | PostProduct authorization productData =>
      adminRoute env authorization (createProduct rt productData) s
  | PutProduct authorization productId updateData =>
      adminRoute env authorization (updateProduct rt productId updateData) s
  | DeleteProductById authorization productId =>
      adminRoute env authorization (deleteProduct rt productId) s
  end.

(** Serving a sequence of calls, one after the other. *)
Definition serveCalls (env : AuthEnv) (calls : list (Runtime * Call)) (s : State)
  : State :=
  fold_left (fun s c => (router env c.1 c.2 s).1) calls s.

(** The status of a reply. *)
Definition replyStatus (r : Reply) : Z :=
  match r with
  | Answer response => status response
  | CategoriesAnswer _ => 200
  end.

End Router.
Arguments Call V : clear implicits.

(** ** The rate limit of the server

    The first middleware of the application counts the requests of every
    client address in windows of one minute. *)

Record RateEntry := {
  count : Z;
  start : Z
}.

Definition RATE_LIMIT_WINDOW_MS : Z := 60 * 1000.
Definition RATE_LIMIT_MAX : Z := 120.

(** The middleware at time [now] for the address [key]: the map after the
    request, and whether [next()] is called ([false] is the answer 429). *)
Definition rateLimit (now : Z) (key : jsstring)
    (rateLimitMap : gmap jsstring RateEntry) : gmap jsstring RateEntry * bool :=
  let entry := default {| count := 0; start := now |} (rateLimitMap !! key) in
  let entry :=
    if RATE_LIMIT_WINDOW_MS <? now - start entry
    then {| count := 0; start := now |} else entry in
  let entry := {| count := count entry + 1; start := start entry |} in
  (<[key := entry]> rateLimitMap, negb (RATE_LIMIT_MAX <? count entry)).

(** The middleware on a sequence of requests: the map at the end and the
    outcome of every request. *)
Fixpoint rateLimitAll (requests : list (Z * jsstring))
    (rateLimitMap : gmap jsstring RateEntry)
  : gmap jsstring RateEntry * list bool :=
  match requests with
  | [] => (rateLimitMap, [])
  | (now, key) :: rest =>
      let '(rateLimitMap, passed) := rateLimit now key rateLimitMap in
      let '(rateLimitMap, outcomes) := rateLimitAll rest rateLimitMap in
      (rateLimitMap, passed :: outcomes)
  end.
(** * The cart service

    A shallow embedding of the cart routes of [src/routes/cart.js].  The
    carts are the values of a [Map] keyed by the user id that the
    middleware [authenticate] has put in [req.user.id]; the keys are any
    type of values with a decidable equality.  A cart is mutated in place
    by the handlers: here the map holds the cart after each handler.  The
    members of a body or of a query are values with the conversions of
    the language, as for the product routes.  The quantities and the totals
    are integers; the arithmetic of numbers is exact on them below
    [2^53]. *)

(** [v === s], for a value [v] and a string [s]: it holds when [v] is
    the string [s], and then [String(v)] is [s]. *)
Class JSStrictEq (V : Type) `{JSValue V} := {
  strictEqString : V -> jsstring -> bool;
  strictEq_ToString :
    forall v s, strictEqString v s = true -> ToString v = s
}.

#[export] Instance json_strictEq : JSStrictEq json := {
  strictEqString := isTheString;
  strictEq_ToString v s :=
    match v with
    | JString t => fun E => bool_decide_eq_true_1 (t = s) E
    | _ => fun E => False_ind _ (Bool.diff_false_true E)
    end
}.

Record CartItem := {
  item_productId : jsstring;
  item_quantity : Z;
  item_addedAt : jsstring;
  item_updatedAt : option jsstring
}.

Record Cart := {
  cart_items : list CartItem;
  cart_total : Z;
  cart_updatedAt : Z
}.

(** The object [productPrices]. *)
Definition productPrices : list (jsstring * Z) :=
  [(js "1", 100); (js "2", 200); (js "3", 150); (js "4", 75); (js "5", 300)].

(** [productPrices[key]] for the string that a property key is converted
    to; [None] is [undefined]. *)
Definition priceOf (key : jsstring) : option Z :=
  (fun found : nat * (jsstring * Z) => found.2.2)
    <$> list_find (fun entry => entry.1 = key) productPrices.
Arguments priceOf : simpl never.

Definition CART_TTL_MS : Z := 24 * 60 * 60 * 1000.

(** What the runtime supplies to a handler of the cart: [Date.now()],
    [new Date().toISOString()], and the conversion
    [new Date(t).toISOString()]. *)
Record CartRuntime := {
  cartNow : Z;
  cartNowISO : jsstring;
  toISOString : Z -> jsstring
}.

Inductive CartBody :=
  | CartView (cart : Cart) (lastUpdated : jsstring) (itemCount : Z)
  | CartAdded (cart : Cart) (productId : jsstring) (quantity : Z)
  | CartUpdated (cart : Cart)
  | CartRemoved (cart : Cart) (removedItem : CartItem)
  | CartError (error : jsstring).

Record CartResponse := {
  cartStatus : Z;
  cartHeaders : Headers;
  cartBody : CartBody
}.

Definition cartError (code : Z) (message : string) : CartResponse :=
  {| cartStatus := code; cartHeaders := []; cartBody := CartError (js message) |}.

Section Cart.
Context {K : Type} `{Countable K}.
Context {V : Type} `{JSStrictEq V}.

(** [!productId || !validator.isInt(String(productId), { min: 1 })]. *)
Definition invalidProductId (productId : option V) : bool :=
  falsy productId || negb (isInt (from_option ToString [] productId) 1).

(** [getCart(userId)]: the map after the call and the cart. *)
Definition getCart (rt : CartRuntime) (userId : K) (carts : gmap K Cart)
  : gmap K Cart * Cart :=
  match carts !! userId with
  | Some existing => (carts, existing)
  | None =>
      let newCart :=
        {| cart_items := []; cart_total := 0; cart_updatedAt := cartNow rt |} in
      (<[userId := newCart]> carts, newCart)
  end.

(** The callback of the cleanup timer. *)
Definition cleanup (rt : CartRuntime) (carts : gmap K Cart) : gmap K Cart :=
  let cutoff := cartNow rt - CART_TTL_MS in
  filter (fun entry : K * Cart =>
            ¬ (cart_updatedAt entry.2 = 0 ∨ cart_updatedAt entry.2 < cutoff))
         carts.

(** [router.get('/')]. *)
Definition viewCart (rt : CartRuntime) (userId : K) (carts : gmap K Cart)
  : gmap K Cart * CartResponse :=
  let '(carts, cart) := getCart rt userId carts in
  (carts,
   {| cartStatus := 200;
      cartHeaders :=
        [(js "X-Cart-Items", toString (Z.of_nat (length (cart_items cart))))];
      cartBody := CartView cart (toISOString rt (cart_updatedAt cart))
                           (Z.of_nat (length (cart_items cart))) |}).

(** [cart.items.findIndex(item => item.productId === productId)], where
    [productId] is the member of the body as it was received. *)
Definition findItemStrict (productId : V) (items : list CartItem)
  : option (nat * CartItem) :=
  list_find (fun item => strictEqString productId (item_productId item) = true)
            items.

(** [cart.items.findIndex(item => item.productId === String(productId))]. *)
Definition findItem (key : jsstring) (items : list CartItem)
  : option (nat * CartItem) :=
  list_find (fun item => item_productId item = key) items.

(** [router.post('/')]. *)
Definition addToCart (rt : CartRuntime) (userId : K)
    (productId quantity : option V) (carts : gmap K Cart)
  : gmap K Cart * CartResponse :=
  if invalidProductId productId
  then (carts, cartError 400 "Valid product ID is required")
  else
    let parsedQuantity :=
      match quantity with
      | None => num 1
      | Some v => ToNumber v
      end in
    match asInteger parsedQuantity, productId with
    | Some q, Some productId =>
        if (q <=? 0) || (100 <? q)
        then (carts, cartError 400 "Quantity must be an integer between 1 and 100")
        else
          match priceOf (ToString productId) with
          | None => (carts, cartError 404 "Product not found")
          | Some price =>
              let '(carts, cart) := getCart rt userId carts in
              let items :=
                match findItemStrict productId (cart_items cart) with
                | Some (existingItemIndex, item) =>
                    <[existingItemIndex :=
                        {| item_productId := item_productId item;
                           item_quantity := item_quantity item + q;
                           item_addedAt := item_addedAt item;
                           item_updatedAt := Some (cartNowISO rt) |}]>
                      (cart_items cart)
                | None =>
                    cart_items cart
                    ++ [{| item_productId := ToString productId;
                           item_quantity := q;
                           item_addedAt := cartNowISO rt;
                           item_updatedAt := None |}]
                end in
              let cart :=
                {| cart_items := items;
                   cart_total := cart_total cart + price * q;
                   cart_updatedAt := cartNow rt |} in
              (<[userId := cart]> carts,
               {| cartStatus := 200; cartHeaders := [];
                  cartBody := CartAdded cart (ToString productId) q |})
          end
    | _, _ =>
        (carts, cartError 400 "Quantity must be an integer between 1 and 100")
    end.

(** [router.put('/')]. *)
Definition updateCartItem (rt : CartRuntime) (userId : K)
    (productId quantity : option V) (carts : gmap K Cart)
  : gmap K Cart * CartResponse :=
  if invalidProductId productId
  then (carts, cartError 400 "Valid product ID is required")
  else
    match asInteger (Number quantity), productId with
    | Some q, Some productId =>
        if (q <? 0) || (100 <? q)
        then (carts, cartError 400 "Quantity must be an integer between 0 and 100")
        else
          match priceOf (ToString productId) with
          | None => (carts, cartError 404 "Product not found")
          | Some price =>
              let '(carts, cart) := getCart rt userId carts in
              match findItem (ToString productId) (cart_items cart) with
              | None => (carts, cartError 404 "Item not found in cart")
              | Some (itemIndex, existingItem) =>
                  let cart :=
                    if q =? 0
                    then
                      {| cart_items := delete itemIndex (cart_items cart);
                         cart_total :=
                           cart_total cart - price * item_quantity existingItem;
                         cart_updatedAt := cartNow rt |}
                    else
                      let delta := q - item_quantity existingItem in
                      {| cart_items :=
                           <[itemIndex :=
                               {| item_productId := item_productId existingItem;
                                  item_quantity := q;
                                  item_addedAt := item_addedAt existingItem;
                                  item_updatedAt := Some (cartNowISO rt) |}]>
                             (cart_items cart);
                         cart_total := cart_total cart + price * delta;
                         cart_updatedAt := cartNow rt |} in
                  (<[userId := cart]> carts,
                   {| cartStatus := 200; cartHeaders := [];
                      cartBody := CartUpdated cart |})
              end
          end
    | _, _ =>
        (carts, cartError 400 "Quantity must be an integer between 0 and 100")
    end.

(** [router.delete('/')]; [productId] is the value of the query parameter. *)
Definition removeFromCart (rt : CartRuntime) (userId : K)
    (productId : option V) (carts : gmap K Cart)
  : gmap K Cart * CartResponse :=
  if invalidProductId productId
  then (carts, cartError 400 "Valid product ID is required")
  else
    match productId with
    | None => (carts, cartError 400 "Valid product ID is required")
    | Some productId =>
        match priceOf (ToString productId) with
        | None => (carts, cartError 404 "Product not found")
        | Some price =>
            let '(carts, cart) := getCart rt userId carts in
            match findItem (ToString productId) (cart_items cart) with
            | None => (carts, cartError 404 "Item not found in cart")
            | Some (itemIndex, removedItem) =>
                let cart :=
                  {| cart_items := delete itemIndex (cart_items cart);
                     cart_total :=
                       cart_total cart - price * item_quantity removedItem;
                     cart_updatedAt := cartNow rt |} in
                (<[userId := cart]> carts,
                 {| cartStatus := 200; cartHeaders := [];
                    cartBody := CartRemoved cart removedItem |})
            end
        end
    end.

(** What happens to the carts: a request of an authenticated user, or a
    tick of the cleanup timer. *)
Inductive CartEvent :=
  | ViewCart (userId : K)
  | AddToCart (userId : K) (productId quantity : option V)
  | UpdateCartItem (userId : K) (productId quantity : option V)
  | RemoveFromCart (userId : K) (productId : option V)
  | Cleanup.

Definition cartStep (rt : CartRuntime) (e : CartEvent) (carts : gmap K Cart)
  : gmap K Cart :=
  match e with
  | ViewCart userId => (viewCart rt userId carts).1
  | AddToCart userId productId quantity =>
      (addToCart rt userId productId quantity carts).1
  | UpdateCartItem userId productId quantity =>
      (updateCartItem rt userId productId quantity carts).1
  | RemoveFromCart userId productId => (removeFromCart rt userId productId carts).1
  | Cleanup => cleanup rt carts
  end.

(** The carts after the events, each with what the runtime supplies to
    it. *)
Definition cartRun (events : list (CartRuntime * CartEvent)) (carts : gmap K Cart)
  : gmap K Cart :=
  fold_left (fun carts e => cartStep e.1 e.2 carts) events carts.

End Cart.
Arguments CartEvent K V : clear implicits.
(** * Vocabulary of the properties *)

(** [q] occurs in [t] as a contiguous substring. *)
Definition substring (q t : jsstring) : Prop :=
  ∃ before after, t = before ++ q ++ after.

(** No white space other than single spaces, none of them after white
    space; [inRun] tells whether the text follows white space. *)
Fixpoint collapsed (inRun : bool) (s : jsstring) : bool :=
  match s with
  | [] => true
  | c :: r =>
      if isWhiteSpace c
      then negb inRun && bool_decide (c = space) && collapsed true r
      else collapsed false r
  end.

Definition lowered (s : jsstring) : Prop :=
  Forall (fun c => toLowerCaseChar c = c) s.

(** The posting set under a key: [index.get(key) || new Set()]. *)
Definition postings (index : gmap jsstring idset) (key : jsstring) : idset :=
  default [] (index !! key).

(** The state holds the indexes built from the product list [ps], and the
    products of [ps] annotated with their text. *)
Definition Indexed (ps : list Product) (s : State) : Prop :=
  products s = map setSearchableText ps ∧ indexes s = buildIndexMaps ps.

(** The test of the verification filter. *)
Definition textIncludes (normalizedQuery : jsstring) (p : Product) : bool :=
  match searchableText p with
  | Some text => includes text normalizedQuery
  | None => false
  end.

(** The items of page [page] (counted from 1) of the list [l]. *)
Definition pageSlice {A} (l : list A) (limit page : Z) : list A :=
  slice l ((page - 1) * limit) ((page - 1) * limit + limit).

Definition isDigit (c : ascii) : Prop := is_Some (digitValue c).

Definition isDigitOrMinus (c : ascii) : Prop := isDigit c ∨ c = ascii_of_N 45.

(** Reading back the first code unit of an escaped string: the inverse of
    [escapeChar]; [None] at the end of the text and at the closing
    quotation mark. *)
Definition hexValue (c : ascii) : N :=
  let n := code c in
  if (n <? 58)%N then (n - 48)%N else (n - 87)%N.

Definition unescapeHead (s : jsstring) : option (ascii * jsstring) :=
  match s with
  | [] => None
  | c :: r =>
      if bool_decide (c = dquote) then None
      else if bool_decide (c = backslash) then
        match r with
        | e :: r' =>
            let n := code e in
            if (n =? 34)%N then Some (dquote, r')
            else if (n =? 92)%N then Some (backslash, r')
            else if (n =? 98)%N then Some (ascii_of_N 8, r')
            else if (n =? 116)%N then Some (ascii_of_N 9, r')
            else if (n =? 110)%N then Some (ascii_of_N 10, r')
            else if (n =? 102)%N then Some (ascii_of_N 12, r')
            else if (n =? 114)%N then Some (ascii_of_N 13, r')
            else match r' with
                 | _ :: _ :: h :: l :: r'' =>
                     Some (ascii_of_N (16 * hexValue h + hexValue l), r'')
                 | _ => None
                 end
        | [] => None
        end
      else Some (c, r)
  end.

(** The two code units that can follow a member of a printed object. *)
Definition isMemberEnd (c : ascii) : Prop := c = ascii_of_N 44 ∨ c = ascii_of_N 125.

(** The ids are pairwise distinct, and each is the decimal form of a
    natural number. *)
Definition canonicalIds (ps : list Product) : Prop :=
  NoDup (map id ps) ∧ Forall (fun p => ∃ n, 0 <= n ∧ id p = toString n) ps.

(** Every cached entry holds what the list handler computes, in this
    state, for the parameters of its key. *)
Definition cacheCoherent (s : State) : Prop :=
  ∀ key entry, responseCache s !! key = Some entry →
    ∃ rt p filteredProducts,
      key = getCacheKey (paramObject p)
      ∧ selectProducts s (search p) (categoryFilter p) = Some filteredProducts
      ∧ payload entry = responsePayload rt p (sortProducts p filteredProducts)
      ∧ headers entry = totalCountHeaders (sortProducts p filteredProducts).

(** The invariant of the service: the indexes are those of the stored
    products, the ids are canonical, and the cache is coherent. *)
Definition wellFormed (s : State) : Prop :=
  Indexed (products s) s ∧ canonicalIds (products s) ∧ cacheCoherent s.

(** The products of a response, when it is a list. *)
Definition responseProducts (r : Response) : list PublicProduct :=
  match body r with
  | ListBody p => payloadProducts p
  | _ => []
  end.

Definition responsePagination (r : Response) : option Pagination :=
  match body r with
  | ListBody p => Some (pagination p)
  | _ => None
  end.

(** The same query for another page. *)
Definition withPage (q : ListQuery) (n : Z) : ListQuery :=
  {| rawPage := num n; rawLimit := rawLimit q; rawSearch := rawSearch q;
     rawCategory := rawCategory q; rawSortBy := rawSortBy q;
     rawSortOrder := rawSortOrder q |}.

(** A runtime for the examples: every random draw is 0, the clock stands at
    0, and [BACKEND_URL] is not set. *)
Definition quietRuntime : Runtime :=
  {| random := fun _ => 0%Q; now := 0;
     nowISO := js "1970-01-01T00:00:00.000Z"; BACKEND_URL := None |}.

(** An update body with no member. *)
Definition emptyData (V : Type) : ProductData V :=
  {| data_name := None; data_description := None; data_price := None;
     data_category := None; data_brand := None; data_stock := None;
     data_tags := None |}.

(** What an update leaves alone: the identity, the rating, the creation
    time and the internal fields, and every updatable field for which the
    body has no member. *)
Definition updateFrame {V} (updateData : ProductData V) (stored updated : Product)
  : Prop :=
  id updated = id stored
  ∧ rating updated = rating stored
  ∧ createdAt updated = createdAt stored
  ∧ costPrice updated = costPrice stored
  ∧ supplier updated = supplier stored
  ∧ internalNotes updated = internalNotes stored
  ∧ adminOnly updated = adminOnly stored
  ∧ (data_name updateData = None → name updated = name stored)
  ∧ (data_description updateData = None →
     description updated = description stored)
  ∧ (data_price updateData = None → price updated = price stored)
  ∧ (data_category updateData = None → category updated = category stored)
  ∧ (data_brand updateData = None → brand updated = brand stored)
  ∧ (data_stock updateData = None → stock updated = stock stored)
  ∧ (data_tags updateData = None → tags updated = tags stored).

(** A list query with every parameter left out, but the search and the
    category. *)
Definition searchQuery (search category : jsstring) : ListQuery :=
  {| rawPage := num 1; rawLimit := num DEFAULT_LIMIT; rawSearch := search;
     rawCategory := category; rawSortBy := None; rawSortOrder := None |}.

(** Two parameter sets that denote the same query: they agree on every
    parameter, the search strings up to normalization. *)
Definition equivalentParams (p1 p2 : ListParams) : Prop :=
  page p1 = page p2 ∧ limit p1 = limit p2
  ∧ normalizeText (search p1) = normalizeText (search p2)
  ∧ categoryFilter p1 = categoryFilter p2
  ∧ sortBy p1 = sortBy p2 ∧ sortOrder p1 = sortOrder p2.

(** The first product of the start-up catalog, as stored. *)
Definition firstProduct (rt : Runtime) : Product :=
  setSearchableText (generateProduct rt 0 1).

(** A small catalog for the scenarios. *)
Definition sampleProduct (i : Z) (productName productCategory : string)
    (productPrice : Z) : Product :=
  {| id := toString i; name := js productName;
     description := js "A sample product"; price := num productPrice;
     category := js productCategory; brand := js "BrandA"; stock := num 5;
     rating := VNum (num 0); tags := [];
     createdAt := js "1970-01-01T00:00:00.000Z";
     costPrice := num 1; supplier := js "Unknown"; internalNotes := [];
     adminOnly := false; searchableText := None |}.

Definition emptyState : State :=
  {| products := []; indexes := emptyIndexes; generatedAt := 0;
     responseCache := ∅ |}.

Definition shoeCatalog : State :=
  buildIndexes
    [sampleProduct 1 "Red Shoe" "Footwear" 30;
     sampleProduct 2 "Blue Shoe" "Footwear" 20;
     sampleProduct 3 "Red Hat" "Headwear" 20]
    emptyState.

Definition largeCatalog : State :=
  buildIndexes
    (map (fun i : nat => sampleProduct (Z.of_nat i + 1) "Item" "Things" 10)
         (seq 0 25))
    emptyState.

Definition responseNames (r : Response) : list string :=
  map (fun x => string_of_list_ascii (pub_name x)) (responseProducts r).

Definition responseIds (r : Response) : list string :=
  map (fun x => string_of_list_ascii (pub_id x)) (responseProducts r).

(** Under a comparator, [y] does not sort before [x]. *)
Definition inOrder {A} (comparer : A → A → Z) (x y : A) : Prop :=
  ¬ comparer y x < 0.

(** The sort key of the product is a finite number. *)
Definition finiteKey (sortBy : jsstring) (p : Product) : Prop :=
  ∃ q, fieldValue sortBy p = Some (VNum (Finite q)).

(** By the key and in the direction of the sort, [b] does not come before
    [a]. *)
Definition keyOrdered (sortBy sortOrder : jsstring) (a b : Product) : Prop :=
  (if bool_decide (sortOrder = js "desc") then 0 <= compareAscending
        (fieldValue sortBy a) (fieldValue sortBy b)
   else compareAscending (fieldValue sortBy a) (fieldValue sortBy b) <= 0).

(** The product that the create handler stores for a body that passes the
    validation, when the catalog holds [ps]. *)
Definition createdProduct {V} `{JSValue V} (rt : Runtime)
    (productData : ProductData V) (ps : list Product) : Product :=
  {| id := newId ps;
     name := sanitizeText (data_name productData);
     description := sanitizeText (data_description productData);
     price := Number (data_price productData);
     category := sanitizeText (data_category productData);
     brand := sanitizeText (data_brand productData);
     stock := NumberOrZero (data_stock productData);
     rating := VNum (num 0);
     tags := sanitizeTags (data_tags productData);
     createdAt := nowISO rt;
     costPrice := timesSevenTenths (Number (data_price productData));
     supplier := js "Unknown";
     internalNotes := [];
     adminOnly := false;
     searchableText := None |}.

(** The id is the decimal form of a positive integer. *)
Definition positiveId (p : Product) : Prop :=
  ∃ n, 1 <= n ∧ id p = toString n.

(** The answer 200 with one product. *)
Definition productFound (p : PublicProduct) : Response :=
  {| status := 200; responseHeaders := []; body := ProductBody p |}.
(** An environment of the middleware in which no secret is set and no
    token verifies. *)
Definition noSecret : AuthEnv :=
  {| JWT_SECRET := []; verify := fun _ _ => None |}.

(** The category test of a linear scan: no category is asked for, or it is
    the category of the product. *)
Definition categoryMatches (wanted : jsstring) (p : Product) : bool :=
  bool_decide (wanted = []) || bool_decide (category p = wanted).

(** The contract of [Math.random()]: every draw is in the interval from 0
    (included) to 1 (excluded). *)
Definition unitRandom (rt : Runtime) : Prop :=
  ∀ n, (0 <= random rt n)%Q ∧ (random rt n < 1)%Q.

(** The rational is a double: rounding leaves it as it is. *)
Definition isDouble (q : Q) : Prop := (roundDouble q == q)%Q.

(** The largest double below 1. *)
Definition belowOne : Q := 1 - (1 # 9007199254740992).

(** The contract of [Math.random()], in full: every draw is a double in
    the interval from 0 (included) to 1 (excluded). *)
Definition doubleRandom (rt : Runtime) : Prop :=
  ∀ n, isDouble (random rt n) ∧ (0 <= random rt n)%Q ∧ (random rt n < 1)%Q.

(** A runtime whose draws run through the multiples of 1/1024 below 1. *)
Definition variedRuntime : Runtime :=
  {| random := fun n => Z.of_nat (n mod 1024) # 1024; now := 0;
     nowISO := js "1970-01-01T00:00:00.000Z"; BACKEND_URL := None |}.

(** A runtime whose every draw is one double, 4494592428115755 / 2^52, for
    which the products with 1000 and with 500 are rounded upwards. *)
Definition roundingRuntime : Runtime :=
  {| random := fun _ => 4494592428115755 # 4503599627370496; now := 0;
     nowISO := js "1970-01-01T00:00:00.000Z"; BACKEND_URL := None |}.

(** The fields that [generateProducts] draws at random are in their
    ranges. *)
Definition inGeneratedRanges (p : Product) : Prop :=
  (∃ n, price p = num n ∧ 10 <= n <= 1009)
  ∧ (∃ n, stock p = num n ∧ 0 <= n <= 99)
  ∧ category p ∈ categories
  ∧ brand p ∈ brands
  ∧ (∃ n, costPrice p = num n ∧ 5 <= n <= 504).

(** The price is a finite positive number and the stock is a non-negative
    integer. *)
Definition validNumbers (p : Product) : Prop :=
  (∃ q, price p = Finite q ∧ (0 < q)%Q)
  ∧ (∃ n, asInteger (stock p) = Some n ∧ 0 <= n).
(** [product[sortBy]] on the public view of a product. *)
Definition publicFieldValue (sortBy : jsstring) (product : PublicProduct)
  : option jsval :=
  if bool_decide (sortBy = js "name") then Some (VStr (pub_name product))
  else if bool_decide (sortBy = js "price") then Some (VNum (pub_price product))
  else if bool_decide (sortBy = js "category") then Some (VStr (pub_category product))
  else if bool_decide (sortBy = js "brand") then Some (VStr (pub_brand product))
  else if bool_decide (sortBy = js "stock") then Some (VNum (pub_stock product))
  else if bool_decide (sortBy = js "rating") then Some (pub_rating product)
  else if bool_decide (sortBy = js "createdAt") then Some (VStr (pub_createdAt product))
  else None.

(** Two sort keys of one kind, in ascending order: finite numbers by
    value, strings by their code units. *)
Definition keyLe (x y : option jsval) : Prop :=
  match x, y with
  | Some (VNum (Finite a)), Some (VNum (Finite b)) => (a <= b)%Q
  | Some (VStr a), Some (VStr b) => strLt b a = false
  | _, _ => False
  end.

(** [a] may come before [b] in a list sorted by [sortBy] in the direction
    [sortOrder]. *)
Definition inSortOrder (sortBy sortOrder : jsstring) (a b : PublicProduct) : Prop :=
  if bool_decide (sortOrder = js "desc")
  then keyLe (publicFieldValue sortBy b) (publicFieldValue sortBy a)
  else keyLe (publicFieldValue sortBy a) (publicFieldValue sortBy b).

(** The sort key of the product is a string. *)
Definition stringKey (sortBy : jsstring) (p : Product) : Prop :=
  ∃ t, fieldValue sortBy p = Some (VStr t).
(** None of the code units that [validator.escape] replaces, the ampersand
    apart (it starts the entities): the quotation marks, the slash, the
    angle brackets, the backslash and the backtick. *)
Definition isMarkup (c : ascii) : bool :=
  bool_decide (code c ∈ [34; 39; 47; 60; 62; 92; 96]%N).

Definition markupFree (s : jsstring) : Prop := Forall (fun c => isMarkup c = false) s.

(** The texts of the product that the handlers sanitize hold no markup. *)
Definition textsEscaped (p : Product) : Prop :=
  markupFree (name p) ∧ markupFree (description p) ∧ markupFree (category p)
  ∧ markupFree (brand p) ∧ Forall markupFree (tags p).
(** A request body that passes the validation. *)
Definition lampData : ProductData json :=
  {| data_name := Some (JString (js "Blue <Lamp>"));
     data_description := None;
     data_price := Some (JNumber 12);
     data_category := Some (JString (js "Home"));
     data_brand := None;
     data_stock := Some (JNumber 3);
     data_tags := Some (JArray [JString (js "light")]) |}.
(** An update body with two members: a name and a price. *)
Definition renameData : ProductData json :=
  {| data_name := Some (JString (js "Desk <Lamp>"));
     data_description := None;
     data_price := Some (JNumber 25);
     data_category := None; data_brand := None; data_stock := None;
     data_tags := None |}.
(** The call is to a route that changes the catalog and comes with a
    header that [requireAdmin] lets through. *)
Definition authorized {V} (env : AuthEnv) (c : Call V) : bool :=
  let passes authorization :=
    match requireAdmin env authorization with
    | inr _ => true
    | inl _ => false
    end in
  match c with
  | PostProduct authorization _ => passes authorization
  | PutProduct authorization _ _ => passes authorization
  | DeleteProductById authorization _ => passes authorization
  | _ => false
  end.

(** The call is to a route behind [requireAdmin]. *)
Definition isAdminRoute {V} (c : Call V) : bool :=
  match c with
  | PostProduct _ _ | PutProduct _ _ _ | DeleteProductById _ _ => true
  | _ => false
  end.

(** An environment with a secret, in which the token [good] verifies as
    the administrator [root] and the token [plain] as a user without role;
    no other token verifies. *)
Definition demoEnv : AuthEnv :=
  {| JWT_SECRET := js "secret";
     verify := fun token _ =>
       if bool_decide (token = js "good")
       then Some {| token_sub := Some (JString (js "root")); token_id := None;
                    token_role := Some (JString (js "admin")) |}
       else if bool_decide (token = js "plain")
       then Some {| token_sub := None; token_id := Some (JNumber 7);
                    token_role := None |}
       else None |}.
(** The number of requests of the address [key] that were let through. *)
Fixpoint passedFor (key : jsstring) (requests : list (Z * jsstring))
    (outcomes : list bool) : Z :=
  match requests, outcomes with
  | (_, k) :: requests, passed :: outcomes =>
      (if bool_decide (k = key) && passed then 1 else 0)
      + passedFor key requests outcomes
  | _, _ => 0
  end.

(** Every request of the address [key] comes at a time from [a] to
    [a + RATE_LIMIT_WINDOW_MS]. *)
Definition withinOneMinute (key : jsstring) (a : Z)
    (requests : list (Z * jsstring)) : Prop :=
  Forall (fun r => r.2 = key → a <= r.1 <= a + RATE_LIMIT_WINDOW_MS) requests.
(** [w] is a word of the text [t]: a run of letters and digits, two code
    units long or more, that no letter or digit precedes or follows. *)
Definition isWordOf (w t : jsstring) : Prop :=
  (2 <= length w)%nat
  ∧ Forall (fun c => isAlnum c = true) w
  ∧ ∃ before after,
      t = before ++ w ++ after
      ∧ (∀ c, last before = Some c → isAlnum c = false)
      ∧ (∀ c, head after = Some c → isAlnum c = false).
(** The value of an item: its quantity at the price of its product. *)
Definition itemValue (item : CartItem) : Z :=
  default 0 (priceOf (item_productId item)) * item_quantity item.

Definition itemsValue (items : list CartItem) : Z :=
  foldr (fun item acc => itemValue item + acc) 0 items.

(** The total of the cart is the value of its items, every item is of a
    product that has a price, and every quantity is 1 or more. *)
Definition cartSound (cart : Cart) : Prop :=
  cart_total cart = itemsValue (cart_items cart)
  ∧ Forall (fun item => is_Some (priceOf (item_productId item))
                        ∧ 1 <= item_quantity item)
           (cart_items cart).

(** The cart has one item at most for a product. *)
Definition oneItemPerProduct (cart : Cart) : Prop :=
  NoDup (item_productId <$> cart_items cart).

(** The user of a request; the cleanup timer has none. *)
Definition eventUser {K V} (e : CartEvent K V) : option K :=
  match e with
  | ViewCart userId | AddToCart userId _ _ | UpdateCartItem userId _ _
  | RemoveFromCart userId _ => Some userId
  | Cleanup => None
  end.

(** [typeof v === 'string']: the value is the string it converts to. *)
Definition isAString `{JSStrictEq V} (v : V) : bool :=
  strictEqString v (ToString v).

(** The product id of a request that adds to a cart is a string. *)
Definition addsByString `{JSStrictEq V} {K} (e : CartEvent K V) : Prop :=
  match e with
  | AddToCart _ (Some v) _ => isAString v = true
  | _ => True
  end.

(** The items of the cart of a user; a user without a cart has none. *)
Definition itemsOf `{Countable K} (userId : K) (carts : gmap K Cart)
  : list CartItem :=
  from_option cart_items [] (carts !! userId).

(** What is sent for a request; the cleanup timer sends nothing. *)
Definition cartResponse `{Countable K} `{JSStrictEq V}
    (rt : CartRuntime) (e : CartEvent K V) (carts : gmap K Cart)
  : option CartResponse :=
  match e with
  | ViewCart userId => Some (viewCart rt userId carts).2
  | AddToCart userId productId quantity =>
      Some (addToCart rt userId productId quantity carts).2
  | UpdateCartItem userId productId quantity =>
      Some (updateCartItem rt userId productId quantity carts).2
  | RemoveFromCart userId productId =>
      Some (removeFromCart rt userId productId carts).2
  | Cleanup => None
  end.

(** The cart that [getCart] makes for a user who has none. *)
Definition emptyCart (cart : Cart) : Prop :=
  cart_items cart = [] ∧ cart_total cart = 0.

(** A runtime for the scenarios of the cart. *)
Definition cartRuntime : CartRuntime :=
  {| cartNow := 1000; cartNowISO := js "1970-01-01T00:00:01.000Z";
     toISOString := fun _ => js "1970-01-01T00:00:01.000Z" |}.
(** * Properties *)

(** ** Strings *)

Lemma startsWith_spec t q :
  startsWith t q = true ↔ ∃ after, t = q ++ after.
Proof.
  revert t; induction q as [|c q IH]; intros t.
  - destruct t; simpl; (split; [intros _; by eexists | done]).
  - destruct t as [|d t]; simpl.
    + split; [done | intros [? ?]; done].
    + rewrite andb_true_iff, bool_decide_eq_true, IH. split.
      * intros [-> [after ->]]. eauto.
      * intros [after [= -> ->]]. eauto.
Qed.


Lemma includes_spec t q : includes t q = true ↔ substring q t.
Proof.
  unfold substring. induction t as [|d t IH]; cbn [includes].
  - rewrite orb_false_r, startsWith_spec. split.
    + intros [after ->]. by exists [], after.
    + intros (before & after & Heq). symmetry in Heq.
      apply app_eq_nil in Heq as [-> Heq]. apply app_eq_nil in Heq as [-> ->].
      by exists [].
  - rewrite orb_true_iff, startsWith_spec, IH. split.
    + intros [[after ->] | (before & after & ->)].
      * by exists [], after.
      * by exists (d :: before), after.
    + intros (before & after & Heq). destruct before as [|b before].
      * left. exists after. done.
      * right. injection Heq as -> ->. eauto.
Qed.

Lemma substring_refl t : substring t t.
Proof. exists [], []. by rewrite app_nil_r. Qed.

Lemma substring_trans a b c : substring a b → substring b c → substring a c.
Proof.
  intros (b1 & b2 & ->) (c1 & c2 & ->).
  exists (c1 ++ b1), (b2 ++ c2). by rewrite <- !app_assoc.
Qed.

Lemma substring_drop n t : substring (drop n t) t.
Proof. exists (take n t), []. by rewrite app_nil_r, take_drop. Qed.

Lemma substring_take n t : substring (take n t) t.
Proof. exists [], (drop n t). simpl. by rewrite take_drop. Qed.

Lemma slice_take_drop {A} (l : list A) (i : nat) (n : Z) :
  0 <= n → Z.of_nat i + n <= Z.of_nat (length l) →
  slice l (Z.of_nat i) (Z.of_nat i + n) = take (Z.to_nat n) (drop i l).
Proof.
  intros Hn Hle. unfold slice, relativeIndex.
  destruct (Z.ltb_spec (Z.of_nat i) 0); [lia|].
  destruct (Z.ltb_spec (Z.of_nat i + n) 0); [lia|].
  rewrite !Z.min_l by lia.
  replace (Z.of_nat i + n - Z.of_nat i) with n by lia.
  by rewrite Nat2Z.id.
Qed.

(** The trigrams of a text are its substrings of length 3. *)
Lemma elem_of_getTrigrams x t :
  x ∈ getTrigrams t ↔ length x = 3%nat ∧ substring x t.
Proof.
  unfold getTrigrams. destruct (Z.ltb_spec (Z.of_nat (length t)) 3) as [Hlt|Hge].
  - split; [by intros ?%elem_of_nil|].
    intros [Hlen (before & after & ->)]. rewrite !length_app in Hlt. lia.
  - rewrite list_elem_of_fmap. split.
    + intros (i & -> & Hi%elem_of_seq).
      rewrite (slice_take_drop t i 3) by lia. split.
      * rewrite length_take, length_drop. lia.
      * eapply substring_trans; [apply substring_take | apply substring_drop].
    + intros [Hlen (before & after & ->)]. exists (length before). split.
      * rewrite (slice_take_drop _ (length before) 3)
          by (rewrite ?length_app; lia).
        rewrite drop_app_length. rewrite take_app_length'; done.
      * apply elem_of_seq. rewrite !length_app. lia.
Qed.

Lemma getTrigrams_substring q t x :
  substring q t → x ∈ getTrigrams q → x ∈ getTrigrams t.
Proof.
  rewrite !elem_of_getTrigrams. intros Hqt [Hlen Hxq]. split; [done|].
  by eapply substring_trans.
Qed.

Lemma getTrigrams_nonempty q : (3 <= length q)%nat ↔ getTrigrams q ≠ [].
Proof.
  unfold getTrigrams. destruct (Z.ltb_spec (Z.of_nat (length q)) 3) as [Hlt|Hge].
  - split; [lia | done].
  - split; [|lia]. intros _ Hnil. apply fmap_nil_inv in Hnil.
    destruct (length q - 2)%nat eqn:E; [lia | done].
Qed.

(** *** Normalized texts *)


Lemma toLowerCaseChar_idemp c :
  toLowerCaseChar (toLowerCaseChar c) = toLowerCaseChar c.
Proof. by destruct c as [[] [] [] [] [] [] [] []]. Qed.

Lemma toLowerCase_lowered s : lowered (toLowerCase s).
Proof.
  unfold lowered, toLowerCase. apply Forall_fmap, Forall_forall.
  intros c _. apply toLowerCaseChar_idemp.
Qed.

Lemma lowered_toLowerCase s : lowered s → toLowerCase s = s.
Proof.
  unfold toLowerCase. induction 1 as [|c s Hc _ IH]; simpl; [done|].
  by rewrite Hc, IH.
Qed.

Lemma lowered_substring q t : substring q t → lowered t → lowered q.
Proof.
  intros (before & after & ->). unfold lowered.
  rewrite !Forall_app. tauto.
Qed.

Lemma replaceWhitespaceRuns_lowered b s :
  lowered s → lowered (replaceWhitespaceRuns b s).
Proof.
  intros Hs. revert b. induction Hs as [|c s Hc _ IH]; intros b; simpl.
  - constructor.
  - destruct (isWhiteSpace c); [destruct b|].
    + apply IH.
    + constructor; [done | apply IH].
    + constructor; [done | apply IH].
Qed.

Lemma replaceWhitespaceRuns_collapsed b s :
  collapsed b (replaceWhitespaceRuns b s) = true.
Proof.
  revert b. induction s as [|c s IH]; intros b; simpl; [done|].
  destruct (isWhiteSpace c) eqn:Hc.
  - destruct b; [apply IH|]. simpl. apply IH.
  - simpl. rewrite Hc. apply IH.
Qed.

Lemma collapsed_replaceWhitespaceRuns b s :
  collapsed b s = true → replaceWhitespaceRuns b s = s.
Proof.
  revert b. induction s as [|c s IH]; intros b; simpl; [done|].
  destruct (isWhiteSpace c).
  - rewrite !andb_true_iff, negb_true_iff, bool_decide_eq_true.
    intros [[-> ->] Hs]. by rewrite IH.
  - intros Hs. by rewrite IH.
Qed.

Lemma collapsed_weaken b s : collapsed b s = true → collapsed false s = true.
Proof.
  destruct s as [|c s]; simpl; [done|].
  destruct (isWhiteSpace c); [|done].
  rewrite !andb_true_iff, negb_true_iff. by intros [[-> ->] ->].
Qed.

Lemma collapsed_app_r b a s :
  collapsed b (a ++ s) = true → collapsed false s = true.
Proof.
  revert b. induction a as [|c a IH]; intros b; simpl.
  - apply collapsed_weaken.
  - destruct (isWhiteSpace c); [|apply IH].
    rewrite !andb_true_iff. intros [_ Hs]. by eapply IH.
Qed.

Lemma collapsed_app_l b a s :
  collapsed b (a ++ s) = true → collapsed b a = true.
Proof.
  revert b. induction a as [|c a IH]; intros b; simpl; [done|].
  destruct (isWhiteSpace c); [|apply IH].
  rewrite !andb_true_iff. intros [Hc Hs]. split; [done|]. by eapply IH.
Qed.

Lemma collapsed_substring q t :
  substring q t → collapsed false t = true → collapsed false q = true.
Proof.
  intros (before & after & ->) Ht.
  apply collapsed_app_r in Ht. by apply collapsed_app_l in Ht.
Qed.

Lemma trimStart_suffix s : ∃ before, s = before ++ trimStart s.
Proof.
  induction s as [|c s [before IH]]; simpl.
  - by exists [].
  - destruct (isWhiteSpace c).
    + exists (c :: before). simpl. by f_equal.
    + by exists [].
Qed.

Lemma trim_substring s : substring (trim s) s.
Proof.
  unfold trim, trimEnd.
  destruct (trimStart_suffix s) as [before Hs].
  destruct (trimStart_suffix (rev (trimStart s))) as [after Hr].
  exists before, (rev after).
  rewrite <- rev_app_distr, <- Hr, rev_involutive. done.
Qed.

(** A query cut out of an indexed text normalizes to a substring of that
    text. *)
Lemma normalizeText_substring q value :
  substring q (normalizeText value) →
  substring (normalizeText q) (normalizeText value).
Proof.
  intros Hq.
  assert (Hin : substring q (replaceWhitespaceRuns false (toLowerCase value))).
  { eapply substring_trans; [exact Hq | apply trim_substring]. }
  assert (Hlow : lowered q).
  { eapply lowered_substring; [exact Hin|].
    apply replaceWhitespaceRuns_lowered, toLowerCase_lowered. }
  assert (Hcol : collapsed false q = true).
  { eapply collapsed_substring; [exact Hin|].
    apply replaceWhitespaceRuns_collapsed. }
  unfold normalizeText at 1.
  rewrite (lowered_toLowerCase q Hlow), (collapsed_replaceWhitespaceRuns _ q Hcol).
  eapply substring_trans; [apply trim_substring | exact Hq].
Qed.

(** ** Indexes *)

Lemma elem_of_setAdd s x y : y ∈ setAdd s x ↔ y ∈ s ∨ y = x.
Proof.
  unfold setAdd, setHas. case_bool_decide as Hx.
  - split; [auto | intros [?| ->]; done].
  - rewrite elem_of_app, list_elem_of_singleton. done.
Qed.

Lemma setAdd_NoDup s x : NoDup s → NoDup (setAdd s x).
Proof.
  intros Hs. unfold setAdd, setHas. case_bool_decide as Hx; [done|].
  apply NoDup_app. split_and!; [done | | apply NoDup_singleton].
  intros y Hy ->%list_elem_of_singleton. done.
Qed.

Lemma elem_of_setIntersect s other x :
  x ∈ setIntersect s other ↔ x ∈ s ∧ x ∈ other.
Proof.
  unfold setIntersect, setHas. rewrite list_elem_of_filter, bool_decide_eq_true.
  tauto.
Qed.

Lemma postings_addToIndex m key x key' y :
  y ∈ postings (addToIndex m key x) key'
  ↔ y ∈ postings m key' ∨ (key' = key ∧ y = x).
Proof.
  unfold postings, addToIndex.
  destruct (decide (key' = key)) as [->|Hne].
  - rewrite lookup_alter_eq. case_bool_decide as Hsome.
    + destruct Hsome as [s ->]. simpl. rewrite elem_of_setAdd. tauto.
    + rewrite lookup_insert_eq. apply eq_None_not_Some in Hsome as ->. simpl.
      rewrite elem_of_setAdd. tauto.
  - rewrite lookup_alter_ne by done. case_bool_decide.
    + tauto.
    + rewrite lookup_insert_ne by done. tauto.
Qed.

Lemma postings_addToIndex_fold keys m x key y :
  y ∈ postings (fold_left (fun m k => addToIndex m k x) keys m) key
  ↔ y ∈ postings m key ∨ (key ∈ keys ∧ y = x).
Proof.
  revert m. induction keys as [|k keys IH]; intros m; simpl.
  - rewrite elem_of_nil. tauto.
  - rewrite IH, postings_addToIndex, elem_of_cons. tauto.
Qed.

Lemma postings_empty key y : y ∈ postings ∅ key ↔ False.
Proof. unfold postings. rewrite lookup_empty. simpl. by rewrite elem_of_nil. Qed.

Lemma buildIndexMaps_snoc ps p :
  buildIndexMaps (ps ++ [p]) = indexProduct (buildIndexMaps ps) p.
Proof. unfold buildIndexMaps. by rewrite fold_left_app. Qed.

(** The posting sets hold exactly the ids of the products from which the
    key is derived. *)
Lemma elem_of_trigramIndex ps key y :
  y ∈ postings (trigramIndex (buildIndexMaps ps)) key
  ↔ ∃ p, p ∈ ps ∧ id p = y ∧ key ∈ getTrigrams (searchText p).
Proof.
  induction ps as [|p ps IH] using rev_ind.
  - simpl. rewrite postings_empty. split; [done|].
    by intros (p & ?%elem_of_nil & _).
  - rewrite buildIndexMaps_snoc. simpl.
    rewrite postings_addToIndex_fold, IH. split.
    + intros [(p' & Hin & Hid & Hkey) | [Hkey ->]].
      * exists p'. rewrite elem_of_app. auto.
      * exists p. rewrite elem_of_app, list_elem_of_singleton. auto.
    + intros (p' & [Hin | ->%list_elem_of_singleton]%elem_of_app & Hid & Hkey).
      * left. eauto.
      * right. auto.
Qed.

Lemma elem_of_wordIndex ps key y :
  y ∈ postings (wordIndex (buildIndexMaps ps)) key
  ↔ ∃ p, p ∈ ps ∧ id p = y ∧ key ∈ getWords (searchText p).
Proof.
  induction ps as [|p ps IH] using rev_ind.
  - simpl. rewrite postings_empty. split; [done|].
    by intros (p & ?%elem_of_nil & _).
  - rewrite buildIndexMaps_snoc. simpl.
    rewrite postings_addToIndex_fold, IH. split.
    + intros [(p' & Hin & Hid & Hkey) | [Hkey ->]].
      * exists p'. rewrite elem_of_app. auto.
      * exists p. rewrite elem_of_app, list_elem_of_singleton. auto.
    + intros (p' & [Hin | ->%list_elem_of_singleton]%elem_of_app & Hid & Hkey).
      * left. eauto.
      * right. auto.
Qed.

Lemma elem_of_categoryIndex ps key y :
  y ∈ postings (categoryIndex (buildIndexMaps ps)) key
  ↔ ∃ p, p ∈ ps ∧ id p = y ∧ category p = key.
Proof.
  induction ps as [|p ps IH] using rev_ind.
  - simpl. rewrite postings_empty. split; [done|].
    by intros (p & ?%elem_of_nil & _).
  - rewrite buildIndexMaps_snoc. simpl.
    rewrite postings_addToIndex, IH. split.
    + intros [(p' & Hin & Hid & Hkey) | [Hkey ->]].
      * exists p'. rewrite elem_of_app. auto.
      * exists p. rewrite elem_of_app, list_elem_of_singleton. auto.
    + intros (p' & [Hin | ->%list_elem_of_singleton]%elem_of_app & Hid & Hkey).
      * left. eauto.
      * right. auto.
Qed.

(** The primary index resolves an id to the last product of the list that
    carries it, annotated with its text. *)
Lemma productById_lookup ps y :
  productById (buildIndexMaps ps) !! y
  = setSearchableText <$> last (filter (fun p => id p = y) ps).
Proof.
  induction ps as [|p ps IH] using rev_ind; [done|].
  rewrite buildIndexMaps_snoc, filter_app. simpl.
  rewrite filter_cons, filter_nil.
  destruct (decide (id p = y)) as [->|Hne].
  - rewrite lookup_insert_eq, last_snoc. done.
  - rewrite lookup_insert_ne by done. by rewrite app_nil_r.
Qed.

Lemma productById_Some ps y q :
  productById (buildIndexMaps ps) !! y = Some q →
  ∃ p, p ∈ ps ∧ id p = y ∧ q = setSearchableText p.
Proof.
  rewrite productById_lookup. intros Hq.
  apply fmap_Some in Hq as (p & Hlast & ->).
  apply last_Some in Hlast as [l' Hl'].
  assert (Hin : p ∈ filter (fun p => id p = y) ps).
  { rewrite Hl', elem_of_app, list_elem_of_singleton. auto. }
  apply list_elem_of_filter in Hin as [Hid Hin]. eauto.
Qed.

Lemma filter_id_NoDup ps p :
  NoDup (map id ps) → p ∈ ps → filter (fun p' => id p' = id p) ps = [p].
Proof.
  induction ps as [|a ps IH]; simpl; [by intros _ ?%elem_of_nil|].
  intros [Hnotin Hnd]%NoDup_cons [<-|Hin]%elem_of_cons.
  - rewrite filter_cons_True by done. f_equal.
    destruct (filter (fun p' => id p' = id p) ps) as [|b l] eqn:E; [done|].
    assert (Hb : b ∈ filter (fun p' => id p' = id p) ps) by (rewrite E; left).
    apply list_elem_of_filter in Hb as [Hid Hb]. exfalso. apply Hnotin.
    rewrite <- Hid. apply (list_elem_of_fmap_2 id ps b Hb).
  - rewrite filter_cons_False; [by apply IH|].
    intros Heq. apply Hnotin. rewrite Heq.
    apply (list_elem_of_fmap_2 id ps p Hin).
Qed.

Lemma productById_NoDup ps p :
  NoDup (map id ps) → p ∈ ps →
  productById (buildIndexMaps ps) !! id p = Some (setSearchableText p).
Proof.
  intros Hnd Hin. by rewrite productById_lookup, filter_id_NoDup.
Qed.

Lemma productById_is_Some ps y :
  is_Some (productById (buildIndexMaps ps) !! y) ↔ y ∈ map id ps.
Proof.
  rewrite productById_lookup, fmap_is_Some, last_is_Some. split.
  - intros Hne. destruct (filter (fun p => id p = y) ps) as [|b l] eqn:E; [done|].
    assert (Hb : b ∈ filter (fun p => id p = y) ps) by (rewrite E; left).
    apply list_elem_of_filter in Hb as [<- Hb].
    apply (list_elem_of_fmap_2 id ps b Hb).
  - intros (p & -> & Hin)%list_elem_of_fmap Hnil.
    by apply (filter_nil_not_elem_of _ _ p Hnil).
Qed.

(** ** The query planner *)

Lemma Forall_filter {A} (P Q : A → Prop) `{∀ x, Decision (Q x)} (l : list A) :
  Forall P l → Forall P (filter Q l).
Proof.
  rewrite !Forall_forall. intros Hl x [_ Hx]%list_elem_of_filter. auto.
Qed.

Lemma intersectPostings_Some index keys ids :
  ∃ r, intersectPostings index keys (Some ids) = Some r
       ∧ ∀ x, x ∈ r ↔ x ∈ ids ∧ ∀ k, k ∈ keys → x ∈ postings index k.
Proof.
  revert ids. induction keys as [|k keys IH]; intros ids.
  - exists ids. split; [done|]. intros x. split; [|tauto].
    intros Hx. split; [done|]. by intros k ?%elem_of_nil.
  - destruct (IH (setIntersect ids (postings index k))) as (r & Hr & Hin).
    exists r. split; [exact Hr|]. intros x.
    rewrite Hin, elem_of_setIntersect. split.
    + intros [[Hx Hk] Hks]. split; [done|].
      intros k' [->|Hk']%elem_of_cons; auto.
    + intros [Hx Hks]. split_and!; [done | |].
      * apply Hks. left.
      * intros k' Hk'. apply Hks. by right.
Qed.

Lemma intersectPostings_None index keys :
  keys ≠ [] →
  ∃ r, intersectPostings index keys None = Some r
       ∧ ∀ x, x ∈ r ↔ ∀ k, k ∈ keys → x ∈ postings index k.
Proof.
  destruct keys as [|k keys]; [done|]. intros _.
  destruct (intersectPostings_Some index keys (postings index k))
    as (r & Hr & Hin).
  exists r. split; [exact Hr|]. intros x. rewrite Hin. split.
  - intros [Hk Hks] k' [->|Hk']%elem_of_cons; auto.
  - intros Hks. split; [apply Hks; left|].
    intros k' Hk'. apply Hks. by right.
Qed.

Lemma elem_of_materialize ix ids p :
  p ∈ materialize ix ids ↔ ∃ y, y ∈ ids ∧ productById ix !! y = Some p.
Proof. unfold materialize. apply list_elem_of_omap. Qed.

Lemma verifyMatches_filter q l :
  Forall (fun p => is_Some (searchableText p)) l →
  verifyMatches q l = Some (filter (fun p => textIncludes q p = true) l).
Proof.
  induction 1 as [|p l [text Hp] _ IH]; simpl; [done|].
  rewrite Hp, IH, filter_cons.
  destruct (decide (textIncludes q p = true)) as [Ht|Ht];
    unfold textIncludes in Ht; rewrite Hp in Ht.
  - by rewrite Ht.
  - apply not_true_is_false in Ht. by rewrite Ht.
Qed.

Lemma materialize_indexed ps ids :
  Forall (fun p => p ∈ map setSearchableText ps)
         (materialize (buildIndexMaps ps) ids).
Proof.
  apply Forall_forall. intros p (y & _ & Hp)%elem_of_materialize.
  apply productById_Some in Hp as (p0 & Hin & _ & ->).
  apply (list_elem_of_fmap_2 setSearchableText ps p0 Hin).
Qed.

Lemma materialize_searchable ps ids :
  Forall (fun p => is_Some (searchableText p))
         (materialize (buildIndexMaps ps) ids).
Proof.
  eapply Forall_impl; [apply materialize_indexed|]. simpl.
  intros p (p0 & -> & _)%list_elem_of_fmap. by eexists.
Qed.

Lemma categoryStage_indexed ps category filteredProducts candidateIds :
  Forall (fun p => p ∈ map setSearchableText ps) filteredProducts →
  Forall (fun p => p ∈ map setSearchableText ps)
         (categoryStage (buildIndexMaps ps) category filteredProducts candidateIds).
Proof.
  intros Hfp. unfold categoryStage. case_bool_decide; [done|].
  destruct candidateIds.
  - by apply Forall_filter.
  - apply materialize_indexed.
Qed.

Lemma searchStage_total ps s normalizedQuery :
  Indexed ps s →
  ∃ filteredProducts candidateIds,
    searchStage s normalizedQuery = Some (filteredProducts, candidateIds)
    ∧ Forall (fun p => p ∈ map setSearchableText ps) filteredProducts.
Proof.
  intros [Hps Hix]. unfold searchStage. rewrite Hix, Hps.
  case_bool_decide as Hq.
  - do 2 eexists. split; [done|]. apply Forall_forall. auto.
  - destruct (searchCandidates (buildIndexMaps ps) normalizedQuery)
      as [[|y ids]|] eqn:Hcand.
    + do 2 eexists. split; [done|]. constructor.
    + rewrite verifyMatches_filter by apply materialize_searchable.
      do 2 eexists. split; [done|]. apply Forall_filter, materialize_indexed.
    + do 2 eexists. split; [done|]. constructor.
Qed.

(** In an indexed state the selection never throws, and it selects stored
    products only. *)
Lemma selectProducts_total ps s search category :
  Indexed ps s →
  ∃ filteredProducts,
    selectProducts s search category = Some filteredProducts
    ∧ Forall (fun p => p ∈ products s) filteredProducts.
Proof.
  intros Hs. unfold selectProducts.
  destruct (searchStage_total ps s
    (if bool_decide (search = []) then [] else normalizeText search) Hs)
    as (fp & cand & -> & Hfp).
  destruct Hs as [Hps Hix]. rewrite Hix, Hps.
  eexists. split; [done|]. by apply categoryStage_indexed.
Qed.

Lemma textIncludes_indexed q p :
  textIncludes q (setSearchableText p) = true ↔ substring q (searchText p).
Proof. unfold textIncludes. simpl. apply includes_spec. Qed.

(** The candidates of a query with trigrams, or else with words. *)
Lemma searchCandidates_spec ix q :
  getTrigrams q ≠ [] ∨ getWords q ≠ [] →
  ∃ r, searchCandidates ix q = Some r
       ∧ ∀ x, x ∈ r ↔
           if bool_decide (getTrigrams q ≠ [])
           then ∀ k, k ∈ getTrigrams q → x ∈ postings (trigramIndex ix) k
           else ∀ k, k ∈ getWords q → x ∈ postings (wordIndex ix) k.
Proof.
  intros Hkeys. unfold searchCandidates.
  destruct (getTrigrams q) as [|t ts] eqn:Ht.
  - destruct Hkeys as [?|Hw]; [done|].
    rewrite bool_decide_eq_false_2 by (intros Hne; by apply Hne). simpl.
    destruct (getWords q) as [|w ws] eqn:Hws; [done|].
    change (0 <? Z.of_nat (length (w :: ws))) with (0 <? Z.pos (Pos.of_succ_nat (length ws))).
    destruct (intersectPostings_None (wordIndex ix) (w :: ws)) as (r & Hr & Hin);
      [done|].
    exists r. split; [exact Hr | exact Hin].
  - rewrite bool_decide_eq_true_2 by done.
    change (0 <? Z.of_nat (length (t :: ts))) with (0 <? Z.pos (Pos.of_succ_nat (length ts))).
    destruct (intersectPostings_None (trigramIndex ix) (t :: ts)) as (r & Hr & Hin);
      [done|].
    exists r. split; [exact Hr | exact Hin].
Qed.

(** No false negatives for a query that is indexed the way the product's
    text is: by trigrams when it has three code units or more, by whole
    words otherwise. *)
Lemma searchStage_complete ps s P q :
  Indexed ps s → NoDup (map id ps) → P ∈ ps →
  substring q (searchText P) →
  (3 <= length q)%nat
  ∨ (getWords q ≠ [] ∧ ∀ w, w ∈ getWords q → w ∈ getWords (searchText P)) →
  ∃ filteredProducts candidateIds,
    searchStage s q = Some (filteredProducts, Some candidateIds)
    ∧ setSearchableText P ∈ filteredProducts.
Proof.
  intros [Hps Hix] Hnd HP Hsub Hkeys. unfold searchStage. rewrite Hix.
  assert (Hq : q ≠ []).
  { intros ->. destruct Hkeys as [Hlen|[Hw _]]; [simpl in Hlen; lia | done]. }
  rewrite bool_decide_eq_false_2 by done.
  destruct (searchCandidates_spec (buildIndexMaps ps) q) as (r & Hr & Hin).
  { destruct Hkeys as [Hlen|[Hw _]]; [left; by apply getTrigrams_nonempty | by right]. }
  assert (HidP : id P ∈ r).
  { apply Hin. case_bool_decide as Htri.
    - intros k Hk. apply elem_of_trigramIndex. exists P. split_and!; [done..|].
      by eapply getTrigrams_substring.
    - destruct Hkeys as [Hlen|[_ Hw]].
      + by apply getTrigrams_nonempty in Hlen.
      + intros k Hk. apply elem_of_wordIndex. exists P. auto. }
  rewrite Hr. destruct r as [|y ids]; [by apply elem_of_nil in HidP|].
  rewrite verifyMatches_filter by apply materialize_searchable.
  do 2 eexists. split; [done|].
  apply list_elem_of_filter. split.
  - by apply textIncludes_indexed.
  - apply elem_of_materialize. exists (id P). split; [done|].
    by apply productById_NoDup.
Qed.

(** ** Ordering *)

Section Sorting.
Context {A : Type} (comparer : A → A → Z).

Lemma insertSorted_perm x l : insertSorted comparer x l ≡ₚ x :: l.
Proof.
  induction l as [|y l IH]; simpl; [done|].
  destruct (comparer x y <? 0); [done|].
  rewrite IH. apply Permutation_swap.
Qed.

Lemma sortWith_perm l : sortWith comparer l ≡ₚ l.
Proof.
  induction l as [|x l IH]; simpl; [done|].
  by rewrite insertSorted_perm, IH.
Qed.

Context (P : A → Prop) `{∀ x, Decision (P x)}.

(** Inserting an element that sorts before every other element of the class
    [P] keeps the class in order. *)
Lemma filter_insertSorted x l :
  (∀ y, y ∈ l → P x → P y → comparer x y < 0) →
  filter P (insertSorted comparer x l) = filter P (x :: l).
Proof.
  induction l as [|y l IH]; intros Hlt; simpl; [done|].
  destruct (Z.ltb_spec (comparer x y) 0) as [Hxy|Hxy]; [done|].
  rewrite filter_cons, IH by (intros z Hz; apply Hlt; by right).
  rewrite !(filter_cons _ x), (filter_cons _ y).
  destruct (decide (P x)) as [Hx|Hx], (decide (P y)) as [Hy|Hy]; try done.
  specialize (Hlt y (list_elem_of_here _ _) Hx Hy). lia.
Qed.

Lemma filter_sortWith l :
  (∀ l1 x l2 y, l = l1 ++ x :: l2 → y ∈ l2 → P x → P y → comparer x y < 0) →
  filter P (sortWith comparer l) = filter P l.
Proof.
  induction l as [|x l IH]; intros Hlt; simpl; [done|].
  rewrite filter_insertSorted.
  - rewrite !(filter_cons _ x), IH; [done|].
    intros l1 a l2 b -> Hb. by apply (Hlt (x :: l1) a l2 b).
  - intros y Hy. rewrite sortWith_perm in Hy. by apply (Hlt [] x l y).
Qed.

End Sorting.

Lemma withIndex_fst {A} (l : list A) k x : withIndex l !! k = Some x → x.1 = k.
Proof.
  unfold withIndex. rewrite list_lookup_imap.
  intros (y & _ & ->)%fmap_Some. done.
Qed.

Lemma withIndex_snd {A} (l : list A) : map snd (withIndex l) = l.
Proof.
  unfold withIndex.
  enough (Hg : ∀ g : nat → nat, map snd (imap (fun i x => (g i, x)) l) = l)
    by apply (Hg (fun i => i)).
  induction l as [|x l IH]; intros g; simpl; [done|].
  f_equal. apply (IH (g ∘ S)).
Qed.

(** Later elements carry larger indices. *)
Lemma withIndex_increasing {A} (l : list A) l1 x l2 y :
  withIndex l = l1 ++ x :: l2 → y ∈ l2 → (x.1 < y.1)%nat.
Proof.
  intros Hl [k Hk]%list_elem_of_lookup.
  assert (Hx : withIndex l !! length l1 = Some x).
  { rewrite Hl. by rewrite list_lookup_middle. }
  assert (Hy : withIndex l !! (length l1 + S k)%nat = Some y).
  { rewrite Hl, lookup_app_r by lia.
    replace (length l1 + S k - length l1)%nat with (S k) by lia. done. }
  apply withIndex_fst in Hx, Hy. lia.
Qed.

Lemma filter_map {A B} (f : A → B) (P : B → Prop) `{∀ y, Decision (P y)}
    (l : list A) :
  filter P (map f l) = map f (filter (fun x => P (f x)) l).
Proof.
  induction l as [|x l IH]; simpl; [done|].
  rewrite !filter_cons, IH. by destruct (decide (P (f x))).
Qed.

Lemma numEq_trans a b c : numEq a c = true → numEq b c = true → numEq a b = true.
Proof.
  destruct a as [a| |a], b as [b| |b], c as [c| |c]; simpl; try done.
  - rewrite !Qeq_bool_iff. intros -> ->. reflexivity.
  - rewrite !bool_decide_eq_true. congruence.
Qed.

Lemma strictEq_trans a b c :
  strictEq a c = true → strictEq b c = true → strictEq a b = true.
Proof.
  destruct a as [[a|a]|], b as [[b|b]|], c as [[c|c]|]; simpl; try done.
  - apply numEq_trans.
  - rewrite !bool_decide_eq_true. congruence.
Qed.

Lemma compareAscending_strictEq a b :
  strictEq a b = true → compareAscending a b = 0.
Proof. unfold compareAscending. by intros ->. Qed.

Lemma orderBy_perm l sortBy sortOrder : orderBy l sortBy sortOrder ≡ₚ l.
Proof.
  unfold orderBy. rewrite <- (withIndex_snd l) at 2.
  apply fmap_Permutation, sortWith_perm.
Qed.

(** The products whose sort key is strictly equal to [v] keep their
    order. *)
Lemma orderBy_stable l sortBy sortOrder v :
  filter (fun p => strictEq (fieldValue sortBy p) v = true)
         (orderBy l sortBy sortOrder)
  = filter (fun p => strictEq (fieldValue sortBy p) v = true) l.
Proof.
  unfold orderBy.
  rewrite <- (withIndex_snd l) at 2.
  rewrite !filter_map. f_equal.
  apply filter_sortWith.
  intros l1 x l2 y Hl Hy Hx Hy'. simpl in Hx, Hy'.
  pose proof (withIndex_increasing l l1 x l2 y Hl Hy) as Hlt.
  unfold compareMultiple.
  rewrite (compareAscending_strictEq _ _ (strictEq_trans _ _ _ Hx Hy')).
  simpl. lia.
Qed.

(** ** Pagination *)

Lemma slice_nonneg {A} (l : list A) (a n : Z) :
  0 <= a → 0 <= n →
  slice l a (a + n) = take (Z.to_nat n) (drop (Z.to_nat a) l).
Proof.
  intros Ha Hn. unfold slice, relativeIndex.
  destruct (Z.ltb_spec a 0); [lia|]. destruct (Z.ltb_spec (a + n) 0); [lia|].
  destruct (Z.le_gt_cases a (Z.of_nat (length l))) as [Hle|Hgt].
  - rewrite (Z.min_l a) by lia.
    destruct (Z.le_gt_cases (a + n) (Z.of_nat (length l))).
    + rewrite Z.min_l by lia. f_equal. lia.
    + rewrite Z.min_r by lia.
      rewrite (take_ge _ (Z.to_nat n)) by (rewrite length_drop; lia).
      rewrite take_ge by (rewrite length_drop; lia). done.
  - rewrite !Z.min_r by lia.
    rewrite !drop_ge by lia. by rewrite !take_nil.
Qed.

Lemma ceilDiv_bounds n d :
  0 < d → d * (ceilDiv n d - 1) < n <= d * ceilDiv n d.
Proof.
  intros Hd. unfold ceilDiv.
  pose proof (Z.mul_div_le (- n) d Hd).
  pose proof (Z.mul_succ_div_gt (- n) d Hd). lia.
Qed.

Lemma ceilDiv_nonneg n d : 0 < d → 0 <= n → 0 <= ceilDiv n d.
Proof. intros Hd Hn. pose proof (ceilDiv_bounds n d Hd). nia. Qed.

Lemma pageSlice_take_drop {A} (l : list A) (limit : Z) (k : nat) :
  0 < limit →
  pageSlice l limit (Z.of_nat k + 1)
  = take (Z.to_nat limit) (drop (k * Z.to_nat limit) l).
Proof.
  intros Hl. unfold pageSlice. rewrite slice_nonneg by nia.
  do 2 f_equal. nia.
Qed.

(** The first [m] pages, one after the other, are the first [m * limit]
    items. *)
Lemma concat_pages {A} (l : list A) (limit : Z) (m : nat) :
  0 < limit →
  concat (map (fun k : nat => pageSlice l limit (Z.of_nat k + 1)) (seq 0 m))
  = take (m * Z.to_nat limit) l.
Proof.
  intros Hl. induction m as [|m IH]; [done|].
  rewrite seq_S, map_app, concat_app, IH. simpl. rewrite app_nil_r.
  rewrite pageSlice_take_drop by done.
  rewrite Nat.add_comm. by rewrite take_take_drop.
Qed.

Lemma pages_cover {A} (l : list A) (limit : Z) :
  0 < limit →
  concat (map (fun k : nat => pageSlice l limit (Z.of_nat k + 1))
              (seq 0 (Z.to_nat (ceilDiv (Z.of_nat (length l)) limit))))
  = l.
Proof.
  intros Hl. rewrite concat_pages by done. apply take_ge.
  pose proof (ceilDiv_bounds (Z.of_nat (length l)) limit Hl).
  pose proof (ceilDiv_nonneg (Z.of_nat (length l)) limit Hl). nia.
Qed.

(** The sizes of the pages 1 to [totalPages] add up to the number of
    items. *)
Lemma page_sizes_sum {A} (l : list A) (limit : Z) :
  0 < limit →
  sum_list (map (fun k : nat => length (pageSlice l limit (Z.of_nat k + 1)))
                (seq 0 (Z.to_nat (ceilDiv (Z.of_nat (length l)) limit))))
  = length l.
Proof.
  intros Hl.
  assert (Hsum : ∀ ks : list nat,
    sum_list (map (fun k : nat => length (pageSlice l limit (Z.of_nat k + 1))) ks)
    = length (concat (map (fun k : nat => pageSlice l limit (Z.of_nat k + 1)) ks))).
  { induction ks as [|k ks IH]; simpl; [done|]. by rewrite length_app, IH. }
  by rewrite Hsum, pages_cover.
Qed.

Lemma pageSlice_beyond {A} (l : list A) (limit page : Z) :
  0 < limit → ceilDiv (Z.of_nat (length l)) limit < page →
  pageSlice l limit page = [].
Proof.
  intros Hl Hpage. unfold pageSlice.
  pose proof (ceilDiv_bounds (Z.of_nat (length l)) limit Hl).
  pose proof (ceilDiv_nonneg (Z.of_nat (length l)) limit Hl).
  rewrite slice_nonneg by nia.
  rewrite drop_ge by nia. apply take_nil.
Qed.

(** Every item is on one of the pages 1 to [totalPages]. *)
Lemma elem_of_some_page {A} (l : list A) (limit : Z) x :
  0 < limit → x ∈ l →
  ∃ page, 1 <= page <= ceilDiv (Z.of_nat (length l)) limit
          ∧ x ∈ pageSlice l limit page.
Proof.
  intros Hl Hx. rewrite <- (pages_cover l limit Hl) in Hx.
  apply list_elem_of_In, in_concat in Hx as (pg & Hpg%list_elem_of_In & Hx%list_elem_of_In).
  apply list_elem_of_fmap in Hpg as (k & -> & Hk%elem_of_seq).
  exists (Z.of_nat k + 1). split; [lia | done].
Qed.

(** ** Printed numbers *)

Lemma string_of_uint_digits d :
  Forall isDigit (js (NilEmpty.string_of_uint d)).
Proof.
  induction d; simpl; constructor; try done; by eexists.
Qed.

Lemma toString_chars z : Forall isDigitOrMinus (toString z) ∧ toString z ≠ [].
Proof.
  unfold toString.
  assert (Hu : ∀ d, Forall isDigitOrMinus (js (NilZero.string_of_uint d))
                    ∧ js (NilZero.string_of_uint d) ≠ []).
  { intros d. split.
    - eapply Forall_impl; [|intros c Hc; left; exact Hc].
      destruct d; try apply string_of_uint_digits.
      simpl. repeat constructor. by eexists.
    - by destruct d. }
  destruct (Z.to_int z) as [d|d]; simpl.
  - apply Hu.
  - split; [|done]. constructor; [by right | apply Hu].
Qed.

Lemma js_inj (a b : string) : js a = js b → a = b.
Proof.
  intros Heq. rewrite <- (string_of_list_ascii_of_string a),
    <- (string_of_list_ascii_of_string b). by rewrite Heq.
Qed.

Lemma to_int_proper z : Z.to_int z ≠ Decimal.Pos Decimal.Nil ∧ Z.to_int z ≠ Decimal.Neg Decimal.Nil.
Proof.
  destruct z as [|p|p]; simpl; split; try done;
    intros [= Hp]; by apply DecimalPos.Unsigned.to_uint_nonnil in Hp.
Qed.

Lemma toString_inj a b : toString a = toString b → a = b.
Proof.
  unfold toString. intros Heq%js_inj.
  apply DecimalZ.to_int_inj.
  destruct (to_int_proper a) as [Ha1 Ha2], (to_int_proper b) as [Hb1 Hb2].
  pose proof (NilZero.isi _ Ha1 Ha2) as Ha.
  pose proof (NilZero.isi _ Hb1 Hb2) as Hb.
  rewrite Heq in Ha. congruence.
Qed.

(** Two texts over an alphabet, each followed by a code unit outside the
    alphabet, split in one way only. *)
Lemma delimited_inj {A} (P : A → Prop) u v c d r1 r2 :
  Forall P u → Forall P v → ¬ P c → ¬ P d →
  u ++ c :: r1 = v ++ d :: r2 → u = v ∧ c :: r1 = d :: r2.
Proof.
  intros Hu. revert v. induction Hu as [|x u Hx _ IH]; intros v Hv Hc Hd.
  - destruct Hv as [|y v Hy _]; simpl; [done|]. intros [= -> _]. done.
  - destruct Hv as [|y v Hy Hv]; simpl.
    + intros [= -> _]. done.
    + intros [= -> Heq]. destruct (IH v Hv Hc Hd Heq) as [-> ?]. done.
Qed.

(** ** The cache key *)

Lemma unescapeHead_escapeChar c r :
  unescapeHead (escapeChar c ++ r) = Some (c, r).
Proof. by destruct c as [[] [] [] [] [] [] [] []]. Qed.

Lemma escaped_inj s1 s2 r1 r2 :
  flat_map escapeChar s1 ++ dquote :: r1 = flat_map escapeChar s2 ++ dquote :: r2 →
  s1 = s2 ∧ r1 = r2.
Proof.
  revert s2. induction s1 as [|c1 s1 IH]; intros [|c2 s2]; simpl.
  - by intros [= ->].
  - intros Heq. apply (f_equal unescapeHead) in Heq.
    rewrite <- app_assoc, unescapeHead_escapeChar in Heq. done.
  - intros Heq. apply (f_equal unescapeHead) in Heq.
    rewrite <- app_assoc, unescapeHead_escapeChar in Heq. done.
  - intros Heq. apply (f_equal unescapeHead) in Heq.
    rewrite <- !app_assoc, !unescapeHead_escapeChar in Heq.
    injection Heq as -> Heq. by destruct (IH _ Heq) as [-> ->].
Qed.

Lemma quoteJSON_inj s1 s2 r1 r2 :
  quoteJSON s1 ++ r1 = quoteJSON s2 ++ r2 → s1 = s2 ∧ r1 = r2.
Proof.
  unfold quoteJSON. simpl. rewrite <- !app_assoc. simpl.
  intros [= Heq]. by apply escaped_inj.
Qed.

Lemma memberEnd_not_digit c : isMemberEnd c → ¬ isDigitOrMinus c.
Proof. intros [-> | ->] [[? Hd] | Hm]; done. Qed.

Lemma stringifyValue_inj v1 v2 c d r1 r2 :
  isMemberEnd c → isMemberEnd d →
  stringifyValue v1 ++ c :: r1 = stringifyValue v2 ++ d :: r2 →
  v1 = v2 ∧ c :: r1 = d :: r2.
Proof.
  intros Hc Hd. destruct v1 as [a|s1], v2 as [b|s2]; simpl.
  - intros Heq.
    destruct (delimited_inj isDigitOrMinus _ _ _ _ _ _
                (proj1 (toString_chars a)) (proj1 (toString_chars b))
                (memberEnd_not_digit c Hc) (memberEnd_not_digit d Hd) Heq)
      as [Hab ?].
    apply toString_inj in Hab as ->. done.
  - destruct (toString_chars a) as [Hall Hne].
    destruct (toString a) as [|h t]; [done|].
    apply Forall_cons in Hall as [Hh _]. intros [= -> _].
    destruct Hh as [[? Hh] | Hh]; done.
  - destruct (toString_chars b) as [Hall Hne].
    destruct (toString b) as [|h t]; [done|].
    apply Forall_cons in Hall as [Hh _]. intros [= <- _].
    destruct Hh as [[? Hh] | Hh]; done.
  - intros Heq. apply quoteJSON_inj in Heq as [-> Heq]. done.
Qed.

Lemma stringifyMember_inj k v1 v2 c d r1 r2 :
  isMemberEnd c → isMemberEnd d →
  stringifyMember (k, v1) ++ c :: r1 = stringifyMember (k, v2) ++ d :: r2 →
  v1 = v2 ∧ c :: r1 = d :: r2.
Proof.
  intros Hc Hd. unfold stringifyMember. simpl fst; simpl snd.
  rewrite <- !app_assoc. intros Heq%app_inv_head%app_inv_head.
  by apply stringifyValue_inj in Heq.
Qed.

Lemma joinWith_cons sep x y l :
  joinWith sep (x :: y :: l) = x ++ sep ++ joinWith sep (y :: l).
Proof. done. Qed.

Lemma stringify_members_inj (o1 o2 : jsobject) r1 r2 :
  map fst o1 = map fst o2 →
  joinWith (js ",") (map stringifyMember o1) ++ js "}" ++ r1
  = joinWith (js ",") (map stringifyMember o2) ++ js "}" ++ r2 →
  o1 = o2.
Proof.
  revert o2. induction o1 as [|[k v1] o1 IH]; intros [|[k' v2] o2]; try done.
  intros [= <- Hkeys].
  destruct o1 as [|kv1 o1], o2 as [|kv2 o2]; try done.
  - simpl map. cbn [joinWith].
    intros Heq. apply stringifyMember_inj in Heq as [-> _];
      [done | by right | by right].
  - rewrite !(map_cons _ (k, _)), !(map_cons _ kv1), !(map_cons _ kv2),
      !joinWith_cons, <- !app_assoc.
    intros Heq. apply stringifyMember_inj in Heq as [-> Heq];
      [| by left | by left].
    injection Heq as Heq. f_equal. apply IH; [done | exact Heq].
Qed.

(** Objects with the same property names, in the same order, have the same
    key only when they hold the same values. *)
Lemma getCacheKey_inj (o1 o2 : jsobject) :
  map fst o1 = map fst o2 → getCacheKey o1 = getCacheKey o2 → o1 = o2.
Proof.
  intros Hkeys. unfold getCacheKey, stringify.
  intros Heq%app_inv_head.
  apply (stringify_members_inj o1 o2 [] []); [done|].
  by rewrite !app_nil_r.
Qed.

Lemma paramObject_inj p1 p2 : paramObject p1 = paramObject p2 → p1 = p2.
Proof.
  destruct p1, p2. unfold paramObject. simpl. intros [= -> -> -> -> -> ->]. done.
Qed.

Lemma cacheKey_inj p1 p2 :
  getCacheKey (paramObject p1) = getCacheKey (paramObject p2) → p1 = p2.
Proof. intros Heq. by apply paramObject_inj, getCacheKey_inj. Qed.

(** ** Rebuilding *)

Lemma searchText_setSearchableText p :
  searchText (setSearchableText p) = searchText p.
Proof. done. Qed.

Lemma setSearchableText_idemp p :
  setSearchableText (setSearchableText p) = setSearchableText p.
Proof. done. Qed.

Lemma indexProduct_setSearchableText ix p :
  indexProduct ix (setSearchableText p) = indexProduct ix p.
Proof. done. Qed.

Lemma buildIndexMaps_setSearchableText ps :
  buildIndexMaps (map setSearchableText ps) = buildIndexMaps ps.
Proof.
  unfold buildIndexMaps. generalize emptyIndexes.
  induction ps as [|p ps IH]; intros ix; simpl; [done|].
  by rewrite indexProduct_setSearchableText, IH.
Qed.

Lemma map_setSearchableText_idemp ps :
  map setSearchableText (map setSearchableText ps) = map setSearchableText ps.
Proof. rewrite map_map. apply map_ext. intros p. apply setSearchableText_idemp. Qed.

Lemma buildIndexes_Indexed ps s : Indexed ps (buildIndexes ps s).
Proof. done. Qed.

Lemma Indexed_products ps s : Indexed ps s → Indexed (products s) s.
Proof.
  intros [Hps Hix]. split.
  - by rewrite Hps, map_setSearchableText_idemp.
  - by rewrite Hix, Hps, buildIndexMaps_setSearchableText.
Qed.

Lemma Indexed_elem_of s p :
  Indexed (products s) s → p ∈ products s → setSearchableText p = p.
Proof.
  intros [Hps _] Hp. rewrite Hps in Hp.
  apply list_elem_of_fmap in Hp as (p0 & -> & _). apply setSearchableText_idemp.
Qed.

Lemma map_id_setSearchableText ps : map id (map setSearchableText ps) = map id ps.
Proof. rewrite map_map. by apply map_ext. Qed.

(** ** Product ids *)

Lemma digitsValue_of_uint_acc d acc :
  digitsValue (Z.pos acc) (js (NilEmpty.string_of_uint d))
  = Some (Z.pos (Pos.of_uint_acc d acc)).
Proof.
  revert acc. induction d; intros acc; simpl; [done|..];
    rewrite <- IHd; f_equal; lia.
Qed.

Lemma digitsValue_of_uint d :
  digitsValue 0 (js (NilEmpty.string_of_uint d)) = Some (Z.of_N (Pos.of_uint d)).
Proof.
  induction d; simpl; [done | exact IHd |..];
    rewrite <- digitsValue_of_uint_acc; f_equal; lia.
Qed.

Lemma leadingDigits_all s : Forall isDigit s → leadingDigits s = s.
Proof.
  induction 1 as [|c s Hc _ IH]; simpl; [done|].
  rewrite bool_decide_eq_true_2 by done. by rewrite IH.
Qed.

Lemma parseInt_digits s :
  Forall isDigit s → s ≠ [] → parseInt s = digitsValue 0 s.
Proof.
  intros Hs Hne. unfold parseInt.
  destruct s as [|c s]; [done|].
  pose proof (Forall_inv Hs) as [v Hc].
  assert (Hws : isWhiteSpace c = false).
  { unfold digitValue in Hc. unfold isWhiteSpace.
    destruct (_ && _)%bool eqn:E in Hc; [|done].
    apply andb_true_iff in E as [E1%N.leb_le E2%N.leb_le].
    repeat (apply orb_false_iff; split);
      try apply andb_false_iff; try (left; apply N.leb_gt; lia);
      try (right; apply N.leb_gt; lia); apply N.eqb_neq; lia. }
  simpl trimStart. rewrite Hws.
  assert (Hminus : c ≠ ascii_of_N 45) by (intros ->; done).
  assert (Hplus : c ≠ ascii_of_N 43) by (intros ->; done).
  rewrite !bool_decide_eq_false_2 by done.
  rewrite leadingDigits_all by done.
  destruct (digitsValue 0 (c :: s)); done.
Qed.

Lemma string_of_uint_nonnil d :
  d ≠ Decimal.Nil → NilZero.string_of_uint d = NilEmpty.string_of_uint d.
Proof. by destruct d. Qed.

Lemma toString_pos p :
  toString (Z.pos p) = js (NilEmpty.string_of_uint (Pos.to_uint p)).
Proof.
  unfold toString. simpl.
  by rewrite string_of_uint_nonnil by apply Unsigned.to_uint_nonnil.
Qed.

Lemma toString_digits n : 0 <= n → Forall isDigit (toString n) ∧ toString n ≠ [].
Proof.
  intros Hn. destruct n as [|p|p]; [|..|lia].
  - split; [|done]. repeat constructor. by eexists.
  - rewrite toString_pos. split; [apply string_of_uint_digits|].
    pose proof (Unsigned.to_uint_nonnil p). by destruct (Pos.to_uint p).
Qed.

Lemma parseInt_toString n : 0 <= n → parseInt (toString n) = Some n.
Proof.
  intros Hn. destruct (toString_digits n Hn) as [Hd Hne].
  rewrite parseInt_digits by done.
  destruct n as [|p|p]; [done|..|lia].
  by rewrite toString_pos, digitsValue_of_uint, Unsigned.of_to.
Qed.

Lemma canonicalIds_parse ps :
  canonicalIds ps →
  ∃ ns, mapM (fun p => parseInt (id p)) ps = Some ns
        ∧ Forall2 (fun p n => 0 <= n ∧ id p = toString n) ps ns.
Proof.
  intros [_ Hall]. induction Hall as [|p ps (n & Hn & Hid) _ (ns & Hns & Hall2)].
  - by exists [].
  - exists (n :: ns). split.
    + simpl. rewrite Hid, parseInt_toString by done. simpl. by rewrite Hns.
    + constructor; done.
Qed.

(** The id given to a created product is a fresh canonical id. *)
Lemma newId_fresh ps :
  canonicalIds ps → ps ≠ [] →
  (newId ps ∉ map id ps) ∧ (∃ n, 0 <= n ∧ newId ps = toString n).
Proof.
  intros Hcan Hne. destruct (canonicalIds_parse ps Hcan) as (ns & Hns & Hall).
  unfold newId. rewrite Hns.
  destruct Hall as [|p n ps ns [Hn Hp] Hall]; [done|].
  assert (Hbound : ∀ m, m ∈ n :: ns → 0 <= m <= foldr Z.max n ns).
  { assert (Hge : ∀ m, m ∈ ns → m <= foldr Z.max n ns).
    { clear. induction ns as [|a ns IH]; intros m Hm; [by apply elem_of_nil in Hm|].
      simpl. apply elem_of_cons in Hm as [->|Hm]; [lia|].
      specialize (IH m Hm). lia. }
    assert (Hn' : n <= foldr Z.max n ns).
    { clear. induction ns as [|a ns IH]; simpl; lia. }
    intros m [->|Hm]%elem_of_cons; [lia|].
    split; [|by apply Hge].
    apply list_elem_of_lookup in Hm as [i Hi].
    destruct (Forall2_lookup_r _ _ _ _ _ Hall Hi) as (q & _ & Hq & _). done. }
  split.
  - intros (q & Hq & Hin)%list_elem_of_fmap.
    assert (Hmem : ∃ m, m ∈ n :: ns ∧ id q = toString m).
    { apply elem_of_cons in Hin as [->|Hin].
      - exists n. split; [left | done].
      - apply list_elem_of_lookup in Hin as [i Hi].
        destruct (Forall2_lookup_l _ _ _ _ _ Hall Hi) as (m & Hm & _ & Hid).
        exists m. split; [|done]. right. by eapply list_elem_of_lookup_2. }
    destruct Hmem as (m & Hm & Hid). rewrite Hid in Hq.
    apply toString_inj in Hq. specialize (Hbound m Hm). lia.
  - exists (foldr Z.max n ns + 1). split; [|done].
    specialize (Hbound n (list_elem_of_here _ _)). lia.
Qed.

(** ** Well-formed states *)

Lemma selectProducts_withCache s cache search category :
  selectProducts (withCache s cache) search category
  = selectProducts s search category.
Proof. done. Qed.

Lemma cacheCoherent_empty s : responseCache s = ∅ → cacheCoherent s.
Proof. intros He key entry. by rewrite He, lookup_empty. Qed.

Lemma canonicalIds_setSearchableText ps :
  canonicalIds ps → canonicalIds (map setSearchableText ps).
Proof.
  intros [Hnd Hall]. split.
  - by rewrite map_id_setSearchableText.
  - apply Forall_fmap. eapply Forall_impl; [exact Hall|]. done.
Qed.

(** A rebuild establishes the invariant. *)
Lemma buildIndexes_wellFormed ps s :
  canonicalIds ps → wellFormed (buildIndexes ps s).
Proof.
  intros Hcan. split_and!.
  - apply (Indexed_products ps), buildIndexes_Indexed.
  - by apply canonicalIds_setSearchableText.
  - by apply cacheCoherent_empty.
Qed.

Lemma newProducts_canonicalIds rt : canonicalIds (newProducts rt).
Proof.
  unfold newProducts, canonicalIds. generalize (Z.to_nat PRODUCT_COUNT).
  intros count. split.
  - rewrite map_map.
    assert (Hinj : Inj (=) (=) (fun j : nat => toString (Z.of_nat j + 1))).
    { intros i j Hij%toString_inj. lia. }
    apply (NoDup_fmap_2 (fun j : nat => toString (Z.of_nat j + 1))), NoDup_seq.
  - apply Forall_fmap, Forall_forall. intros j _.
    exists (Z.of_nat j + 1). split; [lia | done].
Qed.

Lemma newProducts_nonempty rt : newProducts rt ≠ [].
Proof. unfold newProducts. by intros ?%fmap_nil_inv. Qed.

Lemma generateProducts_wellFormed rt s : wellFormed (generateProducts rt s).
Proof.
  pose proof (buildIndexes_wellFormed (newProducts rt) s (newProducts_canonicalIds rt))
    as (Hix & Hcan & Hcache).
  split_and!; [exact Hix | exact Hcan | by apply cacheCoherent_empty].
Qed.

Lemma products_generateProducts rt s :
  products (generateProducts rt s) = map setSearchableText (newProducts rt).
Proof. reflexivity. Qed.

Lemma generateProducts_nonempty rt s : products (generateProducts rt s) ≠ [].
Proof.
  rewrite products_generateProducts.
  intros Hnil%fmap_nil_inv. by apply newProducts_nonempty in Hnil.
Qed.

Lemma ensureProductsFresh_wellFormed rt s :
  wellFormed s → wellFormed (ensureProductsFresh rt s).
Proof.
  intros Hs. unfold ensureProductsFresh. case_bool_decide; [|done].
  apply generateProducts_wellFormed.
Qed.

Lemma ensureProductsFresh_nonempty rt s :
  products (ensureProductsFresh rt s) ≠ [].
Proof.
  unfold ensureProductsFresh. case_bool_decide; [|done].
  apply generateProducts_nonempty.
Qed.

Lemma initialState_wellFormed rt : wellFormed (initialState rt).
Proof. unfold initialState. apply generateProducts_wellFormed. Qed.

Lemma getCachedResponse_coherent s key now' :
  cacheCoherent s →
  cacheCoherent (withCache s (getCachedResponse key now' (responseCache s)).2).
Proof.
  intros Hs k e. unfold getCachedResponse.
  destruct (responseCache s !! key) as [cached|] eqn:Hkey; simpl; [|apply Hs].
  destruct (expiresAt cached <? now'); simpl; [|apply Hs].
  intros [_ He]%lookup_delete_Some. by apply Hs.
Qed.

Lemma getCachedResponse_hit s key now' cached :
  (getCachedResponse key now' (responseCache s)).1 = Some cached →
  responseCache s !! key = Some cached.
Proof.
  unfold getCachedResponse.
  destruct (responseCache s !! key) as [c|]; [|done].
  destruct (expiresAt c <? now'); [done|]. simpl. congruence.
Qed.

(** What the list handler answers in a well-formed state: the payload
    computed from the products and the indexes of the state, whether it is
    served from the cache or not. *)
Lemma listProducts_response rt q s :
  wellFormed s →
  let s1 := ensureProductsFresh rt s in
  let p := parseListQuery q in
  ∃ rt' filteredProducts,
    selectProducts s1 (search p) (categoryFilter p) = Some filteredProducts
    ∧ (listProducts rt q s).2
      = {| status := 200;
           responseHeaders := totalCountHeaders (sortProducts p filteredProducts);
           body := ListBody (responsePayload rt' p (sortProducts p filteredProducts)) |}.
Proof.
  intros Hs s1 p.
  pose proof (ensureProductsFresh_wellFormed rt s Hs) as (Hix & Hcan & Hcache).
  fold s1 in Hix, Hcan, Hcache.
  unfold listProducts. fold s1. fold p.
  destruct (getCachedResponse (getCacheKey (paramObject p)) (now rt) (responseCache s1))
    as [[cached|] cache] eqn:Hget.
  - assert (Hhit : responseCache s1 !! getCacheKey (paramObject p) = Some cached).
    { apply (getCachedResponse_hit s1 _ (now rt)). by rewrite Hget. }
    destruct (Hcache _ _ Hhit) as (rt' & p' & fp & Hkey & Hsel & Hpay & Hhead).
    apply cacheKey_inj in Hkey as <-.
    exists rt', fp. split; [done|]. simpl. by rewrite Hpay, Hhead.
  - destruct (selectProducts_total (products s1) s1 (search p) (categoryFilter p) Hix)
      as (fp & Hsel & _).
    rewrite selectProducts_withCache, Hsel.
    exists rt, fp. done.
Qed.

Lemma listProducts_state rt q s :
  products (listProducts rt q s).1 = products (ensureProductsFresh rt s)
  ∧ indexes (listProducts rt q s).1 = indexes (ensureProductsFresh rt s).
Proof.
  unfold listProducts.
  destruct (getCachedResponse _ _ _) as [[cached|] cache]; [done|].
  rewrite selectProducts_withCache.
  by destruct (selectProducts _ _ _).
Qed.

Lemma Indexed_same s s' :
  products s' = products s → indexes s' = indexes s →
  Indexed (products s) s → Indexed (products s') s'.
Proof. intros Hp Hi [H1 H2]. split; by rewrite ?Hp, ?Hi. Qed.

Lemma cacheCoherent_same s s' :
  products s' = products s → indexes s' = indexes s →
  responseCache s' = responseCache s →
  cacheCoherent s → cacheCoherent s'.
Proof.
  intros Hp Hi Hc Hs key entry. rewrite Hc. intros Hk.
  destruct (Hs key entry Hk) as (rt & p & fp & Hkey & Hsel & Hpay & Hhead).
  exists rt, p, fp. split_and!; try done.
  unfold selectProducts, searchStage in *. by rewrite Hp, Hi.
Qed.

Lemma listProducts_wellFormed rt q s :
  wellFormed s → wellFormed (listProducts rt q s).1.
Proof.
  intros Hs.
  pose proof (ensureProductsFresh_wellFormed rt s Hs) as (Hix & Hcan & Hcache).
  destruct (listProducts_state rt q s) as [Hp Hi].
  split_and!.
  - by apply (Indexed_same (ensureProductsFresh rt s)).
  - by rewrite Hp.
  - revert Hp Hi. unfold listProducts.
    set (s1 := ensureProductsFresh rt s) in *.
    set (p := parseListQuery q).
    pose proof (getCachedResponse_coherent s1 (getCacheKey (paramObject p)) (now rt) Hcache)
      as Hcoh.
    destruct (getCachedResponse _ _ _) as [[cached|] cache]; simpl in Hcoh.
    { intros _ _. exact Hcoh. }
    destruct (selectProducts_total (products s1) s1 (search p) (categoryFilter p) Hix)
      as (fp & Hsel & _).
    rewrite selectProducts_withCache, Hsel. simpl. intros _ _.
    intros key entry. simpl. unfold setCachedResponse.
    intros [[<- <-] | [_ Hk]]%lookup_insert_Some.
    + exists rt, p, fp. by rewrite selectProducts_withCache.
    + destruct (Hcoh key entry Hk) as (rt' & p' & fp' & Hkey & Hsel' & Hpay & Hhead).
      exists rt', p', fp'. rewrite selectProducts_withCache in *. done.
Qed.

(** ** Mutations *)

Section MutationProperties.
Context {V : Type} `{JSValue V}.

Lemma findIndex_Some productId ps i stored :
  findIndex productId ps = Some (i, stored) →
  ps !! i = Some stored ∧ id stored = productId.
Proof.
  unfold findIndex. intros (Hi & Hid & _)%list_find_Some. done.
Qed.

Lemma canonicalIds_snoc ps p :
  canonicalIds ps → id p ∉ map id ps → (∃ n, 0 <= n ∧ id p = toString n) →
  canonicalIds (ps ++ [p]).
Proof.
  intros [Hnd Hall] Hfresh Hp. split.
  - rewrite map_app. simpl. apply NoDup_app. split_and!; [done| |apply NoDup_singleton].
    intros x Hx ->%list_elem_of_singleton. done.
  - apply Forall_app. split; [done|]. by constructor.
Qed.

Lemma canonicalIds_insert ps i stored updated :
  canonicalIds ps → ps !! i = Some stored → id updated = id stored →
  canonicalIds (<[i := updated]> ps).
Proof.
  intros [Hnd Hall] Hi Hid. split.
  - change (map id (<[i:=updated]> ps)) with (id <$> <[i:=updated]> ps).
    rewrite list_fmap_insert, Hid, list_insert_id; [done|].
    by rewrite list_lookup_fmap, Hi.
  - apply Forall_insert; [done|]. rewrite Hid.
    by apply (Forall_lookup_1 _ _ _ _ Hall Hi).
Qed.

Lemma canonicalIds_delete ps i : canonicalIds ps → canonicalIds (delete i ps).
Proof.
  intros [Hnd Hall]. split.
  - change (map id (delete i ps)) with (id <$> delete i ps).
    rewrite list_fmap_delete. eapply sublist_NoDup; [exact Hnd | apply sublist_delete].
  - by apply Forall_delete.
Qed.

Lemma createProduct_wellFormed rt productData s :
  wellFormed s → wellFormed (createProduct rt productData s).1.
Proof.
  intros Hs. pose proof (ensureProductsFresh_wellFormed rt s Hs) as Hs1.
  pose proof (ensureProductsFresh_nonempty rt s) as Hne.
  unfold createProduct. destruct (0 <? _); [done|]. simpl.
  destruct Hs1 as (_ & Hcan & _).
  destruct (newId_fresh _ Hcan Hne) as [Hfresh Hn].
  apply buildIndexes_wellFormed, canonicalIds_snoc; done.
Qed.

Lemma updateProduct_wellFormed rt productId updateData s :
  wellFormed s → wellFormed (updateProduct rt productId updateData s).1.
Proof.
  intros Hs. pose proof (ensureProductsFresh_wellFormed rt s Hs) as Hs1.
  unfold updateProduct. destruct (negb _); [done|]. destruct (0 <? _); [done|].
  destruct (findIndex _ _) as [[i stored]|] eqn:Hfind; [|done]. simpl.
  apply findIndex_Some in Hfind as [Hi _]. destruct Hs1 as (_ & Hcan & _).
  by apply buildIndexes_wellFormed, (canonicalIds_insert _ _ stored).
Qed.

Lemma deleteProduct_wellFormed rt productId s :
  wellFormed s → wellFormed (deleteProduct rt productId s).1.
Proof.
  intros Hs. pose proof (ensureProductsFresh_wellFormed rt s Hs) as Hs1.
  unfold deleteProduct. destruct (negb _); [done|].
  destruct (findIndex _ _) as [[i stored]|] eqn:Hfind; [|done]. simpl.
  destruct Hs1 as (_ & Hcan & _).
  by apply buildIndexes_wellFormed, canonicalIds_delete.
Qed.

Lemma handle_wellFormed rt (r : Request V) s :
  wellFormed s → wellFormed (handle rt r s).1.
Proof.
  destruct r; simpl.
  - apply listProducts_wellFormed.
  - apply createProduct_wellFormed.
  - apply updateProduct_wellFormed.
  - apply deleteProduct_wellFormed.
Qed.

Lemma serve_wellFormed (requests : list (Runtime * Request V)) s :
  wellFormed s → wellFormed (serve requests s).
Proof.
  revert s. induction requests as [|[rt r] requests IH]; intros s Hs; [done|].
  simpl. apply IH. by apply handle_wellFormed.
Qed.

(** Every state the service reaches is well-formed. *)
Lemma reachable_wellFormed rt0 (requests : list (Runtime * Request V)) :
  wellFormed (serve requests (initialState rt0)).
Proof. apply serve_wellFormed, initialState_wellFormed. Qed.

End MutationProperties.

(** * The properties of the specification *)


(** C9: running the rebuild a second time, on the collection the first run
    left, gives the same primary, word, trigram and category indexes and the
    same annotated products; and the outcome does not depend on the state
    the rebuild starts from. *)
Theorem buildIndexes_idempotent (productList : list Product) (s s' : State) :
  let s1 := buildIndexes productList s in
  let s2 := buildIndexes (products s1) s1 in
  productById (indexes s2) = productById (indexes s1)
  ∧ wordIndex (indexes s2) = wordIndex (indexes s1)
  ∧ trigramIndex (indexes s2) = trigramIndex (indexes s1)
  ∧ categoryIndex (indexes s2) = categoryIndex (indexes s1)
  ∧ products s2 = products s1
  ∧ map searchableText (products s1) = map (fun p => Some (searchText p)) productList
  ∧ indexes (buildIndexes productList s') = indexes s1
  ∧ products (buildIndexes productList s') = products s1.
Proof.
  simpl. rewrite buildIndexMaps_setSearchableText, map_setSearchableText_idemp.
  split_and!; try done. by rewrite map_map.
Qed.

(** C7: the sort of the pipeline is a stable rearrangement.  For every
    candidate list, every [sortBy] and [sortOrder] and every key value [v],
    the products whose sort key is strictly equal to [v] appear in the
    sorted list in the order in which they appear in the candidate list;
    and the sorted list is a permutation of the candidates. *)
Theorem sortProducts_stable (p : ListParams) (candidates : list Product)
    (v : option jsval) :
  filter (fun x => strictEq (fieldValue (sortBy p) x) v = true)
         (sortProducts p candidates)
  = filter (fun x => strictEq (fieldValue (sortBy p) x) v = true) candidates
  ∧ sortProducts p candidates ≡ₚ candidates.
Proof.
  unfold sortProducts. destruct (1 <? _); [|done]. split.
  - apply orderBy_stable.
  - apply orderBy_perm.
Qed.

Lemma parseListQuery_valid q :
  1 <= page (parseListQuery q) ∧ 1 <= limit (parseListQuery q) <= MAX_LIMIT.
Proof.
  unfold parseListQuery, MAX_LIMIT, DEFAULT_LIMIT. simpl. split.
  - destruct (asInteger (rawPage q)) as [n|]; [|lia].
    destruct (Z.ltb_spec 0 n); lia.
  - destruct (asInteger (rawLimit q)) as [n|]; lia.
Qed.

Lemma asInteger_num n : asInteger (num n) = Some n.
Proof. unfold asInteger, num. simpl. by rewrite Z.mod_1_r, Z.div_1_r. Qed.

Lemma parseListQuery_withPage q n :
  1 <= n →
  parseListQuery (withPage q n)
  = {| page := n; limit := limit (parseListQuery q);
       search := search (parseListQuery q);
       categoryFilter := categoryFilter (parseListQuery q);
       sortBy := sortBy (parseListQuery q);
       sortOrder := sortOrder (parseListQuery q) |}.
Proof.
  intros Hn. unfold parseListQuery, withPage.
  cbn [rawPage rawLimit rawSearch rawCategory rawSortBy rawSortOrder].
  rewrite asInteger_num. destruct (Z.ltb_spec 0 n); [done | lia].
Qed.

Lemma responsePayload_products rt p sorted :
  payloadProducts (responsePayload rt p sorted)
  = map toPublicProduct (pageSlice sorted (limit p) (page p)).
Proof. done. Qed.

Section OnPagination.
Context {V : Type} `{JSValue V}.

(** C6: in every state the service reaches and for every list request, the
    answer has status 200; its products are the slice
    [(page-1)*limit, (page-1)*limit + limit) of the sorted list of the [n]
    filtered products; [totalPages] is the least integer with
    [n <= limit * totalPages]; the answers for the pages 1 to [totalPages]
    hold [n] products together; and a page beyond [totalPages] is empty.
    [page] and [limit] are the values the handler derives from the query:
    [page] is at least 1 and [limit] is between 1 and 100. *)
Theorem pagination_correct (rt0 rt : Runtime)
    (requests : list (Runtime * Request V)) (q : ListQuery) :
  let s := serve requests (initialState rt0) in
  let p := parseListQuery q in
  let response := (listProducts rt q s).2 in
  ∃ filteredProducts payload,
    selectProducts (ensureProductsFresh rt s) (search p) (categoryFilter p)
      = Some filteredProducts
    ∧ let sorted := sortProducts p filteredProducts in
      let n := Z.of_nat (length sorted) in
      status response = 200
      ∧ body response = ListBody payload
      ∧ 1 <= page p ∧ 1 <= limit p <= 100
      ∧ payloadProducts payload
        = map toPublicProduct
            (slice sorted ((page p - 1) * limit p)
                          ((page p - 1) * limit p + limit p))
      ∧ totalItems (pagination payload) = n
      ∧ limit p * (totalPages (pagination payload) - 1) < n
          <= limit p * totalPages (pagination payload)
      ∧ sum_list
          (map (fun k : nat =>
                  length (responseProducts
                            (listProducts rt (withPage q (Z.of_nat k + 1)) s).2))
               (seq 0 (Z.to_nat (totalPages (pagination payload)))))
        = length sorted
      ∧ (totalPages (pagination payload) < page p →
         payloadProducts payload = []).
Proof.
  intros s p response.
  pose proof (reachable_wellFormed rt0 requests) as Hs. fold s in Hs.
  destruct (listProducts_response rt q s Hs) as (rt' & fp & Hsel & Hresp).
  fold p in Hsel, Hresp. fold response in Hresp.
  destruct (parseListQuery_valid q) as [Hpage Hlimit]. fold p in Hpage, Hlimit.
  unfold MAX_LIMIT in Hlimit.
  exists fp, (responsePayload rt' p (sortProducts p fp)).
  split; [exact Hsel|]. intros sorted n.
  rewrite Hresp. split_and!; try done; try lia.
  - apply ceilDiv_bounds. lia.
  - apply ceilDiv_bounds. lia.
  - cbn [responsePayload pagination totalPages].
    rewrite <- (page_sizes_sum sorted (limit p)) by lia.
    f_equal. apply map_ext_in. intros k _.
    destruct (listProducts_response rt (withPage q (Z.of_nat k + 1)) s Hs)
      as (rt'' & fp' & Hsel' & Hresp').
    rewrite parseListQuery_withPage in Hsel', Hresp' by lia.
    fold p in Hsel', Hresp'. cbn [search categoryFilter] in Hsel'.
    rewrite Hsel in Hsel'. injection Hsel' as <-.
    rewrite Hresp'. unfold responseProducts. cbn [body].
    rewrite responsePayload_products, length_map. done.
  - cbn [responsePayload pagination totalPages payloadProducts]. intros Hbeyond.
    change (map toPublicProduct (pageSlice sorted (limit p) (page p)) = []).
    rewrite pageSlice_beyond; [done | lia | done].
Qed.

End OnPagination.

(** In an indexed state with distinct ids, an id found in a posting set
    resolves, in the primary index, to the stored product from which the
    posting was derived. *)
Lemma posting_resolves s y (derived : Product → Prop) :
  Indexed (products s) s → NoDup (map id (products s)) →
  (∃ p, p ∈ products s ∧ id p = y ∧ derived p) →
  ∃ p, productById (indexes s) !! y = Some p ∧ p ∈ products s
       ∧ id p = y ∧ derived p.
Proof.
  intros Hix Hnd (p & Hp & <- & Hd). exists p. split_and!; try done.
  destruct Hix as [Hps' Hix']. rewrite Hix'.
  rewrite productById_NoDup by done.
  f_equal. by apply (Indexed_elem_of s); [split|].
Qed.

Section OnIndexes.
Context {V : Type} `{JSValue V}.

(** C8: in every state the service reaches, that is after every run of the
    rebuild, each product id found in a posting set of the word index, of
    the trigram index or of the category index is a key of the primary
    index, and the primary index maps it to the stored product from which
    the posting was derived: a product with that id whose text has the word,
    whose text has the trigram, or whose category is the key. *)
Theorem indexes_consistent (rt0 : Runtime)
    (requests : list (Runtime * Request V)) (key y : jsstring) :
  let s := serve requests (initialState rt0) in
  let ix := indexes s in
  (y ∈ postings (wordIndex ix) key →
   ∃ p, productById ix !! y = Some p ∧ p ∈ products s ∧ id p = y
        ∧ searchableText p = Some (searchText p)
        ∧ key ∈ getWords (searchText p))
  ∧ (y ∈ postings (trigramIndex ix) key →
     ∃ p, productById ix !! y = Some p ∧ p ∈ products s ∧ id p = y
          ∧ searchableText p = Some (searchText p)
          ∧ key ∈ getTrigrams (searchText p))
  ∧ (y ∈ postings (categoryIndex ix) key →
     ∃ p, productById ix !! y = Some p ∧ p ∈ products s ∧ id p = y
          ∧ category p = key).
Proof.
  intros s ix.
  destruct (reachable_wellFormed rt0 requests) as (Hix & [Hnd _] & _).
  fold s in Hix, Hnd.
  assert (Htext : ∀ p, p ∈ products s → searchableText p = Some (searchText p)).
  { intros p Hp. by rewrite <- (Indexed_elem_of s p Hix Hp). }
  pose proof Hix as [_ Hix']. unfold ix. split_and!.
  - rewrite Hix', elem_of_wordIndex, <- Hix'. intros Hy.
    destruct (posting_resolves s y _ Hix Hnd Hy) as (p & ? & ? & ? & ?).
    exists p. split_and!; auto.
  - rewrite Hix', elem_of_trigramIndex, <- Hix'. intros Hy.
    destruct (posting_resolves s y _ Hix Hnd Hy) as (p & ? & ? & ? & ?).
    exists p. split_and!; auto.
  - rewrite Hix', elem_of_categoryIndex, <- Hix'. intros Hy.
    destruct (posting_resolves s y _ Hix Hnd Hy) as (p & ? & ? & ? & ?).
    exists p. split_and!; auto.
Qed.

End OnIndexes.

Section OnMutations.
Context {V : Type} `{JSValue V}.

Lemma updateProduct_success rt productId (updateData : ProductData V) s :
  status (updateProduct rt productId updateData s).2 = 200 →
  ∃ i stored,
    findIndex productId (products (ensureProductsFresh rt s)) = Some (i, stored)
    ∧ updateProduct rt productId updateData s
      = (buildIndexes (<[i := applyUpdate stored updateData]>
                         (products (ensureProductsFresh rt s)))
                      (ensureProductsFresh rt s),
         {| status := 200; responseHeaders := [];
            body := MutationBody (js "Product updated successfully")
                      (Some (toPublicProduct (applyUpdate stored updateData))) |}).
Proof.
  unfold updateProduct. destruct (negb _); [done|]. destruct (0 <? _); [done|].
  destruct (findIndex _ _) as [[i stored]|]; [|done]. eauto.
Qed.

Lemma applyUpdate_frame (updateData : ProductData V) stored :
  updateFrame updateData stored (setSearchableText (applyUpdate stored updateData)).
Proof.
  unfold updateFrame. simpl. split_and!; try done; by intros ->.
Qed.

(** A successful update, in a well-formed state. *)
Lemma updateProduct_frame rt productId (updateData : ProductData V) s :
  wellFormed s →
  let s1 := ensureProductsFresh rt s in
  let result := updateProduct rt productId updateData s in
  status result.2 = 200 →
  ∃ i stored updated,
    products s1 !! i = Some stored
    ∧ id stored = productId
    ∧ products result.1 !! i = Some updated
    ∧ productById (indexes result.1) !! productId = Some updated
    ∧ body result.2
      = MutationBody (js "Product updated successfully")
                     (Some (toPublicProduct updated))
    ∧ updateFrame updateData stored updated
    ∧ (∀ j, j ≠ i → products result.1 !! j = products s1 !! j).
Proof.
  intros Hs s1 result Hok.
  pose proof (ensureProductsFresh_wellFormed rt s Hs) as (Hix & Hcan & _).
  fold s1 in Hix, Hcan.
  destruct (updateProduct_success rt productId updateData s Hok)
    as (i & stored & Hfind & Hres).
  fold s1 in Hfind, Hres. fold result in Hres.
  apply findIndex_Some in Hfind as [Hi Hid].
  set (changed := applyUpdate stored updateData) in *.
  pose proof (canonicalIds_insert _ i stored changed Hcan Hi eq_refl) as [Hnd _].
  assert (Hin : changed ∈ <[i := changed]> (products s1)).
  { apply list_elem_of_lookup. exists i. apply list_lookup_insert_eq.
    by apply lookup_lt_Some in Hi. }
  exists i, stored, (setSearchableText changed). rewrite Hres. cbn [fst snd].
  split_and!; try done.
  - cbn [buildIndexes products].
    change (map setSearchableText ?l) with (setSearchableText <$> l).
    rewrite list_lookup_fmap, list_lookup_insert_eq; [done|].
    by apply lookup_lt_Some in Hi.
  - cbn [buildIndexes indexes]. rewrite <- Hid.
    apply (productById_NoDup _ changed Hnd Hin).
  - apply applyUpdate_frame.
  - intros j Hj. cbn [buildIndexes products].
    change (map setSearchableText ?l) with (setSearchableText <$> l).
    rewrite list_lookup_fmap, list_lookup_insert_ne by done.
    destruct (products s1 !! j) as [p|] eqn:Hp; [|done]. simpl. f_equal.
    apply (Indexed_elem_of s1); [done|]. by eapply list_elem_of_lookup_2.
Qed.

(** No request changes the rating or the creation time of a product that
    stays in the catalog; a created product starts with the rating 0. *)
Lemma handle_keeps_rating rt (r : Request V) s p' :
  p' ∈ products (handle rt r s).1 →
  (∃ p, p ∈ products (ensureProductsFresh rt s) ∧ id p = id p'
        ∧ rating p = rating p' ∧ createdAt p = createdAt p')
  ∨ (∃ productData, r = Create productData ∧ rating p' = VNum (num 0)).
Proof.
  set (s1 := ensureProductsFresh rt s).
  assert (Hsame : p' ∈ products s1 →
    (∃ p, p ∈ products s1 ∧ id p = id p' ∧ rating p = rating p'
          ∧ createdAt p = createdAt p')
    ∨ (∃ productData, r = Create productData ∧ rating p' = VNum (num 0))).
  { intros Hp. left. by exists p'. }
  destruct r as [q|productData|productId updateData|productId]; simpl.
  - destruct (listProducts_state rt q s) as [-> _]. exact Hsame.
  - unfold createProduct. fold s1. destruct (0 <? _); [exact Hsame|].
    cbn [fst buildIndexes products].
    intros (p0 & -> & [Hp0 | ->%list_elem_of_singleton]%elem_of_app)%list_elem_of_fmap.
    + left. by exists p0.
    + right. by exists productData.
  - unfold updateProduct. fold s1. destruct (negb _); [exact Hsame|].
    destruct (0 <? _); [exact Hsame|].
    destruct (findIndex _ _) as [[i stored]|] eqn:Hfind; [|exact Hsame].
    apply findIndex_Some in Hfind as [Hi _].
    cbn [fst buildIndexes products].
    intros (p0 & -> & [j Hj]%list_elem_of_lookup)%list_elem_of_fmap.
    left. destruct (decide (j = i)) as [->|Hne].
    + rewrite list_lookup_insert_eq in Hj by (by apply lookup_lt_Some in Hi).
      injection Hj as <-. exists stored. split; [|done].
      by eapply list_elem_of_lookup_2.
    + rewrite list_lookup_insert_ne in Hj by done.
      exists p0. split; [|done]. by eapply list_elem_of_lookup_2.
  - unfold deleteProduct. fold s1. destruct (negb _); [exact Hsame|].
    destruct (findIndex _ _) as [[i stored]|] eqn:Hfind; [|exact Hsame].
    cbn [fst buildIndexes products].
    intros (p0 & -> & Hp0)%list_elem_of_fmap.
    left. exists p0. split; [|done].
    by eapply list_elem_of_delete_inv.
Qed.

(** C10: in every state the service reaches, an update that succeeds
    replaces the stored product that carries the id by a product with the
    same [id], [rating] and [createdAt] (and the same internal fields), in
    which every one of [name], [description], [price], [category], [brand],
    [stock] and [tags] that is absent from the body is unchanged; the
    primary index resolves the id to that product, and no other stored
    product changes.  Moreover no request of the API changes the rating of a
    product that stays in the catalog: after any request, every stored
    product either has the id, rating and creation time of a product stored
    before, or is the product just created, whose rating is 0. *)
Theorem update_frame (rt0 rt : Runtime) (requests : list (Runtime * Request V))
    (productId : jsstring) (updateData : ProductData V) :
  let s := serve requests (initialState rt0) in
  let s1 := ensureProductsFresh rt s in
  let result := updateProduct rt productId updateData s in
  (status result.2 = 200 →
   ∃ i stored updated,
     products s1 !! i = Some stored
     ∧ id stored = productId
     ∧ products result.1 !! i = Some updated
     ∧ productById (indexes result.1) !! productId = Some updated
     ∧ body result.2
       = MutationBody (js "Product updated successfully")
                      (Some (toPublicProduct updated))
     ∧ updateFrame updateData stored updated
     ∧ (∀ j, j ≠ i → products result.1 !! j = products s1 !! j))
  ∧ (∀ (r : Request V) p', p' ∈ products (handle rt r s).1 →
       (∃ p, p ∈ products s1 ∧ id p = id p' ∧ rating p = rating p'
             ∧ createdAt p = createdAt p')
       ∨ (∃ productData, r = Create productData ∧ rating p' = VNum (num 0))).
Proof.
  intros s s1 result. split.
  - apply updateProduct_frame, reachable_wellFormed.
  - intros r p'. apply handle_keeps_rating.
Qed.

End OnMutations.

Lemma update_frame_witness :
  let requests := [(quietRuntime, Create lampData)] in
  let s := serve (V:=json) requests (initialState quietRuntime) in
  let s1 := ensureProductsFresh quietRuntime s in
  let result := updateProduct quietRuntime (js "1001") renameData s in
  status result.2 = 200
  ∧ (name <$> products s1 !! 1000%nat) = Some (js "Blue &lt;Lamp&gt;")
  ∧ (name <$> products result.1 !! 1000%nat) = Some (js "Desk &lt;Lamp&gt;")
  ∧ (price <$> products result.1 !! 1000%nat) = Some (num 25)
  ∧ ∃ i stored updated,
      products s1 !! i = Some stored
      ∧ id stored = js "1001"
      ∧ products result.1 !! i = Some updated
      ∧ productById (indexes result.1) !! js "1001" = Some updated
      ∧ rating updated = rating stored
      ∧ createdAt updated = createdAt stored
      ∧ description updated = description stored
      ∧ category updated = category stored
      ∧ stock updated = stock stored
      ∧ tags updated = tags stored
      ∧ (∀ j, j ≠ i → products result.1 !! j = products s1 !! j).
Proof.
  intros requests s s1 result.
  assert (Hok : status result.2 = 200) by reflexivity.
  split; [exact Hok|].
  split; [reflexivity|].
  split; [reflexivity|].
  split; [reflexivity|].
  destruct (proj1 (update_frame (V:=json) quietRuntime quietRuntime
                     requests (js "1001") renameData) Hok)
    as (i & stored & updated & H1 & H2 & H3 & H4 & _ & Hframe & Hothers).
  exists i, stored, updated.
  destruct Hframe as (_ & Hrating & Hcreated & _ & _ & _ & _ & _ & Hdescription & _
                      & Hcategory & _ & Hstock & Htags).
  split_and!; [exact H1 | exact H2 | exact H3 | exact H4 | exact Hrating
    | exact Hcreated | exact (Hdescription eq_refl) | exact (Hcategory eq_refl)
    | exact (Hstock eq_refl) | exact (Htags eq_refl) | exact Hothers].
Defined.

Section OnCache.
Context {V : Type} `{JSValue V}.

(** A mutation that is carried out ends with a rebuild. *)
Lemma mutation_rebuilds rt (m : Request V) s :
  isMutation m = true → succeeded (handle rt m s).2 = true →
  ∃ productList, (handle rt m s).1
                 = buildIndexes productList (ensureProductsFresh rt s).
Proof.
  destruct m as [q|productData|productId updateData|productId]; simpl; [done|..];
    intros _.
  - unfold createProduct. destruct (0 <? _); [done|]. eauto.
  - unfold updateProduct. destruct (negb _); [done|]. destruct (0 <? _); [done|].
    destruct (findIndex _ _) as [[i stored]|]; [|done]. eauto.
  - unfold deleteProduct. destruct (negb _); [done|].
    destruct (findIndex _ _) as [[i stored]|]; [|done]. eauto.
Qed.

(** C4: in every state the service reaches, a mutation (create, update or
    delete) that is carried out ends with a full rebuild: the indexes are
    those of the new product list and the response cache is empty, so that
    no key has a cached answer.  And whatever requests follow, a list
    request is answered with the payload computed from the products and the
    indexes as they are when it is served, never with one computed from an
    earlier catalog. *)
Theorem cache_invalidated (rt0 rt rtq : Runtime)
    (requests later : list (Runtime * Request V)) (m : Request V)
    (q : ListQuery) :
  let s := serve requests (initialState rt0) in
  let result := handle rt m s in
  isMutation m = true → succeeded result.2 = true →
  responseCache result.1 = ∅
  ∧ indexes result.1 = buildIndexMaps (products result.1)
  ∧ (∀ key t, (getCachedResponse key t (responseCache result.1)).1 = None)
  ∧ let s2 := serve later result.1 in
    let p := parseListQuery q in
    ∃ rt' filteredProducts,
      selectProducts (ensureProductsFresh rtq s2) (search p) (categoryFilter p)
        = Some filteredProducts
      ∧ (listProducts rtq q s2).2
        = {| status := 200;
             responseHeaders :=
               totalCountHeaders (sortProducts p filteredProducts);
             body := ListBody (responsePayload rt' p
                                 (sortProducts p filteredProducts)) |}.
Proof.
  intros s result Hm Hok.
  destruct (mutation_rebuilds rt m s Hm Hok) as [productList Hres].
  fold result in Hres. rewrite Hres. split_and!.
  - done.
  - cbn [buildIndexes indexes products].
    by rewrite buildIndexMaps_setSearchableText.
  - intros key t. cbn [buildIndexes responseCache]. unfold getCachedResponse.
    by rewrite lookup_empty.
  - rewrite <- Hres. apply listProducts_response, serve_wellFormed.
    apply handle_wellFormed, reachable_wellFormed.
Qed.

End OnCache.

Lemma cache_invalidated_witness :
  let q := searchQuery [] [] in
  let p := parseListQuery q in
  let key := getCacheKey (paramObject p) in
  let requests := [(quietRuntime, List q)] in
  let s := serve (V:=json) requests (initialState quietRuntime) in
  let result := handle (V:=json) quietRuntime (Delete (js "1")) s in
  is_Some (responseCache s !! key)
  ∧ length (products s) = 1000%nat
  ∧ succeeded result.2 = true
  ∧ responseCache result.1 = ∅
  ∧ indexes result.1 = buildIndexMaps (products result.1)
  ∧ (getCachedResponse key 0 (responseCache result.1)).1 = None
  ∧ ∃ rt' filteredProducts,
      selectProducts (ensureProductsFresh quietRuntime (serve [] result.1))
                     (search p) (categoryFilter p)
        = Some filteredProducts
      ∧ length filteredProducts = 999%nat
      ∧ Forall (fun product => id product ≠ js "1") filteredProducts
      ∧ (listProducts quietRuntime q (serve [] result.1)).2
        = {| status := 200;
             responseHeaders :=
               totalCountHeaders (sortProducts p filteredProducts);
             body := ListBody (responsePayload rt' p
                                 (sortProducts p filteredProducts)) |}.
Proof.
  intros q p key requests s result.
  assert (Hfilled : is_Some (responseCache s !! key)) by (eexists; reflexivity).
  assert (Hok : succeeded result.2 = true) by reflexivity.
  destruct (cache_invalidated (V:=json) quietRuntime quietRuntime quietRuntime
              requests [] (Delete (js "1")) q eq_refl Hok)
    as (Hcache & Hix & Hmiss & rt' & filteredProducts & Hselect & Hanswer).
  split; [exact Hfilled|]. split; [reflexivity|]. split; [exact Hok|].
  split; [exact Hcache|]. split; [exact Hix|]. split; [exact (Hmiss key 0)|].
  exists rt', filteredProducts.
  assert (Hall : selectProducts (ensureProductsFresh quietRuntime (serve [] result.1))
                   (search p) (categoryFilter p)
                 = Some (products result.1)) by reflexivity.
  assert (Hsame : filteredProducts = products result.1).
  { assert (Hsome : Some filteredProducts = Some (products result.1))
      by exact (eq_trans (eq_sym Hselect) Hall).
    by injection Hsome. }
  split; [exact Hselect|].
  split; [rewrite Hsame; reflexivity|].
  split; [rewrite Hsame;
    apply (bool_decide_eq_true_1
             (Forall (fun product => id product ≠ js "1") (products result.1)));
    reflexivity|].
  exact Hanswer.
Defined.

(** C5, as stated, fails: the requests [search=Red] and [search=red] denote
    the same query, and their keys differ because the key holds the search
    string as it was received; and the key function depends on the order of
    the properties of the object it is given. *)
Lemma cacheKey_not_canonical :
  let p1 := parseListQuery (searchQuery (js "Red") []) in
  let p2 := parseListQuery (searchQuery (js "red") []) in
  let o1 := [(js "page", PNum 1); (js "limit", PNum 25)] in
  let o2 := [(js "limit", PNum 25); (js "page", PNum 1)] in
  equivalentParams p1 p2
  ∧ getCacheKey (paramObject p1) ≠ getCacheKey (paramObject p2)
  ∧ (∀ s category,
       selectProducts s (search p1) category
       = selectProducts s (search p2) category)
  ∧ o1 ≡ₚ o2
  ∧ getCacheKey o1 ≠ getCacheKey o2.
Proof.
  split_and!.
  - by vm_compute.
  - by vm_compute.
  - done.
  - apply Permutation_swap.
  - by vm_compute.
Qed.

(** C5, amended: the key is the JSON text of the object that the handler
    builds with the properties page, limit, search, category, sortBy and
    sortOrder in this order, the search string being the one received.  Two
    requests have the same key exactly when the six parameters are equal. *)
Theorem cacheKey_canonical (p1 p2 : ListParams) :
  getCacheKey (paramObject p1) = getCacheKey (paramObject p2) ↔ p1 = p2.
Proof.
  split; [apply cacheKey_inj | by intros ->].
Qed.

(** ** The start-up catalog *)

Lemma firstProduct_stored rt : firstProduct rt ∈ products (initialState rt).
Proof.
  unfold initialState. rewrite products_generateProducts.
  apply (list_elem_of_fmap_2 setSearchableText).
  unfold newProducts.
  apply (list_elem_of_fmap_2'
           (fun j : nat => generateProduct rt (7 * j) (Z.of_nat j + 1)) _ 0%nat).
  - apply elem_of_seq. unfold PRODUCT_COUNT. lia.
  - done.
Qed.

Lemma initialState_fresh rt rt0 :
  ensureProductsFresh rt (initialState rt0) = initialState rt0.
Proof.
  unfold ensureProductsFresh. rewrite bool_decide_eq_false_2; [done|].
  unfold initialState. apply generateProducts_nonempty.
Qed.

Lemma postings_nil index key :
  (∀ y, y ∉ postings index key) → postings index key = [].
Proof.
  destruct (postings index key) as [|y l]; [done|].
  intros Hy. destruct (Hy y). left.
Qed.

(** A query made of one word, too short for trigrams, that is no whole
    word of any product: the search selects nothing. *)
Lemma selectProducts_unknown_word ps s q :
  Indexed ps s → q ≠ [] → normalizeText q = q →
  getTrigrams q = [] → getWords q = [q] →
  (∀ p, p ∈ ps → q ∉ getWords (searchText p)) →
  selectProducts s q [] = Some [].
Proof.
  intros [Hps Hix] Hq Hnorm Htri Hwords Hnone.
  unfold selectProducts. rewrite bool_decide_eq_false_2 by done.
  rewrite Hnorm. unfold searchStage. rewrite bool_decide_eq_false_2 by done.
  unfold searchCandidates. rewrite Htri, Hwords. simpl.
  fold (postings (wordIndex (indexes s)) q).
  rewrite postings_nil; [done|].
  intros y. rewrite Hix, elem_of_wordIndex. intros (p & Hp & _ & Hw).
  by apply (Hnone p).
Qed.

Lemma newProducts_no_word_ro p :
  p ∈ newProducts quietRuntime → js "ro" ∉ getWords (searchText p).
Proof.
  intros Hp%list_elem_of_In.
  assert (Hall : forallb
    (fun p => negb (bool_decide (js "ro" ∈ getWords (searchText p))))
    (newProducts quietRuntime) = true) by (by vm_compute).
  rewrite forallb_forall in Hall. specialize (Hall p Hp).
  by rewrite negb_true_iff, bool_decide_eq_false in Hall.
Qed.
Lemma responseProducts_nil rt q s :
  wellFormed s →
  selectProducts (ensureProductsFresh rt s) (search (parseListQuery q))
                 (categoryFilter (parseListQuery q)) = Some [] →
  responseProducts (listProducts rt q s).2 = [].
Proof.
  intros Hs Hsel.
  destruct (listProducts_response rt q s Hs) as (rt' & fp & Hsel' & ->).
  rewrite Hsel in Hsel'. injection Hsel' as <-.
  unfold responseProducts. cbn [body]. rewrite responsePayload_products.
  unfold sortProducts. simpl. unfold pageSlice, slice.
  by rewrite drop_nil, take_nil.
Qed.
(** A query without trigram and without word token selects nothing. *)
Lemma selectProducts_no_keys s q :
  q ≠ [] → normalizeText q ≠ [] →
  getTrigrams (normalizeText q) = [] → getWords (normalizeText q) = [] →
  selectProducts s q [] = Some [].
Proof.
  intros Hq Hnq Htri Hwords. unfold selectProducts.
  rewrite (bool_decide_eq_false_2 (q = [])) by done.
  unfold searchStage.
  rewrite (bool_decide_eq_false_2 (normalizeText q = [])) by done.
  unfold searchCandidates. by rewrite Htri, Hwords.
Qed.

(** C2, as stated, fails on the start-up catalog.  [ro] is a substring of
    the text of the first product (of every product: it occurs in
    [product]) and it yields the word token [ro], but the word index has no
    posting for it, so the search selects nothing and the product is on no
    page.  And the three code units of [1] between two spaces are a
    substring of the same text, but the query normalizes to the single
    code unit [1], which has no trigram and no word token, so the search
    selects nothing either. *)
Lemma substring_query_missed :
  let s := initialState quietRuntime in
  let P := firstProduct quietRuntime in
  let text := normalizeText (name P ++ space :: description P) in
  let Q := js "ro" in
  let Q' := js " 1 " in
  P ∈ products s
  ∧ substring Q text
  ∧ getWords Q = [Q]
  ∧ selectProducts s Q [] = Some []
  ∧ (∀ n, responseProducts
            (listProducts quietRuntime (withPage (searchQuery Q []) n) s).2 = [])
  ∧ substring Q' text
  ∧ length Q' = 3%nat
  ∧ selectProducts s Q' [] = Some []
  ∧ (∀ n, responseProducts
            (listProducts quietRuntime (withPage (searchQuery Q' []) n) s).2 = []).
Proof.
  assert (Hsel : selectProducts (initialState quietRuntime) (js "ro") [] = Some []).
  { apply (selectProducts_unknown_word (newProducts quietRuntime)); try done.
    intros p. apply newProducts_no_word_ro. }
  assert (Hsel' : selectProducts (initialState quietRuntime) (js " 1 ") [] = Some []).
  { by apply selectProducts_no_keys. }
  split_and!.
  - apply firstProduct_stored.
  - apply includes_spec. by vm_compute.
  - done.
  - exact Hsel.
  - intros n. apply responseProducts_nil; [apply initialState_wellFormed|].
    rewrite initialState_fresh. exact Hsel.
  - apply includes_spec. by vm_compute.
  - done.
  - exact Hsel'.
  - intros n. apply responseProducts_nil; [apply initialState_wellFormed|].
    rewrite initialState_fresh. exact Hsel'.
Qed.

Lemma normalizeText_nil_inv q : normalizeText q ≠ [] → q ≠ [].
Proof. by intros Hq ->. Qed.

Lemma sortProducts_perm p l : sortProducts p l ≡ₚ l.
Proof. unfold sortProducts. destruct (1 <? _); [apply orderBy_perm | done]. Qed.

Section OnSearch.
Context {V : Type} `{JSValue V}.

(** C2, amended: in every state the service reaches, for every stored
    product P and every query Q that is a substring of
    [normalize(P.name + " " + P.description)], if the normalized query has
    three code units or more, or else if it yields word tokens and each of
    them is a word token of the text of P, then P is among the products the
    search selects, and it is on one of the pages 1 to [totalPages] of the
    answers to the requests that carry this search and no category. *)
Theorem substring_query_found (rt0 rt : Runtime)
    (requests : list (Runtime * Request V)) (P : Product) (Q : jsstring) :
  let s := serve requests (initialState rt0) in
  let s1 := ensureProductsFresh rt s in
  let text := normalizeText (name P ++ space :: description P) in
  P ∈ products s1 →
  substring Q text →
  (3 <= length (normalizeText Q))%nat
  ∨ (getWords (normalizeText Q) ≠ []
     ∧ ∀ w, w ∈ getWords (normalizeText Q) → w ∈ getWords text) →
  ∃ filteredProducts,
    selectProducts s1 Q [] = Some filteredProducts
    ∧ P ∈ filteredProducts
    ∧ ∀ q, rawSearch q = Q → rawCategory q = [] →
        ∃ n, 1 <= n
             ∧ toPublicProduct P
               ∈ responseProducts (listProducts rt (withPage q n) s).2.
Proof.
  intros s s1 text HP Hsub Hkeys.
  pose proof (reachable_wellFormed rt0 requests) as Hs. fold s in Hs.
  pose proof (ensureProductsFresh_wellFormed rt s Hs) as (Hix & [Hnd _] & _).
  fold s1 in Hix, Hnd.
  assert (Hnq : normalizeText Q ≠ []).
  { destruct Hkeys as [Hlen|[Hw _]].
    - intros Hnil. rewrite Hnil in Hlen. simpl in Hlen. lia.
    - by intros Hnil; rewrite Hnil in Hw. }
  destruct (searchStage_complete (products s1) s1 P (normalizeText Q) Hix Hnd HP)
    as (fp & cand & Hstage & Hin).
  { by apply normalizeText_substring. }
  { exact Hkeys. }
  rewrite (Indexed_elem_of s1 P Hix HP) in Hin.
  assert (Hsel : selectProducts s1 Q [] = Some fp).
  { unfold selectProducts.
    rewrite bool_decide_eq_false_2 by (by apply normalizeText_nil_inv).
    by rewrite Hstage. }
  exists fp. split_and!; [done..|].
  intros q Hq Hcat.
  destruct (parseListQuery_valid q) as [_ Hlimit].
  set (p := parseListQuery q) in *.
  assert (Hsorted : P ∈ sortProducts p fp).
  { by rewrite (sortProducts_perm p fp). }
  destruct (elem_of_some_page (sortProducts p fp) (limit p) P) as (n & [Hn _] & Hpage);
    [lia | done |].
  exists n. split; [done|].
  destruct (listProducts_response rt (withPage q n) s Hs)
    as (rt' & fp' & Hsel' & ->).
  rewrite parseListQuery_withPage in Hsel' |- * by done. fold p in Hsel' |- *.
  cbn [search categoryFilter] in Hsel'.
  assert (Hsp : search p = Q) by done.
  assert (Hcp : categoryFilter p = []) by done.
  rewrite Hsp, Hcp in Hsel'. fold s1 in Hsel'. rewrite Hsel in Hsel'.
  injection Hsel' as <-.
  unfold responseProducts. cbn [body]. rewrite responsePayload_products.
  cbn [limit page]. apply (list_elem_of_fmap_2 toPublicProduct). exact Hpage.
Qed.

End OnSearch.

Lemma substring_query_found_witness :
  ∃ filteredProducts,
    selectProducts (initialState quietRuntime) (js "product") []
      = Some filteredProducts
    ∧ firstProduct quietRuntime ∈ filteredProducts.
Proof.
  destruct (substring_query_found (V:=json) quietRuntime quietRuntime []
              (firstProduct quietRuntime) (js "product"))
    as (fp & Hsel & Hin & _).
  - cbn [serve fold_left]. rewrite initialState_fresh.
    apply firstProduct_stored.
  - apply includes_spec. by vm_compute.
  - left. vm_compute. lia.
  - exists fp. split; [|exact Hin].
    cbn [serve fold_left] in Hsel. by rewrite initialState_fresh in Hsel.
Defined.

(** ** The category filter after a search without keys *)

(** A selected product is on one of the pages of the answers. *)
Lemma selected_on_some_page rt q s filteredProducts P :
  wellFormed s →
  selectProducts (ensureProductsFresh rt s) (rawSearch q) (rawCategory q)
    = Some filteredProducts →
  P ∈ filteredProducts →
  ∃ n, 1 <= n
       ∧ toPublicProduct P ∈ responseProducts (listProducts rt (withPage q n) s).2.
Proof.
  intros Hs Hsel HP.
  destruct (parseListQuery_valid q) as [_ Hlimit].
  set (p := parseListQuery q) in *.
  assert (Hsorted : P ∈ sortProducts p filteredProducts)
    by (by rewrite (sortProducts_perm p filteredProducts)).
  destruct (elem_of_some_page (sortProducts p filteredProducts) (limit p) P)
    as (n & [Hn _] & Hpage); [lia | done |].
  exists n. split; [done|].
  destruct (listProducts_response rt (withPage q n) s Hs)
    as (rt' & fp' & Hsel' & ->).
  rewrite parseListQuery_withPage in Hsel' |- * by done. fold p in Hsel' |- *.
  cbn [search categoryFilter] in Hsel'.
  change (search p) with (rawSearch q) in Hsel'.
  change (categoryFilter p) with (rawCategory q) in Hsel'.
  rewrite Hsel in Hsel'. injection Hsel' as <-.
  unfold responseProducts. cbn [body]. rewrite responsePayload_products.
  cbn [limit page]. apply (list_elem_of_fmap_2 toPublicProduct). exact Hpage.
Qed.

(** When the normalized query has no trigram and no word token, the
    candidate set stays [null]; the category filter then takes the whole
    category from the index, in place of the empty search result. *)
Lemma category_overrides_search s search P :
  Indexed (products s) s → NoDup (map id (products s)) → P ∈ products s →
  category P ≠ [] → search ≠ [] → normalizeText search ≠ [] →
  getTrigrams (normalizeText search) = [] →
  getWords (normalizeText search) = [] →
  ∃ filteredProducts,
    selectProducts s search (category P) = Some filteredProducts
    ∧ P ∈ filteredProducts.
Proof.
  intros Hix Hnd HP Hcat Hq Hnq Htri Hwords. unfold selectProducts.
  rewrite (bool_decide_eq_false_2 (search = [])) by done.
  unfold searchStage.
  rewrite (bool_decide_eq_false_2 (normalizeText search = [])) by done.
  unfold searchCandidates. rewrite Htri, Hwords. simpl.
  eexists. split; [done|]. unfold categoryStage.
  rewrite bool_decide_eq_false_2 by done.
  apply elem_of_materialize. exists (id P). destruct Hix as [Hps' Hix']. split.
  - fold (postings (categoryIndex (indexes s)) (category P)).
    rewrite Hix'. apply elem_of_categoryIndex. by exists P.
  - rewrite Hix', productById_NoDup by done. f_equal.
    by apply (Indexed_elem_of s); [split|].
Qed.

(** C1 does not hold of the code.  On the start-up catalog, the request
    with the search [x] and the category [Electronics] is answered with
    the products of the category, among them the first product, whose text
    does not contain [x]. *)
Theorem search_false_positive :
  let s := initialState quietRuntime in
  let P := firstProduct quietRuntime in
  let q := searchQuery (js "x") (js "Electronics") in
  normalizeText (rawSearch q) = js "x"
  ∧ P ∈ products s
  ∧ searchableText P = Some (searchText P)
  ∧ includes (searchText P) (normalizeText (rawSearch q)) = false
  ∧ (∃ filteredProducts,
       selectProducts s (rawSearch q) (rawCategory q) = Some filteredProducts
       ∧ P ∈ filteredProducts)
  ∧ (∃ n, 1 <= n
          ∧ toPublicProduct P
            ∈ responseProducts (listProducts quietRuntime (withPage q n) s).2).
Proof.
  intros s P q.
  pose proof (initialState_wellFormed quietRuntime) as Hs.
  pose proof Hs as (Hix & [Hnd _] & _).
  assert (Hsel : ∃ filteredProducts,
    selectProducts s (rawSearch q) (rawCategory q) = Some filteredProducts
    ∧ P ∈ filteredProducts).
  { apply (category_overrides_search s (js "x") P);
      [exact Hix | exact Hnd | apply firstProduct_stored | done..]. }
  split_and!.
  - reflexivity.
  - apply firstProduct_stored.
  - reflexivity.
  - by vm_compute.
  - exact Hsel.
  - destruct Hsel as (fp & Hsel & HP).
    apply (selected_on_some_page quietRuntime q s fp P Hs); [|done].
    unfold s. rewrite initialState_fresh. exact Hsel.
Qed.
Lemma elem_of_length_pos {A} (x : A) (l : list A) :
  x ∈ l → 0 < Z.of_nat (length l).
Proof. destruct 1; simpl; lia. Qed.

(** C3 does not hold of the code.  On the start-up catalog the search [x]
    has no candidate set and, without a category, no survivor; with the
    category [Electronics] the result is not a subset of the survivors: it
    holds the products of the category. *)
Theorem category_replaces_search :
  let s := initialState quietRuntime in
  let P := firstProduct quietRuntime in
  let q := searchQuery (js "x") (js "Electronics") in
  searchCandidates (indexes s) (normalizeText (rawSearch q)) = None
  ∧ selectProducts s (rawSearch q) [] = Some []
  ∧ (∃ filteredProducts,
       selectProducts s (rawSearch q) (rawCategory q) = Some filteredProducts
       ∧ P ∈ filteredProducts
       ∧ ¬ filteredProducts ⊆ [])
  ∧ (∃ n payload,
       body (listProducts quietRuntime (withPage q n) s).2 = ListBody payload
       ∧ toPublicProduct P ∈ payloadProducts payload
       ∧ 0 < totalItems (pagination payload)).
Proof.
  intros s P q.
  pose proof (initialState_wellFormed quietRuntime) as Hs.
  pose proof Hs as (Hix & [Hnd _] & _).
  assert (Hsome : ∃ filteredProducts,
    selectProducts s (rawSearch q) (rawCategory q) = Some filteredProducts
    ∧ P ∈ filteredProducts).
  { apply (category_overrides_search s (js "x") P);
      [exact Hix | exact Hnd | apply firstProduct_stored | done..]. }
  destruct Hsome as (fp & Hsel & HP).
  split_and!.
  - reflexivity.
  - by apply selectProducts_no_keys.
  - exists fp. split_and!; [exact Hsel | exact HP |]. intros Hsub.
    by apply Hsub, elem_of_nil in HP.
  - destruct (parseListQuery_valid q) as [_ Hlimit].
    set (p := parseListQuery q) in *.
    assert (Hsorted : P ∈ sortProducts p fp)
      by (by rewrite (sortProducts_perm p fp)).
    destruct (elem_of_some_page (sortProducts p fp) (limit p) P)
      as (n & [Hn _] & Hpage); [lia | done |].
    destruct (listProducts_response quietRuntime (withPage q n) s Hs)
      as (rt' & fp' & Hsel' & Hresp).
    rewrite parseListQuery_withPage in Hsel', Hresp by done.
    fold p in Hsel', Hresp. cbn [search categoryFilter] in Hsel'.
    unfold s in Hsel'. rewrite initialState_fresh in Hsel'. fold s in Hsel'.
    change (search p) with (rawSearch q) in Hsel'.
    change (categoryFilter p) with (rawCategory q) in Hsel'.
    rewrite Hsel in Hsel'. injection Hsel' as <-.
    exists n. eexists. rewrite Hresp. split_and!; [reflexivity | |].
    + rewrite responsePayload_products. cbn [limit page].
      apply (list_elem_of_fmap_2 toPublicProduct). exact Hpage.
    + cbn [responsePayload pagination totalItems].
      exact (elem_of_length_pos P _ Hsorted).
Qed.

(** ** The search outside the defect *)

Lemma searchCandidates_None ix q :
  searchCandidates ix q = None → getTrigrams q = [] ∧ getWords q = [].
Proof.
  intros Hnone.
  destruct (getTrigrams q) as [|t ts] eqn:Ht, (getWords q) as [|w ws] eqn:Hw;
    [done|..];
    (destruct (searchCandidates_spec ix q) as (r & Hr & _);
     [rewrite Ht, Hw; auto | congruence]).
Qed.

(** The products left by the text search all pass the verification
    filter. *)
Lemma searchStage_sound ps s q filteredProducts candidateIds :
  Indexed ps s → q ≠ [] →
  searchStage s q = Some (filteredProducts, candidateIds) →
  Forall (fun p => textIncludes q p = true) filteredProducts
  ∧ candidateIds = searchCandidates (indexes s) q.
Proof.
  intros [Hps Hix] Hq. unfold searchStage.
  rewrite bool_decide_eq_false_2 by done. rewrite Hix.
  destruct (searchCandidates (buildIndexMaps ps) q) as [[|y ids]|] eqn:Hcand.
  - intros [= <- <-]. split; [constructor | done].
  - rewrite verifyMatches_filter by apply materialize_searchable.
    intros [= <- <-]. split; [|done].
    apply Forall_forall. by intros p [Hp _]%list_elem_of_filter.
  - intros [= <- <-]. split; [constructor | done].
Qed.

(** No false positives, but for the requests that combine a category with
    a search that has neither trigram nor word token. *)
Lemma selectProducts_sound ps s search category filteredProducts :
  Indexed ps s → normalizeText search ≠ [] →
  category = [] ∨ getTrigrams (normalizeText search) ≠ []
  ∨ getWords (normalizeText search) ≠ [] →
  selectProducts s search category = Some filteredProducts →
  Forall (fun p => textIncludes (normalizeText search) p = true) filteredProducts.
Proof.
  intros Hix Hnq Hkeys. unfold selectProducts.
  rewrite (bool_decide_eq_false_2 (search = []))
    by (by apply normalizeText_nil_inv).
  destruct (searchStage s (normalizeText search)) as [[fp cand]|] eqn:Hstage;
    [|done].
  destruct (searchStage_sound ps s _ fp cand Hix Hnq Hstage) as [Hfp Hcand].
  intros [= <-]. unfold categoryStage. case_bool_decide as Hcat; [done|].
  destruct cand as [ids|].
  - by apply Forall_filter.
  - symmetry in Hcand. apply searchCandidates_None in Hcand as [Ht Hw].
    destruct Hkeys as [?|[?|?]]; done.
Qed.

(** With a candidate set, the category filter keeps, of the products the
    search alone selects, those whose id is in the posting set of the
    category. *)
Lemma selectProducts_category ps s search category :
  Indexed ps s → normalizeText search ≠ [] → category ≠ [] →
  getTrigrams (normalizeText search) ≠ []
  ∨ getWords (normalizeText search) ≠ [] →
  ∃ survivors,
    selectProducts s search [] = Some survivors
    ∧ selectProducts s search category
      = Some (filter (fun p => id p ∈ postings (categoryIndex (indexes s)) category)
                     survivors).
Proof.
  intros Hix Hnq Hcat Hkeys. unfold selectProducts.
  rewrite (bool_decide_eq_false_2 (search = []))
    by (by apply normalizeText_nil_inv).
  destruct (searchStage_total ps s (normalizeText search) Hix)
    as (fp & cand & Hstage & _).
  rewrite Hstage.
  destruct (searchStage_sound ps s _ fp cand Hix Hnq Hstage) as [_ Hcand].
  destruct (searchCandidates_spec (indexes s) (normalizeText search))
    as (r & Hr & _); [tauto|].
  rewrite Hr in Hcand. subst cand.
  exists fp. split; [done|]. unfold categoryStage.
  rewrite bool_decide_eq_false_2 by done. f_equal.
  apply list_filter_iff. intros p. unfold setHas, postings.
  by rewrite bool_decide_eq_true.
Qed.

Lemma elem_of_slice {A} (l : list A) (b e : Z) x : x ∈ slice l b e → x ∈ l.
Proof.
  unfold slice. intros Hx.
  rewrite <- (take_drop (Z.to_nat (relativeIndex (Z.of_nat (length l)) b)) l).
  apply elem_of_app. right.
  rewrite <- (take_drop (Z.to_nat (relativeIndex (Z.of_nat (length l)) e
                                  - relativeIndex (Z.of_nat (length l)) b))
                       (drop _ l)).
  apply elem_of_app. by left.
Qed.

Section SearchOutsideDefect.
Context {V : Type} `{JSValue V}.

(** In every state the service reaches, a list request whose search has a
    non-empty normalization is answered with stored products whose text
    contains the normalized query, provided that the request has no
    category or that the normalized query has a trigram or a word token. *)
Theorem search_sound_with_keys (rt0 rt : Runtime)
    (requests : list (Runtime * Request V)) (q : ListQuery) :
  let s := serve requests (initialState rt0) in
  let p := parseListQuery q in
  let normalizedQuery := normalizeText (search p) in
  normalizedQuery ≠ [] →
  categoryFilter p = [] ∨ getTrigrams normalizedQuery ≠ []
  ∨ getWords normalizedQuery ≠ [] →
  ∀ x, x ∈ responseProducts (listProducts rt q s).2 →
    ∃ P, P ∈ products (ensureProductsFresh rt s)
         ∧ x = toPublicProduct P
         ∧ searchableText P = Some (searchText P)
         ∧ substring normalizedQuery (searchText P).
Proof.
  intros s p nq Hnq Hkeys x.
  pose proof (reachable_wellFormed rt0 requests) as Hs. fold s in Hs.
  pose proof (ensureProductsFresh_wellFormed rt s Hs) as (Hix & _ & _).
  destruct (listProducts_response rt q s Hs) as (rt' & fp & Hsel & ->).
  fold p in Hsel |- *.
  unfold responseProducts. cbn [body]. rewrite responsePayload_products.
  intros (P & -> & HP%elem_of_slice)%list_elem_of_fmap.
  rewrite (sortProducts_perm p fp) in HP.
  destruct (selectProducts_total _ _ (search p) (categoryFilter p) Hix)
    as (fp' & Hsel' & Hstored).
  rewrite Hsel in Hsel'. injection Hsel' as <-.
  pose proof (selectProducts_sound _ _ _ _ fp Hix Hnq Hkeys Hsel) as Hsound.
  rewrite Forall_forall in Hstored, Hsound.
  specialize (Hstored P HP). specialize (Hsound P HP).
  pose proof (Indexed_elem_of _ P Hix Hstored) as Hann.
  exists P. split_and!; [done | done | by rewrite <- Hann |].
  rewrite <- Hann in Hsound. by apply textIncludes_indexed in Hsound.
Qed.

(** In every state the service reaches, when the normalized search has a
    trigram or a word token, the category filter intersects: the products
    selected with the category are those selected by the search alone whose
    id is in the posting set of the category. *)
Theorem category_intersects_with_keys (rt0 rt : Runtime)
    (requests : list (Runtime * Request V)) (search category : jsstring) :
  let s := ensureProductsFresh rt (serve requests (initialState rt0)) in
  category ≠ [] →
  getTrigrams (normalizeText search) ≠ [] ∨ getWords (normalizeText search) ≠ [] →
  ∃ survivors,
    selectProducts s search [] = Some survivors
    ∧ selectProducts s search category
      = Some (filter (fun p => id p ∈ postings (categoryIndex (indexes s)) category)
                     survivors).
Proof.
  intros s Hcat Hkeys.
  pose proof (reachable_wellFormed rt0 requests) as Hs.
  pose proof (ensureProductsFresh_wellFormed rt _ Hs) as (Hix & _ & _).
  apply (selectProducts_category (products s)); try done.
  intros Hnil. rewrite Hnil in Hkeys. by destruct Hkeys.
Qed.

End SearchOutsideDefect.

Lemma search_sound_with_keys_witness :
  Forall (fun x => ∃ P, x = toPublicProduct P
                        ∧ substring (js "product") (searchText P))
         (responseProducts
            (listProducts quietRuntime (searchQuery (js "Product") [])
                          (initialState quietRuntime)).2).
Proof.
  apply Forall_forall. intros x Hx.
  destruct (search_sound_with_keys (V:=json) quietRuntime quietRuntime []
              (searchQuery (js "Product") []))
    with (x := x) as (P & _ & Hx' & _ & Hsub).
  - by vm_compute.
  - by left.
  - exact Hx.
  - exists P. split; [exact Hx' | exact Hsub].
Defined.

Lemma category_intersects_with_keys_witness :
  (category <$> products (initialState variedRuntime) !! 0%nat)
  = Some (js "Electronics")
  ∧ (category <$> products (initialState variedRuntime) !! 49%nat)
    = Some (js "Books")
  ∧ ∃ survivors,
      selectProducts (initialState variedRuntime) (js "Product") [] = Some survivors
      ∧ selectProducts (initialState variedRuntime) (js "Product") (js "Books")
        = Some (filter (fun p => id p ∈ postings
                          (categoryIndex (indexes (initialState variedRuntime)))
                          (js "Books"))
                       survivors).
Proof.
  split; [reflexivity|]. split; [reflexivity|].
  destruct (category_intersects_with_keys (V:=json) variedRuntime variedRuntime []
              (js "Product") (js "Books"))
    as (survivors & H1 & H2).
  - done.
  - left. by vm_compute.
  - cbn [serve fold_left] in H1, H2. rewrite initialState_fresh in H1, H2.
    exists survivors. split; [exact H1 | exact H2].
Defined.

(** ** Scenarios *)

Example scenario_search_red :
  responseNames (listProducts quietRuntime (searchQuery (js "Red") []) shoeCatalog).2
  = ["Red Hat"; "Red Shoe"]%string.
Proof. by vm_compute. Qed.

Example scenario_search_shoe :
  responseNames (listProducts quietRuntime (searchQuery (js "shoe") []) shoeCatalog).2
  = ["Blue Shoe"; "Red Shoe"]%string.
Proof. by vm_compute. Qed.

Example scenario_unknown_category :
  let r := (listProducts quietRuntime (searchQuery [] (js "NonExistent"))
                         shoeCatalog).2 in
  status r = 200 ∧ responseProducts r = []
  ∧ totalItems <$> responsePagination r = Some 0.
Proof. by vm_compute. Qed.

Example scenario_third_page :
  let q := {| rawPage := num 3; rawLimit := num 10; rawSearch := [];
              rawCategory := []; rawSortBy := None; rawSortOrder := None |} in
  let r := (listProducts quietRuntime q largeCatalog).2 in
  length (responseProducts r) = 5%nat
  ∧ totalPages <$> responsePagination r = Some 3
  ∧ nextPage <$> responsePagination r = Some None.
Proof. by vm_compute. Qed.

(** Sorting by price: the two products at the price 20 stay in the order
    of the catalog. *)
Example scenario_duplicate_prices :
  let q := {| rawPage := num 1; rawLimit := num 10; rawSearch := [];
              rawCategory := []; rawSortBy := Some (js "price");
              rawSortOrder := Some (js "asc") |} in
  responseNames (listProducts quietRuntime q shoeCatalog).2
  = ["Blue Shoe"; "Red Hat"; "Red Shoe"]%string.
Proof. by vm_compute. Qed.

(** The request that shows the defect of the category filter, on the
    small catalog: the search [x] alone selects nothing, and with the
    category it selects the category. *)
Example scenario_search_x :
  responseNames (listProducts quietRuntime (searchQuery (js "x") []) shoeCatalog).2
  = []
  ∧ responseNames (listProducts quietRuntime
                     (searchQuery (js "x") (js "Footwear")) shoeCatalog).2
    = ["Blue Shoe"; "Red Shoe"]%string.
Proof. by vm_compute. Qed.

Section OnIds.
Context {V : Type} `{JSValue V}.

(** In every state the service reaches, the ids of the stored products are
    pairwise distinct, each id is the decimal form of a natural number,
    and every stored product carries its indexed text. *)
Theorem ids_unique (rt0 : Runtime) (requests : list (Runtime * Request V)) :
  let s := serve requests (initialState rt0) in
  NoDup (map id (products s))
  ∧ Forall (fun p => ∃ n, 0 <= n ∧ id p = toString n
                          ∧ parseInt (id p) = Some n
                          ∧ searchableText p = Some (searchText p))
           (products s).
Proof.
  intros s.
  destruct (reachable_wellFormed rt0 requests) as (Hix & [Hnd Hall] & _).
  fold s in Hix, Hnd, Hall. split; [done|].
  rewrite Forall_forall in Hall |- *. intros p Hp.
  destruct (Hall p Hp) as (n & Hn & Hid). exists n. split_and!; [done..| |].
  - by rewrite Hid, parseInt_toString.
  - by rewrite <- (Indexed_elem_of s p Hix Hp).
Qed.

End OnIds.

(** ** The order of the sorted list *)

Section SortedInsertion.
Context {A : Type} (comparer : A → A → Z) (D : A → Prop).
Context (asym : ∀ x y, D x → D y → comparer x y < 0 → ¬ comparer y x < 0).
Context (trans : ∀ x y z, D x → D y → D z →
                   comparer x y < 0 → comparer y z < 0 → comparer x z < 0).

Lemma insertSorted_sorted x l :
  D x → Forall D l →
  StronglySorted (inOrder comparer) l →
  StronglySorted (inOrder comparer) (insertSorted comparer x l).
Proof.
  intros Hx Hl Hs. induction Hs as [|y l Hs IH Hy]; simpl.
  - repeat constructor.
  - apply Forall_cons in Hl as [Hdy Hl].
    destruct (Z.ltb_spec (comparer x y) 0) as [Hxy|Hxy].
    + constructor; [by constructor|]. constructor; [by apply asym|].
      rewrite Forall_forall in Hy, Hl |- *. intros z Hz Hzx.
      apply (Hy z Hz). apply (trans z x y); auto.
    + constructor; [by apply IH|].
      rewrite Forall_forall in Hy |- *. intros z Hz.
      rewrite insertSorted_perm in Hz.
      apply elem_of_cons in Hz as [->|Hz]; [unfold inOrder; lia | by apply Hy].
Qed.

Lemma sortWith_sorted l :
  Forall D l → StronglySorted (inOrder comparer) (sortWith comparer l).
Proof.
  induction 1 as [|x l Hx Hl IH]; simpl; [constructor|].
  apply insertSorted_sorted; [done | | done].
  rewrite Forall_forall in Hl |- *. intros y Hy. apply Hl.
  by rewrite sortWith_perm in Hy.
Qed.

End SortedInsertion.

Lemma compareAscending_finite a b :
  compareAscending (Some (VNum (Finite a))) (Some (VNum (Finite b)))
  = match (a ?= b)%Q with Lt => -1 | Eq => 0 | Gt => 1 end.
Proof.
  unfold compareAscending, strictEq, valLt, valToNumber, numEq, numLt.
  rewrite <- (Qcompare_antisym a b).
  destruct (a ?= b)%Q eqn:Hab; simpl.
  - apply Qeq_alt in Hab. apply Qeq_bool_iff in Hab. by rewrite Hab.
  - assert (Hne : Qeq_bool a b = false).
    { apply not_true_is_false. rewrite Qeq_bool_iff, Qeq_alt. congruence. }
    rewrite Hne. simpl. by rewrite !(Qeq_bool_refl).
  - assert (Hne : Qeq_bool a b = false).
    { apply not_true_is_false. rewrite Qeq_bool_iff, Qeq_alt. congruence. }
    rewrite Hne. simpl. done.
Qed.

Lemma StronglySorted_map {A B} (f : A → B) (D : A → Prop)
    (R : A → A → Prop) (R' : B → B → Prop) (l : list A) :
  (∀ x y, D x → D y → R x y → R' (f x) (f y)) →
  Forall D l → StronglySorted R l → StronglySorted R' (map f l).
Proof.
  intros Hf Hl Hs. induction Hs as [|x l Hs IH Hx]; simpl; [constructor|].
  apply Forall_cons in Hl as [Hdx Hl]. constructor; [by apply IH|].
  apply Forall_fmap. rewrite Forall_forall in Hx, Hl |- *.
  intros y Hy. apply Hf; auto.
Qed.

Ltac compare_cases :=
  repeat match goal with
         | H : (_ ?= _)%Q = Eq |- _ => apply Qeq_alt in H
         | H : (_ ?= _)%Q = Lt |- _ => apply Qlt_alt in H
         | H : (_ ?= _)%Q = Gt |- _ => apply Qgt_alt in H
         end.

Section SortedByNumber.
Context (sortBy sortOrder : jsstring).

Lemma compareMultiple_asym (x y : nat * Product) :
  finiteKey sortBy x.2 → finiteKey sortBy y.2 →
  compareMultiple sortBy sortOrder x y < 0 →
  ¬ compareMultiple sortBy sortOrder y x < 0.
Proof.
  intros [a Ha] [b Hb]. unfold compareMultiple.
  rewrite Ha, Hb, !compareAscending_finite, <- (Qcompare_antisym a b).
  destruct (a ?= b)%Q; simpl; try case_bool_decide; simpl; lia.
Qed.

Lemma compareMultiple_trans (x y z : nat * Product) :
  finiteKey sortBy x.2 → finiteKey sortBy y.2 → finiteKey sortBy z.2 →
  compareMultiple sortBy sortOrder x y < 0 →
  compareMultiple sortBy sortOrder y z < 0 →
  compareMultiple sortBy sortOrder x z < 0.
Proof.
  intros [a Ha] [b Hb] [c Hc]. unfold compareMultiple.
  rewrite Ha, Hb, Hc, !compareAscending_finite.
  destruct (a ?= b)%Q eqn:Hab, (b ?= c)%Q eqn:Hbc, (a ?= c)%Q eqn:Hac;
    simpl; try case_bool_decide; simpl; try lia; compare_cases; lra.
Qed.

Lemma inOrder_keyOrdered (x y : nat * Product) :
  finiteKey sortBy x.2 → finiteKey sortBy y.2 →
  inOrder (compareMultiple sortBy sortOrder) x y →
  keyOrdered sortBy sortOrder x.2 y.2.
Proof.
  intros [a Ha] [b Hb]. unfold inOrder, keyOrdered, compareMultiple.
  rewrite Ha, Hb, !compareAscending_finite, <- (Qcompare_antisym a b).
  destruct (a ?= b)%Q; simpl; try case_bool_decide; simpl; lia.
Qed.

(** When the sort keys are finite numbers, the sorted list is in the order
    of the keys, in the requested direction. *)
Theorem orderBy_sorted (l : list Product) :
  Forall (finiteKey sortBy) l →
  StronglySorted (keyOrdered sortBy sortOrder) (orderBy l sortBy sortOrder).
Proof.
  intros Hl. unfold orderBy.
  assert (Hd : Forall (fun x : nat * Product => finiteKey sortBy x.2)
                      (withIndex l)).
  { apply Forall_forall. intros x [k Hk]%list_elem_of_lookup.
    unfold withIndex in Hk. rewrite list_lookup_imap in Hk.
    apply fmap_Some in Hk as (p & Hp & ->). simpl.
    rewrite Forall_forall in Hl. apply Hl. by eapply list_elem_of_lookup_2. }
  apply (StronglySorted_map snd (fun x : nat * Product => finiteKey sortBy x.2)
           (inOrder (compareMultiple sortBy sortOrder))).
  - apply inOrder_keyOrdered.
  - rewrite Forall_forall in Hd |- *. intros x Hx. apply Hd.
    by rewrite sortWith_perm in Hx.
  - apply (sortWith_sorted _ (fun x : nat * Product => finiteKey sortBy x.2));
      [apply compareMultiple_asym | apply compareMultiple_trans | done].
Qed.

End SortedByNumber.

Lemma orderBy_sorted_witness :
  StronglySorted (keyOrdered (js "price") (js "asc"))
    (orderBy (products shoeCatalog) (js "price") (js "asc")).
Proof.
  apply orderBy_sorted. repeat constructor; by eexists.
Defined.

(** * The other routes of the router *)

(** ** The order of strings *)

Lemma strLt_irrefl a : strLt a a = false.
Proof.
  induction a as [|c a IH]; simpl; [done|].
  by rewrite N.ltb_irrefl.
Qed.

Lemma code_inj c d : code c = code d → c = d.
Proof.
  unfold code. intros Hcd.
  by rewrite <- (ascii_N_embedding c), <- (ascii_N_embedding d), Hcd.
Qed.

Lemma strLt_trichotomy a b :
  strLt a b = false → strLt b a = false → a = b.
Proof.
  revert b. induction a as [|c a IH]; intros [|d b]; simpl; try done.
  destruct (N.ltb_spec (code c) (code d)) as [Hcd|Hcd]; [done|].
  destruct (N.ltb_spec (code d) (code c)) as [Hdc|Hdc]; [done|].
  intros Hab Hba. f_equal.
  - apply code_inj. lia.
  - by apply IH.
Qed.

Lemma strLt_trans a b c :
  strLt a b = true → strLt b c = true → strLt a c = true.
Proof.
  revert b c. induction a as [|x a IH]; intros [|y b] [|z c]; simpl; try done.
  destruct (N.ltb_spec (code x) (code y)) as [Hxy|Hxy];
    destruct (N.ltb_spec (code y) (code z)) as [Hyz|Hyz];
    destruct (N.ltb_spec (code x) (code z)) as [Hxz|Hxz]; try done; try lia.
  - destruct (N.ltb_spec (code z) (code y)); [done|lia].
  - destruct (N.ltb_spec (code y) (code x)); [done|].
    intros _ _. destruct (N.ltb_spec (code z) (code x)); [lia|]. lia.
  - destruct (N.ltb_spec (code y) (code x)) as [|Hyx]; [done|].
    destruct (N.ltb_spec (code z) (code y)) as [|Hzy]; [done|].
    destruct (N.ltb_spec (code z) (code x)) as [|Hzx]; [lia|].
    apply IH.
Qed.

Lemma strLt_asym a b : strLt a b = true → strLt b a = false.
Proof.
  intros Hab. destruct (strLt b a) eqn:Hba; [|done].
  by rewrite <- (strLt_irrefl a), (strLt_trans a b a).
Qed.

(** ** The keys of the category index *)

Lemma is_Some_addToIndex m key x key' :
  is_Some (addToIndex m key x !! key') ↔ is_Some (m !! key') ∨ key' = key.
Proof.
  unfold addToIndex. destruct (decide (key' = key)) as [->|Hne].
  - rewrite lookup_alter_eq. case_bool_decide as Hsome.
    + rewrite fmap_is_Some. tauto.
    + rewrite lookup_insert_eq. simpl. split; [auto | by eexists].
  - rewrite lookup_alter_ne by done. case_bool_decide.
    + tauto.
    + rewrite lookup_insert_ne by done. tauto.
Qed.

(** The category index has a key for exactly the categories of the
    products. *)
Lemma categoryIndex_keys ps key :
  is_Some (categoryIndex (buildIndexMaps ps) !! key)
  ↔ ∃ p, p ∈ ps ∧ category p = key.
Proof.
  induction ps as [|p ps IH] using rev_ind.
  - simpl. rewrite lookup_empty. split; [by intros [? ?]|].
    by intros (p & ?%elem_of_nil & _).
  - rewrite buildIndexMaps_snoc. simpl.
    rewrite is_Some_addToIndex, IH. split.
    + intros [(p' & Hin & Hkey) | ->].
      * exists p'. rewrite elem_of_app. auto.
      * exists p. rewrite elem_of_app, list_elem_of_singleton. auto.
    + intros (p' & [Hin | ->%list_elem_of_singleton]%elem_of_app & Hkey).
      * left. eauto.
      * right. auto.
Qed.

Lemma sortCompare_lt x y : sortCompare x y < 0 ↔ strLt x y = true.
Proof.
  unfold sortCompare. destruct (strLt x y); [done|].
  destruct (strLt y x); split; (done || lia).
Qed.

(** Sorting pairwise distinct strings puts them in strictly ascending
    order. *)
Lemma sortCompare_sorted (l : list jsstring) :
  NoDup l →
  StronglySorted (fun a b => strLt a b = true) (sortWith sortCompare l).
Proof.
  intros Hnd.
  assert (Hsorted : StronglySorted (inOrder sortCompare) (sortWith sortCompare l)).
  { apply (sortWith_sorted sortCompare (fun _ => True)).
    - intros x y _ _. rewrite !sortCompare_lt. intros Hxy.
      by rewrite (strLt_asym x y Hxy).
    - intros x y z _ _ _. rewrite !sortCompare_lt. apply strLt_trans.
    - by apply Forall_forall. }
  assert (Hnd' : NoDup (sortWith sortCompare l)) by by rewrite sortWith_perm.
  induction Hsorted as [|x r Hr IH Hx]; [constructor|].
  apply NoDup_cons in Hnd' as [Hnotin Hnd'].
  constructor; [by apply IH|].
  rewrite Forall_forall in Hx |- *. intros y Hy.
  specialize (Hx y Hy). unfold inOrder in Hx. rewrite sortCompare_lt in Hx.
  destruct (strLt x y) eqn:Hxy; [done|]. exfalso.
  apply Hnotin. rewrite (strLt_trichotomy x y); [done | done |].
  by destruct (strLt y x).
Qed.

Section OnRoutes.
Context {V : Type} `{JSValue V}.

Lemma getProduct_state rt productId s :
  (getProduct rt productId s).1 = ensureProductsFresh rt s.
Proof.
  unfold getProduct. destruct (negb _); [done|].
  by destruct (productById _ !! _).
Qed.

Lemma adminRoute_wellFormed env authorization handler s :
  (wellFormed s → wellFormed (handler s).1) →
  wellFormed s → wellFormed (adminRoute env authorization handler s).1.
Proof.
  intros Hh Hs. unfold adminRoute. destruct (requireAdmin _ _); [done|].
  specialize (Hh Hs). by destruct (handler s).
Qed.

Lemma router_wellFormed env rt (c : Call V) s :
  wellFormed s → wellFormed (router env rt c s).1.
Proof.
  intros Hs. destruct c; simpl.
  - pose proof (listProducts_wellFormed rt q s Hs). by destruct (listProducts _ _ _).
  - by apply ensureProductsFresh_wellFormed.
  - pose proof (getProduct_state rt productId s) as Hst.
    destruct (getProduct _ _ _). simpl in *. subst.
    by apply ensureProductsFresh_wellFormed.
  - apply adminRoute_wellFormed; [apply createProduct_wellFormed | done].
  - apply adminRoute_wellFormed; [apply updateProduct_wellFormed | done].
  - apply adminRoute_wellFormed; [apply deleteProduct_wellFormed | done].
Qed.

Lemma serveCalls_wellFormed env (calls : list (Runtime * Call V)) s :
  wellFormed s → wellFormed (serveCalls env calls s).
Proof.
  revert s. induction calls as [|[rt c] calls IH]; intros s Hs; [done|].
  simpl. apply IH. by apply router_wellFormed.
Qed.

(** Every state that the router reaches from start-up is well-formed. *)
Lemma reachable_calls_wellFormed env rt0 (calls : list (Runtime * Call V)) :
  wellFormed (serveCalls env calls (initialState rt0)).
Proof. apply serveCalls_wellFormed, initialState_wellFormed. Qed.

(** The categories route: in every state that the router reaches, the
    answer lists exactly the categories of the stored products, each one
    once and in strictly ascending order of the code units, and [total] is
    their number; the only effect on the state is the regeneration of an
    empty catalog. *)
Theorem categories_listed (env : AuthEnv) (rt0 rt : Runtime)
    (calls : list (Runtime * Call V)) :
  let s := serveCalls env calls (initialState rt0) in
  let result := listCategories rt s in
  let names := categoryNames result.2 in
  result.1 = ensureProductsFresh rt s
  ∧ (∀ c, c ∈ names ↔ ∃ p, p ∈ products result.1 ∧ category p = c)
  ∧ StronglySorted (fun a b => strLt a b = true) names
  ∧ NoDup names
  ∧ total result.2 = Z.of_nat (length names).
Proof.
  intros s result names.
  pose proof (reachable_calls_wellFormed env rt0 calls) as Hs. fold s in Hs.
  pose proof (ensureProductsFresh_wellFormed rt s Hs) as ([Hps Hix] & _ & _).
  unfold names, result, listCategories. cbn [fst snd categoryNames total].
  set (s1 := ensureProductsFresh rt s) in *.
  split_and!; try done.
  - intros c. rewrite sortWith_perm, Hix.
    change (map fst ?l) with (fst <$> l).
    rewrite list_elem_of_fmap. split.
    + intros ([k v] & -> & Hkv%elem_of_map_to_list).
      apply categoryIndex_keys. by eexists.
    + intros [v Hv]%categoryIndex_keys. exists (c, v). split; [done|].
      by apply elem_of_map_to_list.
  - apply sortCompare_sorted, NoDup_fst_map_to_list.
  - rewrite sortWith_perm. apply NoDup_fst_map_to_list.
Qed.

End OnRoutes.


(** ** Invariants of the stored products *)

Section ProductInvariant.
Context {V : Type} `{JSValue V}.

Lemma createProduct_accepts rt (productData : ProductData V) s :
  let s1 := ensureProductsFresh rt s in
  let created := createdProduct rt productData (products s1) in
  validateProductInput productData false = [] →
  createProduct rt productData s
  = (buildIndexes (products s1 ++ [created]) s1,
     {| status := 201; responseHeaders := [];
        body := MutationBody (js "Product created successfully")
                             (Some (toPublicProduct created)) |}).
Proof. intros s1 created Hv. unfold createProduct. by rewrite Hv. Qed.

Lemma createProduct_rejects rt (productData : ProductData V) s :
  validateProductInput productData false ≠ [] →
  createProduct rt productData s
  = (ensureProductsFresh rt s,
     errorResponse 400 "Validation failed"
                   (validateProductInput productData false)).
Proof.
  intros Hv. unfold createProduct.
  by destruct (validateProductInput productData false).
Qed.

Lemma updateProduct_validated rt productId (updateData : ProductData V) s :
  status (updateProduct rt productId updateData s).2 = 200 →
  validateProductInput updateData true = [].
Proof.
  unfold updateProduct. destruct (negb _); [done|].
  by destruct (validateProductInput updateData true).
Qed.

Context (G : Runtime → Prop) (Q : Product → Prop).
Context (Qgenerated : ∀ rt, G rt → Forall Q (newProducts rt)).
Context (Qtext : ∀ p, Q p → Q (setSearchableText p)).
Context (Qcreated : ∀ rt (productData : ProductData V) ps,
           G rt → canonicalIds ps → ps ≠ [] → Forall Q ps →
           validateProductInput productData false = [] →
           Q (createdProduct rt productData ps)).
Context (Qupdated : ∀ stored (updateData : ProductData V),
           Q stored → validateProductInput updateData true = [] →
           Q (applyUpdate stored updateData)).

Lemma Forall_setSearchableText ps :
  Forall Q ps → Forall Q (map setSearchableText ps).
Proof. intros Hps. apply Forall_fmap. eapply Forall_impl; [exact Hps | exact Qtext]. Qed.

Lemma ensureProductsFresh_invariant rt s :
  G rt → Forall Q (products s) → Forall Q (products (ensureProductsFresh rt s)).
Proof.
  intros Hrt Hs. unfold ensureProductsFresh. case_bool_decide; [|done].
  rewrite products_generateProducts. by apply Forall_setSearchableText, Qgenerated.
Qed.

Lemma handle_invariant rt (r : Request V) s :
  G rt → wellFormed s → Forall Q (products s) →
  Forall Q (products (handle rt r s).1).
Proof.
  intros Hrt Hwf Hs.
  pose proof (ensureProductsFresh_invariant rt s Hrt Hs) as Hs1.
  pose proof (ensureProductsFresh_wellFormed rt s Hwf) as (_ & Hcan & _).
  pose proof (ensureProductsFresh_nonempty rt s) as Hne.
  destruct r as [q|productData|productId updateData|productId]; simpl.
  - by destruct (listProducts_state rt q s) as [-> _].
  - destruct (validateProductInput productData false) as [|e errors] eqn:Hv.
    + rewrite createProduct_accepts by done. cbn [fst buildIndexes products].
      apply Forall_setSearchableText, Forall_app. split; [done|].
      constructor; [|done]. by apply Qcreated.
    + rewrite createProduct_rejects by by rewrite Hv. done.
  - destruct (decide (status (updateProduct rt productId updateData s).2 = 200))
      as [Hok|Hno].
    + pose proof (updateProduct_validated _ _ _ _ Hok) as Hv.
      destruct (updateProduct_success _ _ _ _ Hok) as (i & stored & Hfind & ->).
      apply findIndex_Some in Hfind as [Hi _].
      cbn [fst buildIndexes products].
      apply Forall_setSearchableText, Forall_insert; [done|].
      apply Qupdated; [|done]. by apply (Forall_lookup_1 _ _ _ _ Hs1 Hi).
    + revert Hno. unfold updateProduct. destruct (negb _); [done|].
      destruct (0 <? _); [done|].
      by destruct (findIndex _ _) as [[i stored]|].
  - unfold deleteProduct. destruct (negb _); [done|].
    destruct (findIndex _ _) as [[i stored]|]; [|done].
    cbn [fst buildIndexes products].
    by apply Forall_setSearchableText, Forall_delete.
Qed.

Lemma router_invariant env rt (c : Call V) s :
  G rt → wellFormed s → Forall Q (products s) →
  Forall Q (products (router env rt c s).1).
Proof.
  intros Hrt Hwf Hs.
  pose proof (ensureProductsFresh_invariant rt s Hrt Hs) as Hs1.
  assert (Hadmin : ∀ authorization (r : Request V),
            Forall Q (products (adminRoute env authorization (handle rt r) s).1)).
  { intros authorization r. unfold adminRoute.
    destruct (requireAdmin _ _); [done|].
    pose proof (handle_invariant rt r s Hrt Hwf Hs).
    by destruct (handle rt r s). }
  destruct c; simpl.
  - pose proof (handle_invariant rt (List q) s Hrt Hwf Hs) as Hq. simpl in Hq.
    by destruct (listProducts rt q s).
  - done.
  - pose proof (getProduct_state rt productId s) as Hst.
    destruct (getProduct _ _ _). simpl in *. by subst.
  - apply (Hadmin authorization (Create productData)).
  - apply (Hadmin authorization (Update productId updateData)).
  - apply (Hadmin authorization (Delete productId)).
Qed.

(** A property of the generated products that the handlers keep holds of
    every stored product, in every state that the router reaches. *)
Lemma reachable_invariant env rt0 (calls : list (Runtime * Call V)) :
  G rt0 → Forall (fun c => G c.1) calls →
  Forall Q (products (serveCalls env calls (initialState rt0))).
Proof.
  intros Hrt0 Hcalls.
  assert (Hgen : ∀ s, wellFormed s → Forall Q (products s) →
            wellFormed (serveCalls env calls s)
            ∧ Forall Q (products (serveCalls env calls s))).
  { induction Hcalls as [|[rt c] calls Hrt _ IH]; intros s Hwf Hs; [done|].
    simpl. apply IH.
    - by apply router_wellFormed.
    - by apply router_invariant. }
  apply Hgen.
  - apply initialState_wellFormed.
  - unfold initialState. rewrite products_generateProducts.
    by apply Forall_setSearchableText, Qgenerated.
Qed.

End ProductInvariant.

(** ** Looking a product up *)

Lemma ensureProductsFresh_same rt s :
  products s ≠ [] → ensureProductsFresh rt s = s.
Proof. intros Hne. unfold ensureProductsFresh. by rewrite bool_decide_eq_false_2. Qed.

Lemma digitsValue_toString n : 0 <= n → digitsValue 0 (toString n) = Some n.
Proof.
  intros Hn. destruct (toString_digits n Hn) as [Hd Hne].
  by rewrite <- parseInt_digits, parseInt_toString.
Qed.

(** The decimal form of an integer from [min] on passes the test. *)
Lemma isInt_toString n min : 0 <= n → min <= n → isInt (toString n) min = true.
Proof.
  intros Hn Hmin. destruct (toString_digits n Hn) as [Hd Hne].
  unfold isInt. destruct (toString n) as [|c r] eqn:E; [done|].
  pose proof (Forall_inv Hd) as Hc.
  assert (Hminus : c ≠ ascii_of_N 45) by (intros ->; by destruct Hc).
  assert (Hplus : c ≠ ascii_of_N 43) by (intros ->; by destruct Hc).
  rewrite !bool_decide_eq_false_2 by done.
  assert (Hv : digitsValue 0 (c :: r) = Some n).
  { rewrite <- E. by apply digitsValue_toString. }
  rewrite Hv. by apply Z.leb_le.
Qed.

Lemma newId_positive ps :
  canonicalIds ps → ps ≠ [] → ∃ n, 1 <= n ∧ newId ps = toString n.
Proof.
  intros Hcan Hne. destruct (canonicalIds_parse ps Hcan) as (ns & Hns & Hall).
  unfold newId. rewrite Hns.
  destruct Hall as [|p n ps ns [Hn Hp] Hall]; [done|].
  exists (foldr Z.max n ns + 1). split; [|done].
  assert (n <= foldr Z.max n ns); [|lia].
  clear. induction ns as [|a ns IH]; simpl; lia.
Qed.

Section OnLookup.
Context {V : Type} `{JSValue V}.

(** Every stored id is the decimal form of a positive integer. *)
Lemma reachable_positiveIds env rt0 (calls : list (Runtime * Call V)) :
  Forall positiveId (products (serveCalls env calls (initialState rt0))).
Proof.
  apply (reachable_invariant (fun _ => True) positiveId); try done.
  - intros rt _. unfold newProducts. apply Forall_fmap, Forall_forall.
    intros j _. exists (Z.of_nat j + 1). split; [lia | done].
  - intros rt productData ps _ Hcan Hne _ _. by apply newId_positive.
  - by apply Forall_forall.
Qed.

Lemma positiveId_fresh rt s :
  Forall positiveId (products s) →
  Forall positiveId (products (ensureProductsFresh rt s)).
Proof.
  apply (ensureProductsFresh_invariant (fun _ => True) positiveId); try done.
  intros rt' _. unfold newProducts. apply Forall_fmap, Forall_forall.
  intros j _. exists (Z.of_nat j + 1). split; [lia | done].
Qed.

(** Looking up in a well-formed state whose ids are positive. *)
Lemma getProduct_found rt s p :
  wellFormed s → Forall positiveId (products s) → products s ≠ [] →
  p ∈ products s →
  getProduct rt (id p) s = (s, productFound (toPublicProduct p)).
Proof.
  intros ([Hps Hix] & [Hnd _] & _) Hpos Hne Hp.
  unfold getProduct, ensureProductsFresh.
  rewrite bool_decide_eq_false_2 by done.
  rewrite Forall_forall in Hpos. destruct (Hpos p Hp) as (n & Hn & Hid).
  rewrite Hid, isInt_toString by lia. simpl. rewrite <- Hid.
  rewrite Hix, productById_NoDup by done.
  by rewrite <- (Indexed_elem_of s p).
Qed.

Lemma getProduct_missing rt s productId :
  wellFormed s → products s ≠ [] → productId ∉ map id (products s) →
  (getProduct rt productId s).1 = s
  ∧ (status (getProduct rt productId s).2 = 400
     ∨ status (getProduct rt productId s).2 = 404).
Proof.
  intros ([Hps Hix] & _ & _) Hne Hid.
  unfold getProduct, ensureProductsFresh.
  rewrite bool_decide_eq_false_2 by done.
  destruct (negb _); [auto|].
  destruct (productById _ !! _) as [q|] eqn:Hq; [|auto].
  exfalso. apply Hid. apply productById_is_Some. rewrite <- Hix. by eexists.
Qed.

(** The lookup route: in every state that the router reaches, the answer
    to [GET /:productId] is 200 with the public view of the stored product
    that carries the id, when there is one; it is 400 when the id is not
    an integer from 1 on, and 404 when it is and no stored product carries
    it.  The only effect on the state is the regeneration of an empty
    catalog. *)
Theorem lookup_by_id (env : AuthEnv) (rt0 rt : Runtime)
    (calls : list (Runtime * Call V)) (productId : jsstring) :
  let s := serveCalls env calls (initialState rt0) in
  let s1 := ensureProductsFresh rt s in
  let result := getProduct rt productId s in
  result.1 = s1
  ∧ (∀ p, p ∈ products s1 → id p = productId →
       result.2 = productFound (toPublicProduct p))
  ∧ (productId ∉ map id (products s1) →
       if isInt productId 1 then result.2 = errorResponse 404 "Product not found" []
       else result.2 = errorResponse 400 "Invalid product ID" [])
  ∧ (status result.2 = 200 → productId ∈ map id (products s1)).
Proof.
  intros s s1 result.
  pose proof (reachable_calls_wellFormed env rt0 calls) as Hs. fold s in Hs.
  pose proof (reachable_positiveIds env rt0 calls) as Hpos. fold s in Hpos.
  pose proof (ensureProductsFresh_wellFormed rt s Hs) as Hs1.
  pose proof (positiveId_fresh rt s Hpos) as Hpos1.
  pose proof (ensureProductsFresh_nonempty rt s) as Hne.
  fold s1 in Hs1, Hpos1, Hne.
  assert (Hres : result = getProduct rt productId s1).
  { unfold result, getProduct. by rewrite (ensureProductsFresh_same rt s1). }
  split_and!.
  - apply getProduct_state.
  - intros p Hp <-. rewrite Hres. by rewrite getProduct_found.
  - intros Hid. rewrite Hres. unfold getProduct, ensureProductsFresh.
    rewrite bool_decide_eq_false_2 by done.
    destruct (isInt productId 1); simpl; [|done].
    destruct (productById _ !! _) as [q|] eqn:Hq; [|done].
    exfalso. apply Hid. destruct Hs1 as ([_ Hix] & _ & _).
    apply productById_is_Some. rewrite <- Hix. by eexists.
  - intros Hok. destruct (decide (productId ∈ map id (products s1))) as [|Hid]; [done|].
    destruct (getProduct_missing rt s1 productId Hs1 Hne Hid) as [_ Hst].
    rewrite <- Hres in Hst. lia.
Qed.

End OnLookup.

(** ** Writing and reading back *)

Section OnWrites.
Context {V : Type} `{JSValue V}.

Lemma handle_positiveId rt (r : Request V) s :
  wellFormed s → Forall positiveId (products s) →
  Forall positiveId (products (handle rt r s).1).
Proof.
  apply (handle_invariant (fun _ => True) positiveId); try done.
  - intros rt' _. unfold newProducts. apply Forall_fmap, Forall_forall.
    intros j _. exists (Z.of_nat j + 1). split; [lia | done].
  - intros rt' productData ps _ Hcan Hne _ _. by apply newId_positive.
Qed.

Lemma createProduct_validated rt (productData : ProductData V) s :
  status (createProduct rt productData s).2 = 201 →
  validateProductInput productData false = [].
Proof.
  unfold createProduct. by destruct (validateProductInput productData false).
Qed.

Lemma Indexed_annotated s :
  Indexed (products s) s → map setSearchableText (products s) = products s.
Proof. by intros [<- _]. Qed.

Lemma elem_of_insert_eq {A} (l : list A) i x y :
  l !! i = Some y → x ∈ <[i := x]> l.
Proof.
  intros Hi. apply list_elem_of_lookup. exists i.
  apply list_lookup_insert_eq. by apply lookup_lt_Some in Hi.
Qed.

(** Reading back what was written: in every state that the router
    reaches, a create that is answered 201 appends one product, under an id
    that no stored product carries, and leaves the others as they are; an
    update that is answered 200 answers with a product that carries the
    requested id; and in both cases a lookup of that id, right after,
    answers 200 with the very product of the answer. *)
Theorem written_product_found (env : AuthEnv) (rt0 rt rt' : Runtime)
    (calls : list (Runtime * Call V)) :
  let s := serveCalls env calls (initialState rt0) in
  let s1 := ensureProductsFresh rt s in
  (∀ productData : ProductData V,
     let result := createProduct rt productData s in
     status result.2 = 201 →
     ∃ stored,
       body result.2
       = MutationBody (js "Product created successfully")
                      (Some (toPublicProduct stored))
       ∧ (id stored ∉ map id (products s1))
       ∧ products result.1 = products s1 ++ [stored]
       ∧ getProduct rt' (id stored) result.1
         = (result.1, productFound (toPublicProduct stored)))
  ∧ (∀ (productId : jsstring) (updateData : ProductData V),
       let result := updateProduct rt productId updateData s in
       status result.2 = 200 →
       ∃ stored,
         body result.2
         = MutationBody (js "Product updated successfully")
                        (Some (toPublicProduct stored))
         ∧ id stored = productId
         ∧ stored ∈ products result.1
         ∧ getProduct rt' productId result.1
           = (result.1, productFound (toPublicProduct stored))).
Proof.
  intros s s1.
  pose proof (reachable_calls_wellFormed env rt0 calls) as Hs. fold s in Hs.
  pose proof (reachable_positiveIds env rt0 calls) as Hpos. fold s in Hpos.
  pose proof (ensureProductsFresh_wellFormed rt s Hs) as Hs1. fold s1 in Hs1.
  pose proof (ensureProductsFresh_nonempty rt s) as Hne. fold s1 in Hne.
  split.
  - intros productData result Hok.
    pose proof (createProduct_wellFormed rt productData s Hs) as Hwf.
    pose proof (handle_positiveId rt (Create productData) s Hs Hpos) as Hpos'.
    simpl in Hpos'. fold result in Hwf, Hpos'.
    pose proof (createProduct_validated _ _ _ Hok) as Hv.
    pose proof (createProduct_accepts rt productData s Hv) as Hres.
    fold s1 result in Hres.
    set (created := createdProduct rt productData (products s1)) in *.
    destruct Hs1 as (Hix & Hcan & _).
    destruct (newId_fresh _ Hcan Hne) as [Hfresh _].
    assert (Hps : products result.1 = products s1 ++ [setSearchableText created]).
    { rewrite Hres. cbn [fst buildIndexes products].
      by rewrite map_app, Indexed_annotated. }
    exists (setSearchableText created). split_and!.
    + by rewrite Hres.
    + exact Hfresh.
    + exact Hps.
    + apply getProduct_found; try done.
      * rewrite Hps. by destruct (products s1).
      * rewrite Hps, elem_of_app, list_elem_of_singleton. auto.
  - intros productId updateData result Hok.
    pose proof (updateProduct_wellFormed rt productId updateData s Hs) as Hwf.
    pose proof (handle_positiveId rt (Update productId updateData) s Hs Hpos)
      as Hpos'.
    simpl in Hpos'. fold result in Hwf, Hpos'.
    destruct (updateProduct_success _ _ _ _ Hok) as (i & stored & Hfind & Hres).
    fold s1 result in Hfind, Hres.
    apply findIndex_Some in Hfind as [Hi Hid].
    set (updated := applyUpdate stored updateData) in *.
    assert (Hin : setSearchableText updated ∈ products result.1).
    { rewrite Hres. cbn [fst buildIndexes products].
      apply (list_elem_of_fmap_2 setSearchableText).
      by apply (elem_of_insert_eq _ _ _ stored). }
    exists (setSearchableText updated). split_and!.
    + by rewrite Hres.
    + exact Hid.
    + exact Hin.
    + rewrite <- Hid. apply (getProduct_found rt' result.1 (setSearchableText updated));
        try done.
      intros Hnil. rewrite Hnil in Hin. by apply elem_of_nil in Hin.
Qed.

Lemma deleteProduct_success rt productId s :
  status (deleteProduct rt productId s).2 = 200 →
  isIntMin1 productId = true
  ∧ ∃ i stored,
      findIndex productId (products (ensureProductsFresh rt s)) = Some (i, stored)
      ∧ deleteProduct rt productId s
        = (buildIndexes (delete i (products (ensureProductsFresh rt s)))
                        (ensureProductsFresh rt s),
           {| status := 200; responseHeaders := [];
              body := MutationBody (js "Product deleted successfully") None |}).
Proof.
  unfold deleteProduct. destruct (isIntMin1 productId); [|done]. simpl.
  destruct (findIndex _ _) as [[i stored]|]; [|done]. eauto.
Qed.

Lemma findIndex_None productId ps :
  productId ∉ map id ps → findIndex productId ps = None.
Proof.
  intros Hid. unfold findIndex. apply list_find_None, Forall_forall.
  intros p Hp Heq. apply Hid. rewrite <- Heq.
  by apply (list_elem_of_fmap_2 id).
Qed.

(** Deleting: in every state that the router reaches, a delete that is
    answered 200 removes the one stored product that carries the id and
    leaves the others as they are, in their order; no stored product
    carries the id any more; and as long as the catalog is not empty, a
    lookup of the id and a second delete are both answered 404, the second
    delete leaving the state as it is. *)
Theorem deleted_product_gone (env : AuthEnv) (rt0 rt rt' : Runtime)
    (calls : list (Runtime * Call V)) (productId : jsstring) :
  let s := serveCalls env calls (initialState rt0) in
  let s1 := ensureProductsFresh rt s in
  let result := deleteProduct rt productId s in
  status result.2 = 200 →
  ∃ i stored,
    products s1 !! i = Some stored
    ∧ id stored = productId
    ∧ products result.1 = delete i (products s1)
    ∧ (productId ∉ map id (products result.1))
    ∧ (products result.1 ≠ [] →
       getProduct rt' productId result.1
       = (result.1, errorResponse 404 "Product not found" [])
       ∧ deleteProduct rt' productId result.1
         = (result.1, errorResponse 404 "Product not found" [])).
Proof.
  intros s s1 result Hok.
  pose proof (reachable_calls_wellFormed env rt0 calls) as Hs. fold s in Hs.
  pose proof (reachable_positiveIds env rt0 calls) as Hpos. fold s in Hpos.
  pose proof (ensureProductsFresh_wellFormed rt s Hs) as (Hix & [Hnd Hcan] & _).
  pose proof (positiveId_fresh rt s Hpos) as Hpos1.
  pose proof (deleteProduct_wellFormed rt productId s Hs) as Hwf.
  fold s1 in Hix, Hnd, Hcan, Hpos1. fold result in Hwf.
  destruct (deleteProduct_success _ _ _ Hok) as (Hint & i & stored & Hfind & Hres).
  fold s1 result in Hfind, Hres.
  apply findIndex_Some in Hfind as [Hi Hid].
  assert (Hps : products result.1 = delete i (products s1)).
  { rewrite Hres. cbn [fst buildIndexes products].
    change (map setSearchableText ?l) with (setSearchableText <$> l).
    rewrite list_fmap_delete. f_equal. by apply Indexed_annotated. }
  assert (Hgone : productId ∉ map id (products result.1)).
  { rewrite Hps. change (map id ?l) with (id <$> l). rewrite list_fmap_delete.
    pose proof (take_drop_middle (id <$> products s1) i productId) as Hsplit.
    rewrite list_lookup_fmap, Hi in Hsplit. specialize (Hsplit (f_equal Some Hid)).
    change (map id ?l) with (id <$> l) in Hnd.
    rewrite <- Hsplit in Hnd. apply NoDup_app in Hnd as (_ & Hdisj & Hnd2).
    apply NoDup_cons in Hnd2 as [Hnotin _].
    rewrite delete_take_drop, elem_of_app. intros [Hin|Hin]; [|done].
    by apply (Hdisj _ Hin), list_elem_of_here. }
  exists i, stored. split_and!; try done.
  intros Hne. split.
  - unfold getProduct. rewrite (ensureProductsFresh_same rt' result.1 Hne).
    rewrite Forall_forall in Hpos1.
    destruct (Hpos1 stored) as (n & Hn & Hidn); [by eapply list_elem_of_lookup_2|].
    rewrite <- Hid, Hidn, isInt_toString by lia. simpl.
    rewrite <- Hidn, Hid.
    destruct (productById _ !! _) as [q|] eqn:Hq; [|done].
    exfalso. apply Hgone. destruct Hwf as ([_ Hix'] & _ & _).
    apply productById_is_Some. rewrite <- Hix'. by eexists.
  - unfold deleteProduct. rewrite (ensureProductsFresh_same rt' result.1 Hne).
    rewrite Hint. simpl. by rewrite findIndex_None.
Qed.

End OnWrites.


Lemma deleted_product_gone_witness :
  let s := initialState quietRuntime in
  let result := deleteProduct quietRuntime (js "1") s in
  ∃ i stored,
    products s !! i = Some stored
    ∧ id stored = js "1"
    ∧ products result.1 = delete i (products s).
Proof.
  destruct (deleted_product_gone (V:=json) noSecret quietRuntime quietRuntime
              quietRuntime [] (js "1") eq_refl)
    as (i & stored & H1 & H2 & H3 & _).
  exists i, stored. split_and!; [exact H1 | exact H2 | exact H3].
Defined.

(** ** The selection is a linear scan *)




























Section OnSelection.
Context {V : Type} `{JSValue V}.


End OnSelection.


(** ** The response cache *)

Lemma listProducts_computed rt q s :
  let s1 := ensureProductsFresh rt s in
  let p := parseListQuery q in
  let key := getCacheKey (paramObject p) in
  status (listProducts rt q s).2 = 200 →
  (getCachedResponse key (now rt) (responseCache s1)).1 = None →
  ∃ filteredProducts,
    selectProducts s1 (search p) (categoryFilter p) = Some filteredProducts
    ∧ listProducts rt q s
      = (withCache s1
           (setCachedResponse key
              (responsePayload rt p (sortProducts p filteredProducts))
              (totalCountHeaders (sortProducts p filteredProducts)) (now rt)
              (getCachedResponse key (now rt) (responseCache s1)).2),
         {| status := 200;
            responseHeaders := totalCountHeaders (sortProducts p filteredProducts);
            body := ListBody (responsePayload rt p
                                (sortProducts p filteredProducts)) |}).
Proof.
  intros s1 p key. unfold listProducts. fold s1 p key.
  destruct (getCachedResponse key (now rt) (responseCache s1))
    as [[cached|] cache]; cbn [fst snd]; intros Hok Hmiss; [done|].
  rewrite selectProducts_withCache in *.
  destruct (selectProducts s1 (search p) (categoryFilter p)) as [fp|]; [|done].
  by exists fp.
Qed.

(** The cache replays: when a list request has been computed (it was not
    served from the cache) at time [t1], the same request at a time up to
    [t1 + 30 s], with no request in between, is answered with the same
    response, whatever the runtime then is, and leaves the state as it is;
    at a later time the stored entry counts for nothing: the request is
    served as if the entry had been removed. *)
Theorem cache_replays (rt1 rt2 : Runtime) (q : ListQuery) (s : State) :
  let first := listProducts rt1 q s in
  let key := getCacheKey (paramObject (parseListQuery q)) in
  status first.2 = 200 →
  (getCachedResponse key (now rt1)
     (responseCache (ensureProductsFresh rt1 s))).1 = None →
  (now rt2 <= now rt1 + CACHE_TTL_MS → listProducts rt2 q first.1 = first)
  ∧ (now rt1 + CACHE_TTL_MS < now rt2 →
     listProducts rt2 q first.1
     = listProducts rt2 q
         (withCache first.1 (delete key (responseCache first.1)))).
Proof.
  intros first key Hok Hmiss.
  destruct (listProducts_computed rt1 q s Hok Hmiss) as (fp & Hsel & Hfirst).
  fold first key in Hfirst.
  set (s1 := ensureProductsFresh rt1 s) in *.
  set (p := parseListQuery q) in *.
  set (cache := (getCachedResponse key (now rt1) (responseCache s1)).2) in *.
  assert (Hne : products first.1 ≠ []).
  { rewrite Hfirst. apply ensureProductsFresh_nonempty. }
  split; intros Htime.
  - unfold listProducts at 1. rewrite (ensureProductsFresh_same rt2 _ Hne).
    fold p key. rewrite Hfirst at 1 2. cbn [fst withCache responseCache].
    unfold getCachedResponse, setCachedResponse. rewrite lookup_insert_eq.
    cbn [expiresAt]. destruct (Z.ltb_spec (now rt1 + CACHE_TTL_MS) (now rt2)); [lia|].
    cbn [headers payload]. by rewrite Hfirst.
  - unfold listProducts. rewrite !ensureProductsFresh_same by done.
    fold p key. cbn [withCache responseCache products].
    rewrite Hfirst. cbn [fst withCache responseCache].
    unfold getCachedResponse, setCachedResponse.
    rewrite lookup_insert_eq, lookup_delete_eq. cbn [expiresAt].
    destruct (Z.ltb_spec (now rt1 + CACHE_TTL_MS) (now rt2)); [|lia].
    by rewrite delete_insert_eq.
Qed.

Lemma cache_replays_witness :
  let first := listProducts quietRuntime (searchQuery (js "red") []) shoeCatalog in
  listProducts quietRuntime (searchQuery (js "red") []) first.1 = first.
Proof.
  destruct (cache_replays quietRuntime quietRuntime (searchQuery (js "red") [])
              shoeCatalog eq_refl eq_refl) as [Hreplay _].
  apply Hreplay. unfold CACHE_TTL_MS. simpl. lia.
Defined.

(** ** The pages of a list response *)

Lemma length_pageSlice {A} (l : list A) (limit page : Z) :
  0 < limit → 1 <= page →
  Z.of_nat (length (pageSlice l limit page))
  = Z.max 0 (Z.min limit (Z.of_nat (length l) - (page - 1) * limit)).
Proof.
  intros Hl Hp. unfold pageSlice. rewrite slice_nonneg by nia.
  rewrite length_take, length_drop. nia.
Qed.

Section OnNavigation.
Context {V : Type} `{JSValue V}.

(** Navigation: in every state that the router reaches, a list response
    holds at most [itemsPerPage] products, and [itemsPerPage] is between 1
    and 100; the link to the next page is absent exactly on the last page
    and beyond, the link to the previous page exactly on page 1; the page
    is empty exactly when it lies beyond the last page; and the header
    [X-Total-Count] is the decimal form of [totalItems]. *)
Theorem navigation_consistent (env : AuthEnv) (rt0 rt : Runtime)
    (calls : list (Runtime * Call V)) (q : ListQuery) :
  let s := serveCalls env calls (initialState rt0) in
  let response := (listProducts rt q s).2 in
  ∃ payload,
    body response = ListBody payload
    ∧ let pg := pagination payload in
      Z.of_nat (length (payloadProducts payload)) <= itemsPerPage pg <= 100
      ∧ 1 <= itemsPerPage pg
      ∧ 1 <= currentPage pg
      ∧ 0 <= totalPages pg
      ∧ (nextPage pg = None ↔ totalPages pg <= currentPage pg)
      ∧ (prevPage pg = None ↔ currentPage pg = 1)
      ∧ (payloadProducts payload = [] ↔ totalPages pg < currentPage pg)
      ∧ responseHeaders response
        = [(js "X-Total-Count", toString (totalItems pg))].
Proof.
  intros s response.
  pose proof (reachable_calls_wellFormed env rt0 calls) as Hs. fold s in Hs.
  destruct (listProducts_response rt q s Hs) as (rt' & fp & _ & Hresp).
  fold response in Hresp.
  destruct (parseListQuery_valid q) as [Hpage Hlimit]. unfold MAX_LIMIT in Hlimit.
  set (p := parseListQuery q) in *. set (sorted := sortProducts p fp) in *.
  exists (responsePayload rt' p sorted). rewrite Hresp.
  split; [done|]. cbn [responsePayload pagination payloadProducts itemsPerPage
                       currentPage totalPages nextPage prevPage totalItems
                       responseHeaders].
  change (slice sorted ((page p - 1) * limit p) ((page p - 1) * limit p + limit p))
    with (pageSlice sorted (limit p) (page p)).
  pose proof (length_pageSlice sorted (limit p) (page p)) as Hlen.
  pose proof (ceilDiv_bounds (Z.of_nat (length sorted)) (limit p)) as Hceil.
  pose proof (ceilDiv_nonneg (Z.of_nat (length sorted)) (limit p)) as Hnn.
  set (tp := ceilDiv (Z.of_nat (length sorted)) (limit p)) in *.
  rewrite length_map. split_and!; try lia.
  - destruct (Z.leb_spec tp (page p)); split; (done || lia).
  - destruct (Z.ltb_spec 1 (page p)); split; (done || lia).
  - split.
    + intros Hnil%fmap_nil_inv.
      specialize (Hlen ltac:(lia) ltac:(lia)). specialize (Hceil ltac:(lia)).
      rewrite Hnil in Hlen. cbn [length Z.of_nat] in Hlen.
      assert (Hn : Z.of_nat (length sorted) <= (page p - 1) * limit p).
      { set (x := (page p - 1) * limit p) in *. lia. }
      assert (Hlt : limit p * (tp - 1) < limit p * (page p - 1)) by lia.
      apply Z.mul_lt_mono_pos_l in Hlt; lia.
    + intros Hbeyond. rewrite pageSlice_beyond; [done | lia | done].
  - done.
Qed.

End OnNavigation.

(** ** What validation guarantees *)

Section OnValidation.
Context {V : Type} `{JSValue V}.

Lemma errors_step_nil (c e : bool) (errors : list jsstring) m :
  (if c then if e then errors ++ [m] else errors else errors) = [] →
  errors = [] ∧ (c = true → e = false).
Proof.
  destruct c, e; try (intros ->; done).
  intros Hnil. by destruct errors.
Qed.

Lemma tags_step_nil (t : option V) (errors : list jsstring) m :
  match t with
  | Some t =>
      if negb (bool_decide (is_Some (arrayElements t))) then errors ++ [m]
      else errors
  | None => errors
  end = [] →
  errors = [] ∧ (∀ t', t = Some t' → is_Some (arrayElements t')).
Proof.
  destruct t as [t|]; [|by intros ->].
  case_bool_decide as Harr; simpl.
  - intros ->. split; [done|]. by intros t' [= <-].
  - intros Hnil. by destruct errors.
Qed.

(** A body that passes the validation passed every check that applies. *)
Lemma validateProductInput_nil (productData : ProductData V) (partial : bool) :
  validateProductInput productData partial = [] →
  (negb partial || bool_decide (is_Some (data_name productData)) = true →
     falsy (data_name productData) = false
     ∧ isLength (from_option ToString [] (data_name productData)) 2 120 = true)
  ∧ (negb partial || bool_decide (is_Some (data_description productData)) = true →
     falsy (data_description productData) = true
     ∨ isLength (from_option ToString [] (data_description productData)) 0 500 = true)
  ∧ (negb partial || bool_decide (is_Some (data_price productData)) = true →
     isFinite (Number (data_price productData)) = true
     ∧ numLe (Number (data_price productData)) (num 0) = false)
  ∧ (negb partial || bool_decide (is_Some (data_category productData)) = true →
     falsy (data_category productData) = false
     ∧ isLength (from_option ToString [] (data_category productData)) 2 60 = true)
  ∧ (negb partial || bool_decide (is_Some (data_brand productData)) = true →
     falsy (data_brand productData) = true
     ∨ isLength (from_option ToString [] (data_brand productData)) 2 60 = true)
  ∧ (negb partial || bool_decide (is_Some (data_stock productData)) = true →
     isInteger (NumberOrZero (data_stock productData)) = true
     ∧ numLt (NumberOrZero (data_stock productData)) (num 0) = false)
  ∧ (∀ t, data_tags productData = Some t → is_Some (arrayElements t)).
Proof.
  unfold validateProductInput. cbv beta zeta. intros Hv.
  apply tags_step_nil in Hv as [Hv H7].
  apply errors_step_nil in Hv as [Hv H6].
  apply errors_step_nil in Hv as [Hv H5].
  apply errors_step_nil in Hv as [Hv H4].
  apply errors_step_nil in Hv as [Hv H3].
  apply errors_step_nil in Hv as [Hv H2].
  apply errors_step_nil in Hv as [_ H1].
  split_and!.
  - intros Ha. apply H1, orb_false_iff in Ha as [? ?%negb_false_iff]. done.
  - intros Ha. apply H2, andb_false_iff in Ha as [?%negb_false_iff | ?%negb_false_iff];
      auto.
  - intros Ha. apply H3, orb_false_iff in Ha as [?%negb_false_iff ?]. done.
  - intros Ha. apply H4, orb_false_iff in Ha as [? ?%negb_false_iff]. done.
  - intros Ha. apply H5, andb_false_iff in Ha as [?%negb_false_iff | ?%negb_false_iff];
      auto.
  - intros Ha. apply H6, orb_false_iff in Ha as [?%negb_false_iff ?]. done.
  - exact H7.
Qed.

End OnValidation.


(** ** The generated catalog *)

Lemma pow2_pos e : (0 < pow2 e)%Q.
Proof. by apply Qpower_0_lt. Qed.

Lemma pow2_add a b : (pow2 (a + b) == pow2 a * pow2 b)%Q.
Proof. by apply Qpower_plus. Qed.

Lemma pow2_le a b : a <= b → (pow2 a <= pow2 b)%Q.
Proof. intros Hab. by apply Qpower_le_compat_l. Qed.

Lemma pow2_lt_inv a b : (pow2 a < pow2 b)%Q → a < b.
Proof. intros Hab. by apply (Qpower_lt_compat_l_inv 2). Qed.

Lemma pow2_nat (n : Z) : 0 <= n → (pow2 n == inject_Z (2 ^ n))%Q.
Proof. intros Hn. unfold pow2. by rewrite Zpower_Qpower. Qed.

Lemma ilog2_spec q :
  (0 < q)%Q → (pow2 (ilog2 q) <= q)%Q ∧ (q < pow2 (ilog2 q + 1))%Q.
Proof.
  intros Hq. destruct q as [n d]. unfold ilog2. cbn [Qnum Qden].
  assert (Hn : 0 < n) by (unfold Qlt in Hq; simpl in Hq; lia).
  set (a := Z.log2 n). set (b := Z.log2 (Z.pos d)).
  assert (Ha : 0 <= a) by apply Z.log2_nonneg.
  assert (Hb : 0 <= b) by apply Z.log2_nonneg.
  destruct (Z.log2_spec n Hn) as [Hn1 Hn2]. fold a in Hn1, Hn2.
  destruct (Z.log2_spec (Z.pos d) ltac:(lia)) as [Hd1 Hd2]. fold b in Hd1, Hd2.
  assert (Hq' : (n # d == inject_Z n / inject_Z (Z.pos d))%Q) by apply Qmake_Qdiv.
  assert (Hdpos : (0 < inject_Z (Z.pos d))%Q) by (unfold Qlt; simpl; lia).
  assert (Hnq : (inject_Z n == (n # d) * inject_Z (Z.pos d))%Q).
  { rewrite Hq'. field. intros E. rewrite E in Hdpos. by apply Qlt_irrefl in Hdpos. }
  (* n < 2^(a+1) and 2^b <= d: q < 2^(a - b + 1) *)
  assert (Hup : (n # d < pow2 (a - b + 1))%Q).
  { assert (E : (pow2 (a + 1) == pow2 (a - b + 1) * pow2 b)%Q)
      by (rewrite <- pow2_add; f_equiv; lia).
    assert (H1 : (inject_Z n < pow2 (a + 1))%Q).
    { rewrite pow2_nat by lia. rewrite <- Zlt_Qlt. replace (a + 1) with (Z.succ a) by lia.
      exact Hn2. }
    assert (H2 : (pow2 b <= inject_Z (Z.pos d))%Q).
    { rewrite pow2_nat by lia. by rewrite <- Zle_Qle. }
    pose proof (pow2_pos (a - b + 1)). pose proof (pow2_pos b).
    rewrite E, Hnq in H1.
    destruct (Qlt_le_dec (n # d) (pow2 (a - b + 1))) as [|Hge]; [done|].
    exfalso. nra. }
  (* 2^a <= n and d < 2^(b+1): 2^(a - b - 1) < q *)
  assert (Hlow : (pow2 (a - b - 1) < n # d)%Q).
  { assert (E : (pow2 a == pow2 (a - b - 1) * pow2 (b + 1))%Q)
      by (rewrite <- pow2_add; f_equiv; lia).
    assert (H1 : (pow2 a <= inject_Z n)%Q).
    { rewrite pow2_nat by lia. by rewrite <- Zle_Qle. }
    assert (H2 : (inject_Z (Z.pos d) < pow2 (b + 1))%Q).
    { rewrite pow2_nat by lia. rewrite <- Zlt_Qlt. replace (b + 1) with (Z.succ b) by lia.
      exact Hd2. }
    pose proof (pow2_pos (a - b - 1)). pose proof (pow2_pos (b + 1)).
    rewrite E, Hnq in H1.
    destruct (Qlt_le_dec (pow2 (a - b - 1)) (n # d)) as [|Hge]; [done|].
    exfalso. nra. }
  destruct (Qle_bool (pow2 (a - b)) (n # d)) eqn:Hcmp.
  - apply Qle_bool_iff in Hcmp. split; [exact Hcmp | exact Hup].
  - split; [by apply Qlt_le_weak|].
    replace (a - b - 1 + 1) with (a - b) by lia.
    apply Qnot_le_lt. intros Hle. apply Qle_bool_iff in Hle. congruence.
Qed.

Lemma ilog2_unique q e :
  (pow2 e <= q)%Q → (q < pow2 (e + 1))%Q → ilog2 q = e.
Proof.
  intros Hlow Hup.
  assert (Hq : (0 < q)%Q) by (pose proof (pow2_pos e); lra).
  destruct (ilog2_spec q Hq) as [Hlow' Hup'].
  assert (ilog2 q < e + 1) by (apply pow2_lt_inv; lra).
  assert (e < ilog2 q + 1) by (apply pow2_lt_inv; lra).
  lia.
Qed.

Lemma ilog2_mono q1 q2 : (0 < q1)%Q → (q1 <= q2)%Q → ilog2 q1 <= ilog2 q2.
Proof.
  intros H1 H12.
  destruct (ilog2_spec q1 H1) as [Hlow1 _].
  destruct (ilog2_spec q2 ltac:(lra)) as [_ Hup2].
  assert (ilog2 q1 < ilog2 q2 + 1) by (apply pow2_lt_inv; lra).
  lia.
Qed.

Lemma roundHalfEven_bounds q : Qfloor q <= roundHalfEven q <= Qfloor q + 1.
Proof.
  unfold roundHalfEven. destruct (_ ?= _)%Q; [destruct (Z.even _)|..]; lia.
Qed.

Lemma roundHalfEven_mono x y :
  (x <= y)%Q → roundHalfEven x <= roundHalfEven y.
Proof.
  intros Hxy. pose proof (Qfloor_resp_le x y Hxy) as Hfloor.
  destruct (Z.eq_dec (Qfloor x) (Qfloor y)) as [E|Hne].
  - unfold roundHalfEven. rewrite <- E.
    destruct (Qcompare_spec (x - inject_Z (Qfloor x)) (1 # 2)) as [Hx|Hx|Hx];
      destruct (Qcompare_spec (y - inject_Z (Qfloor x)) (1 # 2)) as [Hy|Hy|Hy];
      try destruct (Z.even (Qfloor x)); try lia; exfalso; lra.
  - pose proof (roundHalfEven_bounds x). pose proof (roundHalfEven_bounds y). lia.
Qed.

Lemma roundHalfEven_int n : roundHalfEven (inject_Z n) = n.
Proof.
  unfold roundHalfEven. rewrite Qfloor_Z.
  destruct (Qcompare_spec (inject_Z n - inject_Z n) (1 # 2)) as [Hx|Hx|Hx];
    [exfalso; lra | done | exfalso; lra].
Qed.

Lemma roundHalfEven_nonneg q : (0 <= q)%Q → 0 <= roundHalfEven q.
Proof.
  intros Hq. pose proof (roundHalfEven_mono 0 q Hq) as Hle.
  change 0%Q with (inject_Z 0) in Hle. by rewrite roundHalfEven_int in Hle.
Qed.

Lemma roundDouble_positive q :
  (0 < q)%Q →
  roundDouble q
  = (inject_Z (roundHalfEven (q / pow2 (lastBit q))) * pow2 (lastBit q))%Q.
Proof.
  intros Hq. unfold roundDouble.
  destruct (Qcompare_spec q 0) as [E|Hlt|Hgt]; [exfalso; lra | exfalso; lra | done].
Qed.

Lemma roundDouble_zero q : (q == 0)%Q → roundDouble q = 0%Q.
Proof.
  intros Hq. unfold roundDouble.
  destruct (Qcompare_spec q 0) as [E|Hlt|Hgt]; [done | exfalso; lra | exfalso; lra].
Qed.

Lemma div_pow2_nonneg q e : (0 <= q)%Q → (0 <= q / pow2 e)%Q.
Proof.
  intros Hq. apply Qle_shift_div_l; [apply pow2_pos | lra].
Qed.

(** Rounding keeps the sign. *)
Lemma roundDouble_nonneg q : (0 <= q)%Q → (0 <= roundDouble q)%Q.
Proof.
  intros Hq. destruct (Qlt_le_dec 0 q) as [Hpos|Hzero].
  - rewrite roundDouble_positive by done.
    pose proof (roundHalfEven_nonneg _ (div_pow2_nonneg q (lastBit q) Hq)) as Hm.
    apply Qmult_le_0_compat; [|apply Qlt_le_weak, pow2_pos].
    change 0%Q with (inject_Z 0). by rewrite <- Zle_Qle.
  - rewrite roundDouble_zero by lra. lra.
Qed.

(** Rounding keeps the order. *)
Lemma roundDouble_mono q1 q2 :
  (0 <= q1)%Q → (q1 <= q2)%Q → (roundDouble q1 <= roundDouble q2)%Q.
Proof.
  intros H1 H12. destruct (Qlt_le_dec 0 q1) as [Hpos|Hzero].
  2:{ rewrite (roundDouble_zero q1) by lra. apply roundDouble_nonneg. lra. }
  assert (Hpos2 : (0 < q2)%Q) by lra.
  rewrite !roundDouble_positive by done.
  pose proof (ilog2_mono q1 q2 Hpos H12) as Hlog.
  set (e1 := lastBit q1). set (e2 := lastBit q2).
  assert (He : e1 <= e2) by (unfold e1, e2, lastBit; lia).
  pose proof (pow2_pos e1) as Hp1. pose proof (pow2_pos e2) as Hp2.
  destruct (Z.eq_dec e1 e2) as [E|Hne].
  - rewrite <- E. apply Qmult_le_compat_r; [|lra].
    rewrite <- Zle_Qle. apply roundHalfEven_mono.
    apply Qle_shift_div_l; [done|].
    assert (Hq1 : (q1 / pow2 e1 * pow2 e1 == q1)%Q) by (field; lra).
    rewrite Hq1. exact H12.
  - assert (He2 : e2 = ilog2 q2 - 52) by (unfold e1, e2, lastBit in *; lia).
    assert (He1 : ilog2 q1 - 52 <= e1) by (unfold e1, lastBit; lia).
    destruct (ilog2_spec q1 Hpos) as [_ Hup1].
    destruct (ilog2_spec q2 Hpos2) as [Hlow2 _].
    (* the significand of q1 is 2^53 at most *)
    assert (Hm1 : roundHalfEven (q1 / pow2 e1) <= 2 ^ 53).
    { rewrite <- (roundHalfEven_int (2 ^ 53)). apply roundHalfEven_mono.
      apply Qlt_le_weak, Qlt_shift_div_r; [done|].
      rewrite <- pow2_nat by lia. rewrite <- pow2_add.
      eapply Qlt_le_trans; [exact Hup1|]. apply pow2_le. lia. }
    (* the significand of q2 is 2^52 at least *)
    assert (Hm2 : 2 ^ 52 <= roundHalfEven (q2 / pow2 e2)).
    { rewrite <- (roundHalfEven_int (2 ^ 52)) at 1. apply roundHalfEven_mono.
      apply Qle_shift_div_l; [done|].
      rewrite <- pow2_nat by lia. rewrite <- pow2_add.
      eapply Qle_trans; [|exact Hlow2]. apply pow2_le. lia. }
    rewrite Zle_Qle in Hm1, Hm2.
    assert (Hstep : (inject_Z (2 ^ 53) * pow2 e1 <= inject_Z (2 ^ 52) * pow2 e2)%Q).
    { rewrite <- !pow2_nat by lia. rewrite <- !pow2_add. apply pow2_le. lia. }
    eapply Qle_trans; [|eapply Qle_trans; [exact Hstep|]].
    + apply Qmult_le_compat_r; [done | lra].
    + apply Qmult_le_compat_r; [done | lra].
Qed.

Lemma double_below_one r :
  isDouble r → (0 <= r)%Q → (r < 1)%Q → (r <= belowOne)%Q.
Proof.
  intros Hdouble H0 H1. unfold belowOne.
  destruct (Qlt_le_dec r (1 # 2)) as [Hsmall|Hhalf]; [lra|].
  assert (Hlog : ilog2 r = -1).
  { apply ilog2_unique.
    - assert (E : (pow2 (-1) == 1 # 2)%Q) by reflexivity. lra.
    - assert (E : (pow2 (-1 + 1) == 1)%Q) by reflexivity. lra. }
  unfold isDouble in Hdouble. rewrite roundDouble_positive in Hdouble by lra.
  unfold lastBit in Hdouble. rewrite Hlog in Hdouble.
  change (Z.max (-1 - 52) (-1074)) with (-53) in Hdouble.
  set (m := roundHalfEven (r / pow2 (-53))) in Hdouble.
  assert (E : (pow2 (-53) == 1 # 9007199254740992)%Q) by reflexivity.
  rewrite E in Hdouble.
  assert (Hm : m < 9007199254740992).
  { rewrite Zlt_Qlt. change (inject_Z 9007199254740992) with 9007199254740992%Q. lra. }
  assert (Hm' : m <= 9007199254740991) by lia.
  rewrite Zle_Qle in Hm'.
  change (inject_Z 9007199254740991) with 9007199254740991%Q in Hm'. lra.
Qed.

(** A draw of [Math.random()] times [c], floored: an index below [c],
    when the largest draw times [c] rounds below [c]. *)
Lemma floor_times_range r (c : Z) :
  isDouble r → (0 <= r)%Q → (r < 1)%Q → 0 < c →
  (roundDouble (belowOne * inject_Z c) < inject_Z c)%Q →
  0 <= floor (times r (inject_Z c)) < c.
Proof.
  intros Hdouble H0 H1 Hc Htop. unfold floor, times.
  pose proof (double_below_one r Hdouble H0 H1) as Hr.
  assert (Hc' : (0 < inject_Z c)%Q)
    by (change 0%Q with (inject_Z 0); by rewrite <- Zlt_Qlt).
  assert (Hprod : (0 <= r * inject_Z c)%Q) by nra.
  pose proof (roundDouble_nonneg _ Hprod) as Hlow.
  assert (Hup : (roundDouble (r * inject_Z c) <= roundDouble (belowOne * inject_Z c))%Q).
  { apply roundDouble_mono; [done|]. nra. }
  pose proof (Qfloor_le (roundDouble (r * inject_Z c))) as Hle.
  pose proof (Qlt_floor (roundDouble (r * inject_Z c))) as Hlt.
  split.
  - apply Z.lt_succ_r.
    change (Z.succ (Qfloor (roundDouble (r * inject_Z c))))
      with (Qfloor (roundDouble (r * inject_Z c)) + 1).
    rewrite Zlt_Qlt. change (inject_Z 0) with 0%Q. lra.
  - rewrite Zlt_Qlt. lra.
Qed.

Lemma floor_times_nonneg r c :
  (0 <= r)%Q → (0 <= c)%Q → 0 <= floor (times r c).
Proof.
  intros Hr Hc. unfold floor, times.
  assert (Hprod : (0 <= r * c)%Q) by nra.
  pose proof (roundDouble_nonneg _ Hprod) as Hlow.
  pose proof (Qfloor_resp_le _ _ Hlow) as Hfloor. exact Hfloor.
Qed.

Lemma generateProduct_ranges rt k i :
  doubleRandom rt → inGeneratedRanges (generateProduct rt k i).
Proof.
  intros Hrt. unfold inGeneratedRanges, generateProduct.
  cbn [price stock category brand costPrice].
  assert (Hfloor : ∀ j n, 0 < n →
            (roundDouble (belowOne * inject_Z n) < inject_Z n)%Q →
            0 <= floor (times (random rt j) (inject_Z n)) < n).
  { intros j n Hn Htop. destruct (Hrt j) as (Hdouble & H0 & H1).
    by apply floor_times_range. }
  split_and!.
  - eexists. split; [done|].
    pose proof (Hfloor (k + 0)%nat 1000 ltac:(lia) eq_refl) as Hi.
    change (inject_Z 1000) with 1000%Q in Hi. lia.
  - eexists. split; [done|].
    pose proof (Hfloor (k + 3)%nat 100 ltac:(lia) eq_refl) as Hi.
    change (inject_Z 100) with 100%Q in Hi. lia.
  - pose proof (Hfloor (k + 1)%nat 6 ltac:(lia) eq_refl) as Hi.
    change (inject_Z 6) with 6%Q in Hi.
    destruct (categories !! Z.to_nat (floor (times (random rt (k + 1)%nat) 6)))
      as [c|] eqn:E.
    + simpl. by eapply list_elem_of_lookup_2.
    + apply lookup_ge_None in E. change (length categories) with 6%nat in E. lia.
  - pose proof (Hfloor (k + 2)%nat 5 ltac:(lia) eq_refl) as Hi.
    change (inject_Z 5) with 5%Q in Hi.
    destruct (brands !! Z.to_nat (floor (times (random rt (k + 2)%nat) 5)))
      as [c|] eqn:E.
    + simpl. by eapply list_elem_of_lookup_2.
    + apply lookup_ge_None in E. change (length brands) with 5%nat in E. lia.
  - eexists. split; [done|].
    pose proof (Hfloor (k + 5)%nat 500 ltac:(lia) eq_refl) as Hi.
    change (inject_Z 500) with 500%Q in Hi. lia.
Qed.

(** The catalog generated at start-up, and again whenever a request finds
    the catalog empty: when the draws of [Math.random()] are doubles in
    [0, 1), it holds 1000 products; the product at position [i] has the id
    [i + 1] and the name [Product (i + 1)]; every price is an integer from
    10 to 1009, every stock an integer from 0 to 99, every cost price an
    integer from 5 to 504, every category one of the six categories and
    every brand one of the five brands, the products of the draws being
    rounded as the doubles are; the indexes are those of the new products,
    the response cache is empty and [generatedAt] is the time of the
    call. *)
Theorem generated_catalog_shape (rt : Runtime) (s : State) :
  doubleRandom rt →
  let s' := generateProducts rt s in
  length (products s') = 1000%nat
  ∧ (∀ i : nat, (i < 1000)%nat →
       ∃ p, products s' !! i = Some p
            ∧ id p = toString (Z.of_nat i + 1)
            ∧ name p = js "Product " ++ toString (Z.of_nat i + 1))
  ∧ Forall inGeneratedRanges (products s')
  ∧ indexes s' = buildIndexMaps (products s')
  ∧ responseCache s' = ∅
  ∧ generatedAt s' = now rt.
Proof.
  intros Hrt s'.
  assert (Hps : products s' = map setSearchableText (newProducts rt))
    by apply products_generateProducts.
  split_and!.
  - rewrite Hps. unfold newProducts. rewrite !length_map, length_seq. reflexivity.
  - intros i Hi. rewrite Hps. unfold newProducts.
    change (map ?f ?l) with (f <$> l).
    rewrite !list_lookup_fmap, lookup_seq_lt by (change (Z.to_nat PRODUCT_COUNT) with 1000%nat; lia).
    eexists. split; [reflexivity|]. split; reflexivity.
  - rewrite Hps. unfold newProducts. apply Forall_fmap, Forall_fmap, Forall_forall.
    intros j _. apply (generateProduct_ranges rt (7 * j) (Z.of_nat j + 1) Hrt).
  - rewrite Hps. change (indexes s') with (buildIndexMaps (newProducts rt)).
    symmetry. apply buildIndexMaps_setSearchableText.
  - reflexivity.
  - reflexivity.
Qed.

Lemma quietRuntime_unitRandom : unitRandom quietRuntime.
Proof. intros n. simpl. split; lra. Qed.

Lemma multiples_are_doubles (k : nat) :
  (k < 1024)%nat → isDouble (Z.of_nat k # 1024).
Proof.
  intros Hk.
  assert (Hall : forallb (fun j : nat =>
                            Qeq_bool (roundDouble (Z.of_nat j # 1024))
                                     (Z.of_nat j # 1024))
                         (seq 0 1024) = true) by (vm_compute; reflexivity).
  rewrite forallb_forall in Hall. apply Qeq_bool_iff, Hall, in_seq. lia.
Qed.

Lemma variedRuntime_doubleRandom : doubleRandom variedRuntime.
Proof.
  intros n. cbn [random variedRuntime].
  assert (Hk : (n mod 1024 < 1024)%nat) by (apply Nat.mod_upper_bound; lia).
  split; [by apply multiples_are_doubles|].
  unfold Qle, Qlt. cbn [Qnum Qden]. lia.
Qed.

Lemma doubleRandom_unitRandom rt : doubleRandom rt → unitRandom rt.
Proof. intros Hrt n. destruct (Hrt n) as (_ & H0 & H1). by split. Qed.

Lemma variedRuntime_unitRandom : unitRandom variedRuntime.
Proof. apply doubleRandom_unitRandom, variedRuntime_doubleRandom. Qed.

Lemma roundingRuntime_doubleRandom : doubleRandom roundingRuntime.
Proof. intros n. split; [reflexivity|]. split; reflexivity || done. Qed.

Lemma generated_catalog_shape_witness :
  doubleRandom roundingRuntime
  ∧ (price <$> products (initialState roundingRuntime) !! 0%nat) = Some (num 1008)
  ∧ (costPrice <$> products (initialState roundingRuntime) !! 0%nat)
    = Some (num 504)
  ∧ length (products (initialState roundingRuntime)) = 1000%nat
  ∧ Forall inGeneratedRanges (products (initialState roundingRuntime)).
Proof.
  destruct (generated_catalog_shape roundingRuntime emptyState
              roundingRuntime_doubleRandom) as (Hlen & _ & Hranges & _).
  split; [exact roundingRuntime_doubleRandom|].
  split; [reflexivity|]. split; [reflexivity|].
  split; [exact Hlen | exact Hranges].
Defined.

(** ** The numbers of the stored products *)

Lemma generateProduct_validNumbers rt k i :
  unitRandom rt → validNumbers (generateProduct rt k i).
Proof.
  intros Hrt. unfold validNumbers, generateProduct. cbn [price stock]. split.
  - eexists. split; [reflexivity|].
    destruct (Hrt (k + 0)%nat) as [H0 _].
    pose proof (floor_times_nonneg (random rt (k + 0)%nat) 1000 H0 ltac:(lra)) as Hn.
    change 0%Q with (inject_Z 0). rewrite <- Zlt_Qlt. lia.
  - eexists. split; [apply asInteger_num|].
    destruct (Hrt (k + 3)%nat) as [H0 _].
    apply floor_times_nonneg; [exact H0 | lra].
Qed.

Lemma positive_price (x : jsnum) :
  isFinite x = true → numLe x (num 0) = false → ∃ q, x = Finite q ∧ (0 < q)%Q.
Proof.
  destruct x as [q| |]; try done. intros _. unfold numLe, num.
  destruct (q ?= inject_Z 0)%Q eqn:E; try done. intros _.
  exists q. split; [done|]. apply Qgt_alt in E. exact E.
Qed.

Lemma natural_stock (x : jsnum) :
  isInteger x = true → numLt x (num 0) = false →
  ∃ n, asInteger x = Some n ∧ 0 <= n.
Proof.
  unfold isInteger. rewrite bool_decide_eq_true. intros [n Hn] Hlt.
  exists n. split; [done|].
  destruct x as [q| |]; try done. simpl in Hn.
  destruct (Qnum q mod Z.pos (Qden q) =? 0); [|done]. injection Hn as <-.
  unfold numLt, num in Hlt.
  destruct (q ?= inject_Z 0)%Q eqn:E; try done.
  - apply Qeq_alt in E. apply Z.div_pos; [|lia].
    unfold Qeq in E. simpl in E. lia.
  - apply Qgt_alt in E. apply Z.div_pos; [|lia].
    unfold Qlt in E. simpl in E. lia.
Qed.

Section OnNumbers.
Context {V : Type} `{JSValue V}.

Lemma created_validNumbers rt (productData : ProductData V) ps :
  validateProductInput productData false = [] →
  validNumbers (createdProduct rt productData ps).
Proof.
  intros (_ & _ & Hprice & _ & _ & Hstock & _)%validateProductInput_nil.
  destruct (Hprice eq_refl) as [Hfin Hpos].
  destruct (Hstock eq_refl) as [Hint Hnat].
  split; [by apply positive_price | by apply natural_stock].
Qed.

Lemma updated_validNumbers stored (updateData : ProductData V) :
  validNumbers stored → validateProductInput updateData true = [] →
  validNumbers (applyUpdate stored updateData).
Proof.
  intros [Hp Hs] (_ & _ & Hprice & _ & _ & Hstock & _)%validateProductInput_nil.
  unfold validNumbers, applyUpdate. cbn [price stock]. split.
  - destruct (decide (is_Some (data_price updateData))) as [Hsome|Hnone].
    + rewrite bool_decide_eq_true_2 in Hprice |- * by done.
      destruct (Hprice eq_refl) as [Hfin Hpos]. by apply positive_price.
    + rewrite bool_decide_eq_false_2 by done. exact Hp.
  - destruct (decide (is_Some (data_stock updateData))) as [Hsome|Hnone].
    + rewrite bool_decide_eq_true_2 in Hstock |- * by done.
      destruct (Hstock eq_refl) as [Hint Hnat]. by apply natural_stock.
    + rewrite bool_decide_eq_false_2 by done. exact Hs.
Qed.

(** The numbers of the catalog: when the draws of [Math.random()] are in
    [0, 1), every product stored in a state that the router reaches has a
    finite price above 0 and a stock that is an integer from 0 on, whether
    it was generated, created or updated. *)
Theorem stored_numbers_valid (env : AuthEnv) (rt0 : Runtime)
    (calls : list (Runtime * Call V)) :
  unitRandom rt0 → Forall (fun c => unitRandom c.1) calls →
  Forall validNumbers (products (serveCalls env calls (initialState rt0))).
Proof.
  apply (reachable_invariant unitRandom validNumbers).
  - intros rt Hrt. unfold newProducts. apply Forall_fmap, Forall_forall.
    intros j _. by apply generateProduct_validNumbers.
  - intros p Hp. exact Hp.
  - intros rt productData ps _ _ _ _. apply created_validNumbers.
  - apply updated_validNumbers.
Qed.

End OnNumbers.

Lemma stored_numbers_valid_witness :
  let good := Some (js "Bearer good") in
  let calls :=
    [(variedRuntime, PostProduct good lampData);
     (variedRuntime, PutProduct good (js "2") renameData)] in
  let s := serveCalls (V:=json) demoEnv calls (initialState variedRuntime) in
  length (products s) = 1001%nat
  ∧ (price <$> products s !! 1%nat) = Some (num 25)
  ∧ (price <$> products s !! 2%nat) = Some (num 23)
  ∧ (price <$> products s !! 1000%nat) = Some (num 12)
  ∧ Forall validNumbers (products s).
Proof.
  intros good calls s.
  split; [reflexivity|]. split; [reflexivity|]. split; [reflexivity|].
  split; [reflexivity|].
  apply stored_numbers_valid.
  - exact variedRuntime_unitRandom.
  - constructor; [exact variedRuntime_unitRandom|].
    constructor; [exact variedRuntime_unitRandom | constructor].
Defined.


(** ** Sorted responses *)

Lemma compareAscending_strings a b :
  compareAscending (Some (VStr a)) (Some (VStr b))
  = if bool_decide (a = b) then 0 else if strLt b a then 1 else -1.
Proof.
  unfold compareAscending, strictEq, valLt.
  destruct (decide (a = b)) as [->|Hne].
  - by rewrite !bool_decide_eq_true_2.
  - rewrite (bool_decide_eq_false_2 (a = b)) by done.
    rewrite !bool_decide_eq_true_2 by (done || by eexists). simpl.
    destruct (strLt b a) eqn:Hba; [done|]. simpl.
    destruct (strLt a b) eqn:Hab; [done|].
    by destruct Hne; apply strLt_trichotomy.
Qed.

(** The comparison of two strings, as a sign. *)
Lemma compareAscending_strings_sign a b c :
  let cmp x y := compareAscending (Some (VStr x)) (Some (VStr y)) in
  (cmp a b = -1 ∨ cmp a b = 0 ∨ cmp a b = 1)
  ∧ cmp a b = - cmp b a
  ∧ (cmp a b = 0 → a = b)
  ∧ (cmp a b <= 0 → cmp b c <= 0 → cmp a c <= 0).
Proof.
  intros cmp. unfold cmp. rewrite !compareAscending_strings. split_and!.
  - case_bool_decide; [auto|]. destruct (strLt b a); auto.
  - destruct (decide (a = b)) as [->|Hne].
    + by rewrite !bool_decide_eq_true_2.
    + rewrite (bool_decide_eq_false_2 (a = b)), (bool_decide_eq_false_2 (b = a))
        by done.
      destruct (strLt b a) eqn:Hba, (strLt a b) eqn:Hab; try done.
      * by rewrite (strLt_asym b a Hba) in Hab.
      * by destruct Hne; apply strLt_trichotomy.
  - case_bool_decide; [done|]. destruct (strLt b a); lia.
  - destruct (decide (a = b)) as [->|Hab]; [by rewrite bool_decide_eq_true_2|].
    destruct (decide (b = c)) as [->|Hbc]; [by rewrite (bool_decide_eq_true_2 (c = c)) by done|].
    rewrite (bool_decide_eq_false_2 (a = b)), (bool_decide_eq_false_2 (b = c)) by done.
    destruct (strLt b a) eqn:Hba; [lia|]. destruct (strLt c b) eqn:Hcb; [lia|].
    intros _ _.
    assert (Hab' : strLt a b = true).
    { destruct (strLt a b) eqn:E; [done|]. by destruct Hab; apply strLt_trichotomy. }
    assert (Hbc' : strLt b c = true).
    { destruct (strLt b c) eqn:E; [done|]. by destruct Hbc; apply strLt_trichotomy. }
    pose proof (strLt_trans a b c Hab' Hbc') as Hac.
    case_bool_decide; [lia|]. by rewrite (strLt_asym a c Hac).
Qed.

Section SortedByString.
Context (sortBy sortOrder : jsstring).

Lemma compareMultiple_asym_strings (x y : nat * Product) :
  stringKey sortBy x.2 → stringKey sortBy y.2 →
  compareMultiple sortBy sortOrder x y < 0 →
  ¬ compareMultiple sortBy sortOrder y x < 0.
Proof.
  intros [a Ha] [b Hb]. unfold compareMultiple. rewrite Ha, Hb.
  destruct (compareAscending_strings_sign a b a) as (Hv & Hanti & _ & _).
  cbv zeta in *. rewrite Hanti.
  destruct (Z.eqb_spec (- compareAscending (Some (VStr b)) (Some (VStr a))) 0);
    destruct (Z.eqb_spec (compareAscending (Some (VStr b)) (Some (VStr a))) 0);
    try lia; case_bool_decide; lia.
Qed.

Lemma compareMultiple_trans_strings (x y z : nat * Product) :
  stringKey sortBy x.2 → stringKey sortBy y.2 → stringKey sortBy z.2 →
  compareMultiple sortBy sortOrder x y < 0 →
  compareMultiple sortBy sortOrder y z < 0 →
  compareMultiple sortBy sortOrder x z < 0.
Proof.
  intros [a Ha] [b Hb] [c Hc]. unfold compareMultiple. rewrite Ha, Hb, Hc.
  destruct (compareAscending_strings_sign a b c) as (Vab & Aab & Zab & Tabc).
  destruct (compareAscending_strings_sign b c a) as (Vbc & Abc & Zbc & _).
  destruct (compareAscending_strings_sign a c b) as (Vac & Aac & Zac & _).
  destruct (compareAscending_strings_sign c b a) as (_ & _ & _ & Tcba).
  cbv zeta in *.
  destruct (Z.eqb_spec (compareAscending (Some (VStr a)) (Some (VStr b))) 0) as [E1|E1].
  - apply Zab in E1 as ->.
    destruct (Z.eqb_spec (compareAscending (Some (VStr b)) (Some (VStr c))) 0); lia.
  - destruct (Z.eqb_spec (compareAscending (Some (VStr b)) (Some (VStr c))) 0) as [E2|E2].
    + apply Zbc in E2 as ->.
      destruct (Z.eqb_spec (compareAscending (Some (VStr a)) (Some (VStr c))) 0); lia.
    + destruct (Z.eqb_spec (compareAscending (Some (VStr a)) (Some (VStr c))) 0) as [E3|E3].
      * apply Zac in E3 as ->. case_bool_decide; lia.
      * case_bool_decide; lia.
Qed.

Lemma inOrder_keyOrdered_strings (x y : nat * Product) :
  stringKey sortBy x.2 → stringKey sortBy y.2 →
  inOrder (compareMultiple sortBy sortOrder) x y →
  keyOrdered sortBy sortOrder x.2 y.2.
Proof.
  intros [a Ha] [b Hb]. unfold inOrder, keyOrdered, compareMultiple.
  rewrite Ha, Hb.
  destruct (compareAscending_strings_sign a b a) as (Hv & Hanti & _ & _).
  cbv zeta in *. rewrite Hanti.
  destruct (Z.eqb_spec (compareAscending (Some (VStr b)) (Some (VStr a))) 0);
    case_bool_decide; lia.
Qed.

Lemma withIndex_Forall (D : Product → Prop) (l : list Product) :
  Forall D l → Forall (fun x : nat * Product => D x.2) (withIndex l).
Proof.
  intros Hl. apply Forall_forall. intros x [k Hk]%list_elem_of_lookup.
  unfold withIndex in Hk. rewrite list_lookup_imap in Hk.
  apply fmap_Some in Hk as (p & Hp & ->). simpl.
  rewrite Forall_forall in Hl. apply Hl. by eapply list_elem_of_lookup_2.
Qed.

Lemma orderBy_sorted_strings (l : list Product) :
  Forall (stringKey sortBy) l →
  StronglySorted (keyOrdered sortBy sortOrder) (orderBy l sortBy sortOrder).
Proof.
  intros Hl. unfold orderBy.
  pose proof (withIndex_Forall _ l Hl) as Hd.
  apply (StronglySorted_map snd (fun x : nat * Product => stringKey sortBy x.2)
           (inOrder (compareMultiple sortBy sortOrder))).
  - apply inOrder_keyOrdered_strings.
  - rewrite Forall_forall in Hd |- *. intros x Hx. apply Hd.
    by rewrite sortWith_perm in Hx.
  - apply (sortWith_sorted _ (fun x : nat * Product => stringKey sortBy x.2));
      [apply compareMultiple_asym_strings | apply compareMultiple_trans_strings
      | done].
Qed.

Lemma orderBy_sorted_numbers (l : list Product) :
  Forall (finiteKey sortBy) l →
  StronglySorted (keyOrdered sortBy sortOrder) (orderBy l sortBy sortOrder).
Proof.
  intros Hl. unfold orderBy.
  pose proof (withIndex_Forall _ l Hl) as Hd.
  apply (StronglySorted_map snd (fun x : nat * Product => finiteKey sortBy x.2)
           (inOrder (compareMultiple sortBy sortOrder))).
  - apply inOrder_keyOrdered.
  - rewrite Forall_forall in Hd |- *. intros x Hx. apply Hd.
    by rewrite sortWith_perm in Hx.
  - apply (sortWith_sorted _ (fun x : nat * Product => finiteKey sortBy x.2));
      [apply compareMultiple_asym | apply compareMultiple_trans | done].
Qed.

End SortedByString.

Lemma StronglySorted_sublist {A} (R : A → A → Prop) (l1 l2 : list A) :
  sublist l1 l2 → StronglySorted R l2 → StronglySorted R l1.
Proof.
  induction 1 as [|x l1 l2 Hsub IH|x l1 l2 Hsub IH]; intros Hs; [done|..].
  - apply StronglySorted_inv in Hs as [Hs Hx]. constructor; [by apply IH|].
    rewrite Forall_forall in Hx |- *. intros y Hy. apply Hx.
    by eapply elem_of_sublist.
  - apply StronglySorted_inv in Hs as [Hs _]. by apply IH.
Qed.

Lemma publicFieldValue_toPublicProduct sortBy p :
  publicFieldValue sortBy (toPublicProduct p) = fieldValue sortBy p.
Proof. reflexivity. Qed.

Lemma keyOrdered_inSortOrder sortBy sortOrder a b :
  (finiteKey sortBy a ∧ finiteKey sortBy b)
  ∨ (stringKey sortBy a ∧ stringKey sortBy b) →
  keyOrdered sortBy sortOrder a b →
  inSortOrder sortBy sortOrder (toPublicProduct a) (toPublicProduct b).
Proof.
  unfold keyOrdered, inSortOrder. rewrite !publicFieldValue_toPublicProduct.
  intros [[[x Hx] [y Hy]] | [[x Hx] [y Hy]]]; rewrite Hx, Hy.
  - rewrite compareAscending_finite. unfold keyLe.
    destruct (x ?= y)%Q eqn:E; compare_cases; case_bool_decide; intros; try lia; lra.
  - rewrite compareAscending_strings. unfold keyLe.
    destruct (decide (x = y)) as [->|Hne].
    + intros _. case_bool_decide; apply strLt_irrefl.
    + rewrite (bool_decide_eq_false_2 (x = y)) by done.
      destruct (strLt y x) eqn:Hyx.
      * case_bool_decide; [|lia]. intros _. by apply strLt_asym.
      * case_bool_decide; [lia | done].
Qed.

Lemma sortKey_kind sortBy p :
  sortBy ∈ ALLOWED_SORT_FIELDS → sortBy ≠ js "rating" → validNumbers p →
  (sortBy = js "price" ∨ sortBy = js "stock") ∧ finiteKey sortBy p
  ∨ stringKey sortBy p.
Proof.
  intros Hin Hrating [(x & Hx & _) (n & Hn & _)].
  unfold ALLOWED_SORT_FIELDS in Hin.
  repeat (apply elem_of_cons in Hin as [->|Hin]); try done.
  - right. by eexists.
  - left. split; [auto|]. exists x. unfold fieldValue. simpl. by rewrite Hx.
  - right. by eexists.
  - right. by eexists.
  - left. split; [auto|]. destruct (stock p) as [y| |] eqn:E; try done.
    exists y. unfold fieldValue. simpl. by rewrite E.
  - right. by eexists.
  - by apply elem_of_nil in Hin.
Qed.

Lemma parseListQuery_sortBy q : sortBy (parseListQuery q) ∈ ALLOWED_SORT_FIELDS.
Proof.
  unfold parseListQuery. cbn [sortBy].
  destruct (rawSortBy q) as [f|]; [case_bool_decide; [done|]|];
    unfold ALLOWED_SORT_FIELDS; left.
Qed.

Lemma sortProducts_sorted p l :
  sortBy p ∈ ALLOWED_SORT_FIELDS → sortBy p ≠ js "rating" →
  Forall validNumbers l →
  StronglySorted (inSortOrder (sortBy p) (sortOrder p))
                 (map toPublicProduct (sortProducts p l)).
Proof.
  intros Hin Hrating Hl.
  assert (Hkind : Forall (finiteKey (sortBy p)) l ∨ Forall (stringKey (sortBy p)) l).
  { destruct l as [|a l]; [left; constructor|].
    destruct (sortKey_kind (sortBy p) a Hin Hrating (Forall_inv Hl))
      as [[Hnum _]|Hstr].
    - left. apply Forall_forall. intros x Hx. rewrite Forall_forall in Hl.
      destruct (sortKey_kind (sortBy p) x Hin Hrating (Hl x Hx)) as [[_ ?]|[t Ht]];
        [done|].
      exfalso. unfold fieldValue in Ht.
      destruct Hnum as [E|E]; rewrite E in Ht; simpl in Ht; done.
    - right. apply Forall_forall. intros x Hx. rewrite Forall_forall in Hl.
      destruct (sortKey_kind (sortBy p) x Hin Hrating (Hl x Hx)) as [[Hnum _]|?];
        [|done].
      exfalso. destruct Hstr as [t Ht]. unfold fieldValue in Ht.
      destruct Hnum as [E|E]; rewrite E in Ht; simpl in Ht; done. }
  assert (Hkind' : Forall (fun x => finiteKey (sortBy p) x) (sortProducts p l)
                   ∨ Forall (fun x => stringKey (sortBy p) x) (sortProducts p l)).
  { destruct Hkind as [Hk|Hk]; [left|right];
      rewrite Forall_forall in Hk |- *; intros x Hx; apply Hk;
      by rewrite sortProducts_perm in Hx. }
  assert (Hsorted : StronglySorted (keyOrdered (sortBy p) (sortOrder p))
                                   (sortProducts p l)).
  { unfold sortProducts. destruct (Z.ltb_spec 1 (Z.of_nat (length l))) as [Hlong|Hshort].
    - destruct Hkind; [by apply orderBy_sorted_numbers | by apply orderBy_sorted_strings].
    - destruct l as [|a [|b l]]; [constructor | repeat constructor | simpl in Hshort; lia]. }
  clear Hkind. revert Hkind'. induction Hsorted as [|a r Hr IH Ha]; intros Hkind.
  - constructor.
  - simpl. constructor.
    + apply IH. destruct Hkind as [Hk|Hk]; [left|right]; by apply Forall_inv_tail in Hk.
    + apply Forall_fmap, Forall_forall. intros b Hb. simpl.
      rewrite Forall_forall in Ha. apply keyOrdered_inSortOrder; [|by apply Ha].
      destruct Hkind as [Hk|Hk]; [left|right]; rewrite Forall_forall in Hk;
        (split; apply Hk; [left | by right]).
Qed.

Section OnSortedResponses.
Context {V : Type} `{JSValue V}.

Lemma reachable_validNumbers env rt0 (calls : list (Runtime * Call V)) :
  unitRandom rt0 → Forall (fun c => unitRandom c.1) calls →
  Forall validNumbers (products (serveCalls env calls (initialState rt0))).
Proof.
  apply (reachable_invariant unitRandom validNumbers).
  - intros rt Hrt. unfold newProducts. apply Forall_fmap, Forall_forall.
    intros j _. by apply generateProduct_validNumbers.
  - intros p Hp. exact Hp.
  - intros rt productData ps _ _ _ _. apply created_validNumbers.
  - apply updated_validNumbers.
Qed.

(** Sorted responses: when the draws of [Math.random()] are in [0, 1),
    in every state that the router reaches, the products of a list response
    are in the order of the sort field, ascending or, for
    [sortOrder=desc], descending: by value for [price] and [stock], by code
    units for [name], [category], [brand] and [createdAt].  (The field
    [rating] is left out: it is a string for generated products and the
    number 0 for created ones.) *)
Theorem list_response_sorted (env : AuthEnv) (rt0 rt : Runtime)
    (calls : list (Runtime * Call V)) (q : ListQuery) :
  unitRandom rt0 → Forall (fun c => unitRandom c.1) calls → unitRandom rt →
  let s := serveCalls env calls (initialState rt0) in
  let p := parseListQuery q in
  sortBy p ≠ js "rating" →
  StronglySorted (inSortOrder (sortBy p) (sortOrder p))
                 (responseProducts (listProducts rt q s).2).
Proof.
  intros Hrt0 Hcalls Hrt s p Hrating.
  pose proof (reachable_calls_wellFormed env rt0 calls) as Hs. fold s in Hs.
  pose proof (reachable_validNumbers env rt0 calls Hrt0 Hcalls) as Hnum.
  fold s in Hnum.
  assert (Hnum1 : Forall validNumbers (products (ensureProductsFresh rt s))).
  { unfold ensureProductsFresh. case_bool_decide; [|done].
    rewrite products_generateProducts. apply Forall_fmap, Forall_fmap, Forall_forall.
    intros j _. by apply generateProduct_validNumbers. }
  destruct (listProducts_response rt q s Hs) as (rt' & fp & Hsel & Hresp).
  fold p in Hsel, Hresp.
  pose proof (ensureProductsFresh_wellFormed rt s Hs) as (Hix & _ & _).
  destruct (selectProducts_total _ _ (search p) (categoryFilter p) Hix)
    as (fp' & Hsel' & Hfp).
  rewrite Hsel in Hsel'. injection Hsel' as <-.
  rewrite Hresp. unfold responseProducts. cbn [body responsePayload payloadProducts].
  assert (Hsorted : StronglySorted (inSortOrder (sortBy p) (sortOrder p))
                      (map toPublicProduct (sortProducts p fp))).
  { apply sortProducts_sorted; [apply parseListQuery_sortBy | done |].
    rewrite Forall_forall in Hfp, Hnum1 |- *. intros x Hx. by apply Hnum1, Hfp. }
  eapply StronglySorted_sublist; [|exact Hsorted].
  apply (fmap_sublist toPublicProduct). unfold slice.
  etrans; [apply sublist_take | apply sublist_drop].
Qed.

End OnSortedResponses.

Lemma list_response_sorted_witness :
  let q := {| rawPage := num 1; rawLimit := num 5; rawSearch := [];
              rawCategory := []; rawSortBy := Some (js "price");
              rawSortOrder := Some (js "desc") |} in
  let response := (listProducts variedRuntime q (initialState variedRuntime)).2 in
  map pub_price (responseProducts response)
  = [num 1009; num 1008; num 1007; num 1006; num 1005]
  ∧ StronglySorted (inSortOrder (js "price") (js "desc"))
                   (responseProducts response).
Proof.
  intros q response. split.
  - assert (Hok : status (listProducts variedRuntime q (initialState variedRuntime)).2
                  = 200) by reflexivity.
    assert (Hmiss : (getCachedResponse (getCacheKey (paramObject (parseListQuery q)))
                       (now variedRuntime)
                       (responseCache (ensureProductsFresh variedRuntime
                                         (initialState variedRuntime)))).1 = None)
      by reflexivity.
    destruct (listProducts_computed variedRuntime q (initialState variedRuntime)
                Hok Hmiss) as (filteredProducts & Hselect & Hlist).
    assert (Hall : selectProducts
                     (ensureProductsFresh variedRuntime (initialState variedRuntime))
                     (search (parseListQuery q)) (categoryFilter (parseListQuery q))
                   = Some (map setSearchableText (newProducts variedRuntime)))
      by reflexivity.
    assert (Hsame : filteredProducts = map setSearchableText (newProducts variedRuntime)).
    { assert (Hsome : Some filteredProducts
                      = Some (map setSearchableText (newProducts variedRuntime)))
        by exact (eq_trans (eq_sym Hselect) Hall).
      by injection Hsome. }
    unfold response. rewrite Hlist, Hsame.
    unfold responseProducts. cbn [snd body].
    rewrite responsePayload_products.
    vm_compute. reflexivity.
  - apply (list_response_sorted (V:=json) noSecret variedRuntime variedRuntime [] q).
    + exact variedRuntime_unitRandom.
    + constructor.
    + exact variedRuntime_unitRandom.
    + vm_compute. intros E. discriminate E.
Defined.


(** ** Escaped texts *)

Lemma escapeHtmlChar_markupFree c : markupFree (escapeHtmlChar c).
Proof.
  unfold escapeHtmlChar.
  repeat (match goal with
          | |- context [(?n =? ?m)%N] => destruct (N.eqb_spec n m) as [?|?]
          end; [by repeat constructor|]).
  repeat constructor. unfold isMarkup. apply bool_decide_eq_false_2.
  rewrite !elem_of_cons, elem_of_nil. intros [?|[?|[?|[?|[?|[?|[?|[]]]]]]]]; done.
Qed.

Lemma escape_markupFree s : markupFree (escape s).
Proof.
  unfold escape, markupFree. induction s as [|c s IH]; [constructor|].
  simpl. apply Forall_app. split; [apply escapeHtmlChar_markupFree | exact IH].
Qed.

Lemma toString_markupFree z : markupFree (toString z).
Proof.
  destruct (toString_chars z) as [Hchars _].
  eapply Forall_impl; [exact Hchars|]. intros c [[v Hv] | ->]; [|done].
  unfold digitValue in Hv. unfold isMarkup.
  destruct (_ && _)%bool eqn:E in Hv; [|done].
  apply andb_true_iff in E as [E1%N.leb_le E2%N.leb_le].
  apply bool_decide_eq_false_2.
  rewrite !elem_of_cons, elem_of_nil. intros [?|[?|[?|[?|[?|[?|[?|[]]]]]]]]; lia.
Qed.

Lemma markupFree_app a b : markupFree a → markupFree b → markupFree (a ++ b).
Proof. intros Ha Hb. apply Forall_app. done. Qed.

Lemma markupFree_literal (s : string) :
  forallb (fun c => negb (isMarkup c)) (js s) = true → markupFree (js s).
Proof.
  intros Hs. apply Forall_forall. intros c Hc%list_elem_of_In.
  rewrite forallb_forall in Hs. by apply negb_true_iff, Hs.
Qed.

Lemma markupFree_choice (l : list jsstring) k :
  Forall markupFree l → markupFree (default [] (l !! k)).
Proof.
  intros Hl. destruct (l !! k) as [x|] eqn:E; [|constructor].
  by apply (Forall_lookup_1 _ _ _ _ Hl E).
Qed.

Lemma generateProduct_textsEscaped rt k i : textsEscaped (generateProduct rt k i).
Proof.
  unfold textsEscaped, generateProduct. cbn [name description category brand tags].
  split_and!.
  - apply markupFree_app; [by apply markupFree_literal | apply toString_markupFree].
  - repeat apply markupFree_app; try apply toString_markupFree;
      by apply markupFree_literal.
  - apply markupFree_choice. unfold categories.
    repeat constructor; by apply markupFree_literal.
  - apply markupFree_choice. unfold brands.
    repeat constructor; by apply markupFree_literal.
  - constructor; [|constructor; [|constructor]];
      (apply markupFree_app; [by apply markupFree_literal | apply toString_markupFree]).
Qed.

Section OnEscaping.
Context {V : Type} `{JSValue V}.

Lemma sanitizeText_markupFree (value : option V) : markupFree (sanitizeText value).
Proof. apply escape_markupFree. Qed.

Lemma sanitizeTags_markupFree (t : option V) : Forall markupFree (sanitizeTags t).
Proof.
  unfold sanitizeTags. destruct (t ≫= arrayElements) as [elements|]; [|constructor].
  apply Forall_fmap, Forall_forall. intros e _. apply sanitizeText_markupFree.
Qed.

(** Escaped texts: in every state that the router reaches, the name, the
    description, the category, the brand and the tags of every stored
    product hold no quotation mark (double or single), slash, angle
    bracket, backslash or backtick: the generated texts have none, and the
    create and update handlers store texts only after [validator.escape]. *)
Theorem stored_texts_escaped (env : AuthEnv) (rt0 : Runtime)
    (calls : list (Runtime * Call V)) :
  Forall textsEscaped (products (serveCalls env calls (initialState rt0))).
Proof.
  apply (reachable_invariant (fun _ => True) textsEscaped); try done.
  - intros rt _. unfold newProducts. apply Forall_fmap, Forall_forall.
    intros j _. apply generateProduct_textsEscaped.
  - intros rt productData ps _ _ _ _ _. unfold textsEscaped, createdProduct.
    cbn [name description category brand tags].
    split_and!; try apply sanitizeText_markupFree. apply sanitizeTags_markupFree.
  - intros stored updateData (Hn & Hd & Hc & Hb & Ht) _.
    unfold textsEscaped, applyUpdate. cbn [name description category brand tags].
    split_and!; case_bool_decide; try done; try apply sanitizeText_markupFree.
    apply sanitizeTags_markupFree.
  - by apply Forall_forall.
Qed.

End OnEscaping.

(** ** The id of a created product *)

Lemma foldr_max_spec n ns :
  foldr Z.max n ns ∈ n :: ns ∧ ∀ m, m ∈ n :: ns → m <= foldr Z.max n ns.
Proof.
  induction ns as [|a ns [Hin Hmax]]; simpl.
  - split; [left|]. by intros m ->%list_elem_of_singleton.
  - split.
    + destruct (Z.max_spec a (foldr Z.max n ns)) as [[_ ->]|[_ ->]].
      * apply elem_of_cons in Hin as [Hin|Hin]; [rewrite Hin; left|].
        right. by right.
      * right. left.
    + intros m [->|[->|Hm]%elem_of_cons]%elem_of_cons.
      * specialize (Hmax n (list_elem_of_here _ _)). lia.
      * lia.
      * specialize (Hmax m (list_elem_of_further _ _ _ Hm)). lia.
Qed.

Section OnIdentifiers.
Context {V : Type} `{JSValue V}.

(** The next id: in every state that the router reaches, a create that is
    answered 201 gives the new product the decimal form of [m], where
    [m - 1] is the largest id that a stored product carries: every stored id
    is the decimal form of an integer from 1 to [m - 1], and [m - 1] is one
    of them.  (An id is thus given again when the product with the largest
    id has been deleted.) *)
Theorem created_id_is_next (env : AuthEnv) (rt0 rt : Runtime)
    (calls : list (Runtime * Call V)) (productData : ProductData V) :
  let s := serveCalls env calls (initialState rt0) in
  let s1 := ensureProductsFresh rt s in
  let result := createProduct rt productData s in
  status result.2 = 201 →
  ∃ m stored,
    body result.2
    = MutationBody (js "Product created successfully")
                   (Some (toPublicProduct stored))
    ∧ id stored = toString m
    ∧ (∀ p, p ∈ products s1 → ∃ n, id p = toString n ∧ 1 <= n < m)
    ∧ (∃ p, p ∈ products s1 ∧ id p = toString (m - 1)).
Proof.
  intros s s1 result Hok.
  pose proof (reachable_calls_wellFormed env rt0 calls) as Hs. fold s in Hs.
  pose proof (reachable_positiveIds env rt0 calls) as Hpos. fold s in Hpos.
  pose proof (ensureProductsFresh_wellFormed rt s Hs) as (_ & Hcan & _).
  pose proof (positiveId_fresh rt s Hpos) as Hpos1.
  pose proof (ensureProductsFresh_nonempty rt s) as Hne.
  fold s1 in Hcan, Hpos1, Hne.
  pose proof (createProduct_validated _ _ _ Hok) as Hv.
  pose proof (createProduct_accepts rt productData s Hv) as Hres.
  fold s1 result in Hres.
  destruct (canonicalIds_parse _ Hcan) as (ns & Hns & Hall).
  destruct Hall as [|p0 n0 ps ns [Hn0 Hp0] Hall]; [done|].
  destruct (foldr_max_spec n0 ns) as [Hin Hmax].
  set (top := foldr Z.max n0 ns) in *.
  assert (Hbelow : ∀ p, p ∈ p0 :: ps → ∃ n, n ∈ n0 :: ns ∧ id p = toString n).
  { intros p [->|Hp]%elem_of_cons; [exists n0; split; [left|done]|].
    apply list_elem_of_lookup in Hp as [i Hi].
    destruct (Forall2_lookup_l _ _ _ _ _ Hall Hi) as (n & Hn & _ & Hid).
    exists n. split; [|done]. right. by eapply list_elem_of_lookup_2. }
  assert (Habove : ∀ n, n ∈ n0 :: ns → ∃ p, p ∈ p0 :: ps ∧ id p = toString n).
  { intros n [->|Hn]%elem_of_cons; [exists p0; split; [left|done]|].
    apply list_elem_of_lookup in Hn as [i Hi].
    destruct (Forall2_lookup_r _ _ _ _ _ Hall Hi) as (p & Hp & _ & Hid).
    exists p. split; [|done]. right. by eapply list_elem_of_lookup_2. }
  exists (top + 1), (createdProduct rt productData (p0 :: ps)). split_and!.
  - by rewrite Hres.
  - unfold createdProduct, newId. cbn [id]. by rewrite Hns.
  - intros p Hp. destruct (Hbelow p Hp) as (n & Hn & Hid).
    exists n. split; [done|]. specialize (Hmax n Hn).
    rewrite Forall_forall in Hpos1. destruct (Hpos1 p Hp) as (n' & Hn' & Hid').
    rewrite Hid in Hid'. apply toString_inj in Hid' as <-. lia.
  - replace (top + 1 - 1) with top by lia. by apply Habove.
Qed.

End OnIdentifiers.


Lemma created_id_is_next_witness :
  ∃ m stored,
    body (createProduct quietRuntime lampData (initialState quietRuntime)).2
    = MutationBody (js "Product created successfully")
                   (Some (toPublicProduct stored))
    ∧ id stored = toString m.
Proof.
  assert (Hok : status (createProduct quietRuntime lampData
                          (serveCalls noSecret [] (initialState quietRuntime))).2
                = 201) by reflexivity.
  destruct (created_id_is_next (V:=json) noSecret quietRuntime quietRuntime []
              lampData Hok) as (m & stored & Hbody & Hid & _).
  exists m, stored. split; [exact Hbody | exact Hid].
Defined.


(** * The middleware *)

(** ** Splitting the header *)

Lemma splitOn_none sep cur s :
  sep ∉ s → splitOn sep cur s = [rev cur ++ s].
Proof.
  revert cur. induction s as [|c s IH]; intros cur Hs; simpl.
  - by rewrite app_nil_r.
  - apply not_elem_of_cons in Hs as [Hc Hs].
    rewrite bool_decide_eq_false_2 by done. rewrite IH by done.
    simpl. by rewrite <- app_assoc.
Qed.

Lemma splitOn_app sep cur a b :
  sep ∉ a →
  splitOn sep cur (a ++ sep :: b) = (rev cur ++ a) :: splitOn sep [] b.
Proof.
  revert cur. induction a as [|c a IH]; intros cur Ha; simpl.
  - rewrite bool_decide_eq_true_2 by done. by rewrite app_nil_r.
  - apply not_elem_of_cons in Ha as [Hc Ha].
    rewrite bool_decide_eq_false_2 by done. rewrite IH by done.
    simpl. by rewrite <- app_assoc.
Qed.

(** Splitting and joining again gives the text back. *)
Lemma joinWith_splitOn sep cur s :
  joinWith [sep] (splitOn sep cur s) = rev cur ++ s.
Proof.
  revert cur. induction s as [|c s IH]; intros cur; simpl.
  - by rewrite app_nil_r.
  - case_bool_decide as Hc.
    + subst c. specialize (IH []). simpl in IH.
      destruct (splitOn sep [] s) as [|x l] eqn:E.
      * by destruct s; simpl in E; try case_bool_decide.
      * change (joinWith [sep] (rev cur :: x :: l))
          with (rev cur ++ [sep] ++ joinWith [sep] (x :: l)).
        by rewrite IH.
    + rewrite IH. simpl. by rewrite <- app_assoc.
Qed.

Lemma elem_of_rev {A} (x : A) (l : list A) : x ∈ rev l ↔ x ∈ l.
Proof. rewrite !list_elem_of_In. symmetry. apply in_rev. Qed.

(** No piece holds the separator. *)
Lemma splitOn_pieces sep cur s :
  sep ∉ cur → Forall (fun piece => sep ∉ piece) (splitOn sep cur s).
Proof.
  revert cur. induction s as [|c s IH]; intros cur Hcur; simpl.
  - constructor; [|constructor]. by rewrite elem_of_rev.
  - case_bool_decide as Hc.
    + constructor; [by rewrite elem_of_rev|]. apply IH, not_elem_of_nil.
    + apply IH. apply not_elem_of_cons. split; [congruence | done].
Qed.

(** The token of a request: [getTokenFromRequest] yields a token exactly
    when the header is [Bearer], one space and the token, a non-empty text
    without space, followed by nothing or by a space and any text. *)
Theorem bearer_token_extracted (authorization : option jsstring)
    (token : jsstring) :
  getTokenFromRequest authorization = Some token
  ↔ ∃ rest, authorization = Some (js "Bearer " ++ token ++ rest)
            ∧ token ≠ [] ∧ (space ∉ token)
            ∧ (rest = [] ∨ ∃ r, rest = space :: r).
Proof.
  unfold getTokenFromRequest. split.
  - destruct authorization as [h|]; [|done]. simpl.
    pose proof (joinWith_splitOn space [] h) as Hjoin.
    change (rev [] ++ h) with h in Hjoin.
    pose proof (splitOn_pieces space [] h (not_elem_of_nil _)) as Hpieces.
    destruct (splitOn space [] h) as [|scheme [|tok others]]; try done.
    simpl. case_bool_decide as Hscheme; [done|].
    case_bool_decide as Htok; [done|]. intros [= ->].
    subst scheme.
    apply Forall_inv_tail, Forall_inv in Hpieces.
    destruct others as [|o others].
    + exists []. rewrite app_nil_r. split_and!; try done; [|by left].
      by rewrite <- Hjoin.
    + exists (space :: joinWith [space] (o :: others)).
      split_and!; try done; [|right; by eexists].
      by rewrite <- Hjoin.
  - intros (rest & -> & Hne & Hspace & Hrest). simpl.
    destruct Hrest as [->|[r ->]].
    + rewrite app_nil_r, splitOn_none by done. simpl.
      by rewrite bool_decide_eq_false_2.
    + rewrite splitOn_app by done. simpl.
      by rewrite bool_decide_eq_false_2.
Qed.

(** ** Who passes *)

Lemma isTheString_admin v : isTheString v (js "admin") = true → v = JString (js "admin").
Proof.
  destruct v; try done. simpl. by intros ->%bool_decide_eq_true.
Qed.

(** A request that [requireAdmin] answers itself gets 401, 403 or 500. *)
Lemma requireAdmin_refusal (env : AuthEnv) (authorization : option jsstring)
    (response : Response) :
  requireAdmin env authorization = inl response →
  status response = 401 ∨ status response = 403 ∨ status response = 500.
Proof.
  unfold requireAdmin, authenticate.
  destruct (getTokenFromRequest authorization) as [token|];
    [|intros [= <-]; by left].
  case_bool_decide; [intros [= <-]; by right; right|].
  destruct (verify env token (JWT_SECRET env)) as [payload|];
    [|intros [= <-]; by left].
  destruct (falsy _); [intros [= <-]; by left|].
  destruct (negb _); [intros [= <-]; by right; left | done].
Qed.

(** The administrator check: [requireAdmin] calls [next] only for a header
    with a bearer token that [jwt.verify] accepts under a secret that is
    set, whose payload has a truthy [sub] or [id] and the role [admin];
    every other request is answered 401 (no token, a token that does not
    verify, no user id), 500 (a token, and no secret set) or 403 (a
    verified user who is not an administrator, which includes a payload
    without role). *)
Theorem requireAdmin_passes (env : AuthEnv) (authorization : option jsstring) :
  match requireAdmin env authorization with
  | inr user =>
      ∃ token payload,
        getTokenFromRequest authorization = Some token
        ∧ JWT_SECRET env ≠ []
        ∧ verify env token (JWT_SECRET env) = Some payload
        ∧ token_role payload = Some (JString (js "admin"))
        ∧ user_role user = JString (js "admin")
        ∧ user_id user = orElse (token_sub payload) (token_id payload)
        ∧ falsy (user_id user) = false
  | inl response =>
      status response = 401
      ∨ (status response = 500 ∧ JWT_SECRET env = []
         ∧ is_Some (getTokenFromRequest authorization))
      ∨ (status response = 403
         ∧ ∃ token payload,
             getTokenFromRequest authorization = Some token
             ∧ verify env token (JWT_SECRET env) = Some payload
             ∧ token_role payload ≠ Some (JString (js "admin")))
  end.
Proof.
  unfold requireAdmin, authenticate.
  destruct (getTokenFromRequest authorization) as [token|];
    [|left; reflexivity].
  case_bool_decide as Hsecret;
    [right; left; split_and!; [reflexivity | done | by eexists]|].
  destruct (verify env token (JWT_SECRET env)) as [payload|] eqn:Hverify;
    [|left; reflexivity].
  cbn [user_id user_role].
  destruct (falsy (orElse (token_sub payload) (token_id payload))) eqn:Hid;
    [left; reflexivity|].
  cbn [user_role].
  destruct (isTheString _ _) eqn:Hrole; cbn [negb].
  - apply isTheString_admin in Hrole.
    exists token, payload. split_and!; try done.
    unfold orElse in Hrole. destruct (token_role payload) as [r|]; [|done].
    simpl in Hrole. destruct (negb _); simpl in Hrole; [discriminate Hrole|].
    by rewrite Hrole.
  - right. right. split; [done|].
    exists token, payload. split_and!; try done. intros Heq.
    rewrite Heq in Hrole. done.
Qed.

Section OnAuthorization.
Context {V : Type} `{JSValue V}.

Lemma router_refused env rt (c : Call V) s :
  isAdminRoute c = true → authorized env c = false →
  ∃ response, router env rt c s = (s, Answer response)
              ∧ (status response = 401 ∨ status response = 403
                 ∨ status response = 500).
Proof.
  intros Hroute Hauth.
  assert (Hgen : ∀ authorization handler,
            match requireAdmin env authorization with
            | inr _ => true | inl _ => false end = false →
            ∃ response, adminRoute env authorization handler s = (s, Answer response)
              ∧ (status response = 401 ∨ status response = 403
                 ∨ status response = 500)).
  { intros authorization handler Hno. unfold adminRoute.
    destruct (requireAdmin env authorization) as [response|user] eqn:Hreq; [|done].
    exists response. split; [done|]. by apply (requireAdmin_refusal env authorization). }
  destruct c; try done; simpl in *; by apply Hgen.
Qed.

Lemma router_read_only env rt (c : Call V) s :
  products s ≠ [] → authorized env c = false →
  products (router env rt c s).1 = products s
  ∧ indexes (router env rt c s).1 = indexes s.
Proof.
  intros Hne Hauth. destruct (isAdminRoute c) eqn:Hroute.
  - destruct (router_refused env rt c s Hroute Hauth) as (r & -> & _). done.
  - destruct c; try done; simpl.
    + destruct (listProducts_state rt q s) as [Hp Hi].
      rewrite (ensureProductsFresh_same rt s Hne) in Hp, Hi.
      by destruct (listProducts rt q s).
    + by rewrite (ensureProductsFresh_same rt s Hne).
    + pose proof (getProduct_state rt productId s) as Hst.
      rewrite (ensureProductsFresh_same rt s Hne) in Hst.
      destruct (getProduct rt productId s). simpl in Hst. by subst.
Qed.

(** No change without an administrator: a call to a route that changes the
    catalog whose header [requireAdmin] does not let through is answered
    401, 403 or 500 and leaves the whole state as it is, the response cache
    included; and a sequence of calls none of which is an authorized call to
    such a route leaves the products and the indexes of a non-empty catalog
    as they are. *)
Theorem no_change_without_admin (env : AuthEnv) (s : State) :
  (∀ rt (c : Call V),
     isAdminRoute c = true → authorized env c = false →
     ∃ response, router env rt c s = (s, Answer response)
                 ∧ (status response = 401 ∨ status response = 403
                    ∨ status response = 500))
  ∧ (∀ calls : list (Runtime * Call V),
       products s ≠ [] →
       Forall (fun c => authorized env c.2 = false) calls →
       products (serveCalls env calls s) = products s
       ∧ indexes (serveCalls env calls s) = indexes s).
Proof.
  split.
  - intros rt c. apply router_refused.
  - intros calls. revert s. induction calls as [|[rt c] calls IH]; intros s Hne Hall;
      [done|].
    apply Forall_cons in Hall as [Hc Hall]. simpl in Hc.
    destruct (router_read_only env rt c s Hne Hc) as [Hp Hi].
    simpl. destruct (IH (router env rt c s).1) as [Hp' Hi']; [by rewrite Hp | done |].
    by rewrite Hp', Hi'.
Qed.

End OnAuthorization.

Lemma no_change_without_admin_witness :
  let s := initialState quietRuntime in
  let refused := DeleteProductById (V:=json) (Some (js "Bearer plain")) (js "1") in
  let calls :=
    [(quietRuntime, refused);
     (quietRuntime, PostProduct None lampData);
     (quietRuntime, PutProduct (Some (js "Bearer forged")) (js "2") renameData);
     (quietRuntime, GetProductById (js "1"))] in
  replyStatus (router demoEnv quietRuntime refused s).2 = 403
  ∧ (∃ response,
       router demoEnv quietRuntime refused s = (s, Answer response)
       ∧ (status response = 401 ∨ status response = 403 ∨ status response = 500))
  ∧ products (serveCalls demoEnv calls s) = products s
  ∧ indexes (serveCalls demoEnv calls s) = indexes s.
Proof.
  intros s refused calls.
  destruct (no_change_without_admin (V:=json) demoEnv s) as [Hrefused Hcalls].
  split; [reflexivity|].
  split; [exact (Hrefused quietRuntime refused eq_refl eq_refl)|].
  apply (Hcalls calls).
  - unfold s, initialState. apply generateProducts_nonempty.
  - repeat (constructor; [reflexivity|]). constructor.
Defined.


(** * The rate limit *)

Lemma rateLimit_other now key other m :
  other ≠ key → (rateLimit now other m).1 !! key = m !! key.
Proof. intros Hne. unfold rateLimit. simpl. by rewrite lookup_insert_ne. Qed.

Lemma rateLimit_fresh now key m :
  m !! key = None →
  rateLimit now key m = (<[key := {| count := 1; start := now |}]> m, true).
Proof.
  intros Hnone. unfold rateLimit. rewrite Hnone. simpl.
  rewrite Z.sub_diag. done.
Qed.

Lemma rateLimit_same_window now key m e :
  m !! key = Some e → now - start e <= RATE_LIMIT_WINDOW_MS →
  rateLimit now key m
  = (<[key := {| count := count e + 1; start := start e |}]> m,
     negb (RATE_LIMIT_MAX <? count e + 1)).
Proof.
  intros He Hwin. unfold rateLimit. rewrite He. simpl.
  destruct (Z.ltb_spec RATE_LIMIT_WINDOW_MS (now - start e)); [lia|]. done.
Qed.

Lemma rateLimit_new_window now key m e :
  m !! key = Some e → RATE_LIMIT_WINDOW_MS < now - start e →
  rateLimit now key m = (<[key := {| count := 1; start := now |}]> m, true).
Proof.
  intros He Hwin. unfold rateLimit. rewrite He. simpl.
  destruct (Z.ltb_spec RATE_LIMIT_WINDOW_MS (now - start e)); [|lia]. done.
Qed.

(** What the address [key] can still get through, at most, with requests
    at times from [a] to [a + 60 s]: what is left of its window, and a full
    window more when its window started before [a]. *)
Lemma rateLimit_budget key a requests m :
  withinOneMinute key a requests →
  passedFor key requests (rateLimitAll requests m).2
  <= match m !! key with
     | None => RATE_LIMIT_MAX
     | Some e =>
         (if start e <? a then RATE_LIMIT_MAX else 0)
         + Z.max 0 (RATE_LIMIT_MAX - count e)
     end.
Proof.
  intros Hwin. revert m. induction Hwin as [|[now k] requests Hnow _ IH]; intros m.
  - simpl. unfold RATE_LIMIT_MAX. destruct (m !! key) as [e|]; [|lia].
    destruct (start e <? a); lia.
  - cbn [rateLimitAll].
    destruct (rateLimit now k m) as [m1 passed] eqn:Hstep.
    specialize (IH m1).
    destruct (rateLimitAll requests m1) as [m2 outcomes] eqn:Hrest.
    cbn [snd passedFor] in *.
    destruct (decide (k = key)) as [->|Hne].
    + rewrite bool_decide_eq_true_2 by done. simpl in Hnow.
      specialize (Hnow eq_refl). unfold RATE_LIMIT_WINDOW_MS, RATE_LIMIT_MAX in *.
      destruct (m !! key) as [e|] eqn:He.
      * destruct (Z.le_gt_cases (now - start e) (60 * 1000)) as [Hin|Hout].
        -- rewrite (rateLimit_same_window now key m e He Hin) in Hstep.
           injection Hstep as <- <-. rewrite lookup_insert_eq in IH.
           cbn [count start] in IH. unfold RATE_LIMIT_MAX.
           destruct (start e <? a); destruct (Z.ltb_spec 120 (count e + 1));
             simpl; lia.
        -- rewrite (rateLimit_new_window now key m e He) in Hstep
             by (unfold RATE_LIMIT_WINDOW_MS; lia).
           injection Hstep as <- <-. rewrite lookup_insert_eq in IH.
           cbn [count start] in IH.
           destruct (Z.ltb_spec now a); [lia|].
           destruct (Z.ltb_spec (start e) a); simpl; lia.
      * rewrite (rateLimit_fresh now key m He) in Hstep.
        injection Hstep as <- <-. rewrite lookup_insert_eq in IH.
        cbn [count start] in IH.
        destruct (Z.ltb_spec now a); simpl; lia.
    + rewrite bool_decide_eq_false_2 by done. simpl.
      pose proof (rateLimit_other now key k m Hne) as Hsame.
      rewrite Hstep in Hsame. simpl in Hsame. by rewrite <- Hsame.
Qed.

(** The rate limit holds: whatever the other addresses send in between,
    of the requests that one address sends at times within one minute,
    from [a] to [a + 60 s], at most 120 are let through when the address
    has not been seen before, and at most 240 when it has (its running
    window can end, and a new one start, within that minute). *)
Theorem rate_limit_bound (key : jsstring) (a : Z)
    (requests : list (Z * jsstring)) (m : gmap jsstring RateEntry) :
  withinOneMinute key a requests →
  (∀ e, m !! key = Some e → 0 <= count e) →
  passedFor key requests (rateLimitAll requests m).2 <= 2 * RATE_LIMIT_MAX
  ∧ (m !! key = None →
     passedFor key requests (rateLimitAll requests m).2 <= RATE_LIMIT_MAX).
Proof.
  intros Hwin Hcount. pose proof (rateLimit_budget key a requests m Hwin) as Hb.
  unfold RATE_LIMIT_MAX in *. split.
  - destruct (m !! key) as [e|]; [|lia]. specialize (Hcount e eq_refl).
    destruct (start e <? a); lia.
  - intros Hnone. by rewrite Hnone in Hb.
Qed.

Lemma rate_limit_bound_witness :
  let requests :=
    flat_map (fun i : nat => [(Z.of_nat i, js "a"); (Z.of_nat i, js "b")])
             (seq 0 400) in
  let m : gmap jsstring RateEntry :=
    {[ js "a" := {| count := 1; start := -59850 |} ]} in
  withinOneMinute (js "a") 0 requests
  ∧ passedFor (js "a") requests (rateLimitAll requests m).2 = 239
  ∧ passedFor (js "b") requests (rateLimitAll requests m).2 = 120
  ∧ passedFor (js "a") requests (rateLimitAll requests m).2 <= 2 * RATE_LIMIT_MAX
  ∧ passedFor (js "b") requests (rateLimitAll requests m).2 <= RATE_LIMIT_MAX.
Proof.
  intros requests m.
  assert (Hwithin : ∀ key, withinOneMinute key 0 requests).
  { intros key. unfold withinOneMinute. apply Forall_forall. intros [t k] Hin _.
    apply list_elem_of_In, in_flat_map in Hin as (i & Hi%in_seq & Hin).
    unfold RATE_LIMIT_WINDOW_MS. cbn [fst].
    destruct Hin as [[= <- _]|[[= <- _]|[]]]; lia. }
  split; [apply Hwithin|].
  split; [vm_compute; reflexivity|]. split; [vm_compute; reflexivity|].
  split.
  - apply (rate_limit_bound (js "a") 0 requests m (Hwithin _)).
    intros e [_ <-]%lookup_singleton_Some. cbn [count]. lia.
  - apply (rate_limit_bound (js "b") 0 requests m (Hwithin _)).
    + intros e [[=] _]%lookup_singleton_Some.
    + by apply lookup_singleton_ne.
Defined.

Lemma rateLimitAll_same_window key ts m e :
  m !! key = Some e →
  Forall (fun t => t - start e <= RATE_LIMIT_WINDOW_MS) ts →
  (rateLimitAll (map (fun t => (t, key)) ts) m).2
  = map (fun i : nat => negb (RATE_LIMIT_MAX <? count e + 1 + Z.of_nat i))
        (seq 0 (length ts)).
Proof.
  intros He Hts. revert m e He Hts. induction ts as [|t ts IH]; intros m e He Hts;
    [done|].
  apply Forall_cons in Hts as [Ht Hts].
  cbn [map rateLimitAll]. rewrite (rateLimit_same_window t key m e He Ht).
  specialize (IH (<[key := {| count := count e + 1; start := start e |}]> m)
                 {| count := count e + 1; start := start e |}
                 (lookup_insert_eq _ _ _) Hts).
  destruct (rateLimitAll _ _) as [m2 outcomes]. cbn [snd] in *.
  cbn [length seq map]. rewrite Z.add_0_r. f_equal.
  rewrite IH. cbn [count]. rewrite <- seq_shift, map_map.
  apply map_ext. intros i. do 2 f_equal. lia.
Qed.

(** A full window for a new address: when an address that has not been
    seen before sends requests, the first at time [t0] and the others at
    times up to [t0 + 60 s], the first 120 are let through and every
    later one is answered 429. *)
Theorem rate_limit_fresh_window (key : jsstring) (t0 : Z) (ts : list Z)
    (m : gmap jsstring RateEntry) :
  m !! key = None →
  Forall (fun t => t - t0 <= RATE_LIMIT_WINDOW_MS) ts →
  (rateLimitAll (map (fun t => (t, key)) (t0 :: ts)) m).2
  = map (fun i : nat => bool_decide (i < 120)%nat) (seq 0 (S (length ts))).
Proof.
  intros Hnone Hts. cbn [map rateLimitAll]. rewrite (rateLimit_fresh t0 key m Hnone).
  pose proof (rateLimitAll_same_window key ts
                (<[key := {| count := 1; start := t0 |}]> m)
                {| count := 1; start := t0 |} (lookup_insert_eq _ _ _) Hts) as Hrest.
  destruct (rateLimitAll _ _) as [m2 outcomes]. cbn [snd] in *.
  cbn [seq map]. f_equal. rewrite Hrest. cbn [count].
  rewrite <- seq_shift, map_map. apply map_ext. intros i.
  unfold RATE_LIMIT_MAX.
  destruct (Z.ltb_spec 120 (1 + 1 + Z.of_nat i)); simpl;
    [rewrite bool_decide_eq_false_2 | rewrite bool_decide_eq_true_2]; (done || lia).
Qed.

Lemma rate_limit_fresh_window_witness :
  let ts := map Z.of_nat (seq 1 129) in
  (rateLimitAll (map (fun t => (t, js "a")) (0 :: ts)) ∅).2
  = replicate 120 true ++ replicate 10 false.
Proof.
  intros ts.
  etrans; [apply (rate_limit_fresh_window (js "a") 0 ts ∅)|vm_compute; reflexivity].
  - apply lookup_empty.
  - unfold ts, RATE_LIMIT_WINDOW_MS. apply Forall_forall.
    intros t (i & -> & Hi%elem_of_seq)%list_elem_of_fmap. lia.
Defined.

(** * Normalized texts *)

Lemma trimStart_idemp s : trimStart (trimStart s) = trimStart s.
Proof.
  induction s as [|c s IH]; simpl; [done|].
  destruct (isWhiteSpace c) eqn:Hc; [done|]. simpl. by rewrite Hc.
Qed.

Lemma trimStart_snoc a c :
  isWhiteSpace c = false → trimStart (a ++ [c]) = trimStart a ++ [c].
Proof.
  intros Hc. induction a as [|d a IH]; simpl; [by rewrite Hc|].
  by destruct (isWhiteSpace d).
Qed.

Lemma trimEnd_idemp s : trimEnd (trimEnd s) = trimEnd s.
Proof. unfold trimEnd. by rewrite rev_involutive, trimStart_idemp. Qed.

Lemma trimStart_trimEnd s :
  trimStart s = s → trimStart (trimEnd s) = trimEnd s.
Proof.
  destruct s as [|c r]; [done|]. simpl.
  destruct (isWhiteSpace c) eqn:Hc.
  - intros Heq. exfalso.
    destruct (trimStart_suffix r) as [before Hr].
    apply (f_equal length) in Heq. rewrite Hr in Heq at 2.
    simpl in Heq. rewrite length_app in Heq. lia.
  - intros _. unfold trimEnd. simpl.
    rewrite trimStart_snoc, rev_app_distr by done. simpl. by rewrite Hc.
Qed.

Lemma trim_idemp s : trim (trim s) = trim s.
Proof.
  unfold trim. rewrite trimStart_trimEnd by apply trimStart_idemp.
  apply trimEnd_idemp.
Qed.

(** The normal form of a text: [normalizeText(value)] has no capital, no
    white space other than single spaces between two other code units,
    and it is a fixed point of [normalizeText], so that normalizing twice
    is normalizing once. *)
Theorem normalizeText_normal_form (value : jsstring) :
  let text := normalizeText value in
  normalizeText text = text
  ∧ toLowerCase text = text
  ∧ collapsed false text = true
  ∧ trim text = text.
Proof.
  intros text.
  assert (Hsub : substring text (replaceWhitespaceRuns false (toLowerCase value)))
    by apply trim_substring.
  assert (Hlow : lowered text).
  { eapply lowered_substring; [exact Hsub|].
    apply replaceWhitespaceRuns_lowered, toLowerCase_lowered. }
  assert (Hcol : collapsed false text = true).
  { eapply collapsed_substring; [exact Hsub|]. apply replaceWhitespaceRuns_collapsed. }
  assert (Htrim : trim text = text) by apply trim_idemp.
  split_and!; try done.
  - unfold normalizeText at 1.
    by rewrite (lowered_toLowerCase text Hlow),
      (collapsed_replaceWhitespaceRuns _ text Hcol).
  - by apply lowered_toLowerCase.
Qed.


(** * The keys of a text *)

(** The pieces of a split that are not empty: the run that continues the
    piece being read, and the runs that follow a separator. *)
Lemma elem_of_splitNonAlnum cur inSep s w :
  (inSep = true → cur = []) → w ≠ [] →
  w ∈ splitNonAlnum cur inSep s
  ↔ (∃ run after,
       s = run ++ after ∧ Forall (fun c => isAlnum c = true) run
       ∧ (∀ c, head after = Some c → isAlnum c = false)
       ∧ w = rev cur ++ run)
    ∨ (∃ before sep run after,
         s = before ++ sep :: run ++ after ∧ isAlnum sep = false
         ∧ Forall (fun c => isAlnum c = true) run
         ∧ (∀ c, head after = Some c → isAlnum c = false)
         ∧ w = run).
Proof.
  intros Hinv Hw. revert cur inSep Hinv.
  induction s as [|c s IH]; intros cur inSep Hinv.
  - simpl. rewrite list_elem_of_singleton. split.
    + intros ->. left. exists [], []. rewrite ?app_nil_r. split_and!; done.
    + intros [(run & after & Hs & _ & _ & ->) | (before & sep & run & after & Hs & _)].
      * symmetry in Hs. apply app_eq_nil in Hs as [-> _]. by rewrite ?app_nil_r.
      * by destruct before.
  - simpl. destruct (isAlnum c) eqn:Hc.
    + rewrite (IH (c :: cur) false) by done. split.
      * intros [(run & after & -> & Hrun & Hafter & ->)
               | (before & sep & run & after & -> & Hsep & Hrun & Hafter & ->)].
        -- left. exists (c :: run), after. split_and!; try done.
           ++ by constructor.
           ++ simpl. by rewrite <- app_assoc.
        -- right. exists (c :: before), sep, run, after. done.
      * intros [(run & after & Hs & Hrun & Hafter & ->)
               | (before & sep & run & after & Hs & Hsep & Hrun & Hafter & ->)].
        -- left. destruct run as [|d run].
           ++ simpl in Hs. subst after. specialize (Hafter c eq_refl). congruence.
           ++ injection Hs as <- ->. apply Forall_cons in Hrun as [_ Hrun].
              exists run, after. split_and!; try done.
              simpl. by rewrite <- app_assoc.
        -- right. destruct before as [|d before].
           ++ injection Hs as <- _. congruence.
           ++ injection Hs as <- ->. exists before, sep, run, after. done.
    + assert (Hrest : w ∈ splitNonAlnum [] true s
                ↔ (∃ run after,
                     s = run ++ after ∧ Forall (fun c => isAlnum c = true) run
                     ∧ (∀ c, head after = Some c → isAlnum c = false)
                     ∧ w = run)
                  ∨ (∃ before sep run after,
                       s = before ++ sep :: run ++ after ∧ isAlnum sep = false
                       ∧ Forall (fun c => isAlnum c = true) run
                       ∧ (∀ c, head after = Some c → isAlnum c = false)
                       ∧ w = run)) by (by apply IH).
      assert (Hgoal : (w = rev cur ∨ w ∈ splitNonAlnum [] true s)
                ↔ (∃ run after,
                     c :: s = run ++ after ∧ Forall (fun c => isAlnum c = true) run
                     ∧ (∀ c, head after = Some c → isAlnum c = false)
                     ∧ w = rev cur ++ run)
                  ∨ (∃ before sep run after,
                       c :: s = before ++ sep :: run ++ after ∧ isAlnum sep = false
                       ∧ Forall (fun c => isAlnum c = true) run
                       ∧ (∀ c, head after = Some c → isAlnum c = false)
                       ∧ w = run)).
      { rewrite Hrest. split.
        - intros [-> | [(run & after & -> & Hrun & Hafter & ->)
                       | (before & sep & run & after & -> & Hsep & Hrun & Hafter & ->)]].
          + left. exists [], (c :: s). rewrite ?app_nil_r. split_and!; try done.
            by intros d [= <-].
          + right. exists [], c, run, after. done.
          + right. exists (c :: before), sep, run, after. done.
        - intros [(run & after & Hs & Hrun & Hafter & ->)
                 | (before & sep & run & after & Hs & Hsep & Hrun & Hafter & ->)].
          + left. destruct run as [|d run]; [by rewrite ?app_nil_r|].
            injection Hs as <- _. apply Forall_inv in Hrun. congruence.
          + right. destruct before as [|d before].
            * injection Hs as <- ->. left. by exists run, after.
            * injection Hs as <- ->. right. by exists before, sep, run, after. }
      destruct inSep.
      * rewrite (Hinv eq_refl) in Hgoal |- *. rewrite <- Hgoal. split; [auto|].
        by intros [->|?].
      * by rewrite elem_of_cons.
Qed.

(** The keys of a text: the trigrams of a text are its substrings of
    three code units, one for every position (so a text of [n >= 3] code
    units has [n - 2] of them, repeated ones included, and a shorter text
    has none); its words are its runs of two or more letters and digits
    that no letter or digit precedes or follows. *)
Theorem keys_of_a_text (t : jsstring) :
  (∀ x, x ∈ getTrigrams t ↔ length x = 3%nat ∧ substring x t)
  ∧ length (getTrigrams t) = (length t - 2)%nat
  ∧ (∀ w, w ∈ getWords t ↔ isWordOf w t).
Proof.
  split_and!.
  - intros x. apply elem_of_getTrigrams.
  - unfold getTrigrams.
    destruct (Z.ltb_spec (Z.of_nat (length t)) 3); [simpl; lia|].
    by rewrite length_map, length_seq.
  - intros w. unfold getWords, isWordOf. rewrite list_elem_of_filter.
    split.
    + intros [Hlen Hin]. assert (Hw : w ≠ []) by (intros ->; simpl in Hlen; lia).
      apply elem_of_splitNonAlnum in Hin; [|done..].
      split; [lia|].
      destruct Hin as [(run & after & -> & Hrun & Hafter & ->)
                      | (before & sep & run & after & -> & Hsep & Hrun & Hafter & ->)].
      * split; [done|]. exists [], after. done.
      * split; [done|]. exists (before ++ [sep]), after. split_and!; try done.
        -- by rewrite <- app_assoc.
        -- intros c. rewrite last_snoc. by intros [= <-].
    + intros (Hlen & Hrun & before & after & -> & Hbefore & Hafter).
      split; [lia|].
      assert (Hw : w ≠ []) by (intros ->; simpl in Hlen; lia).
      apply elem_of_splitNonAlnum; [done..|].
      destruct before as [|b before _] using rev_ind.
      * left. by exists w, after.
      * right. exists before, b, w, after. split_and!; try done.
        -- by rewrite <- app_assoc.
        -- apply Hbefore. by rewrite last_snoc.
Qed.

(** * Scenarios with the middleware *)

Example scenario_admin_only :
  let delete authorization :=
    replyStatus (router (V:=json) demoEnv quietRuntime
                   (DeleteProductById authorization (js "1")) shoeCatalog).2 in
  delete None = 401
  ∧ delete (Some (js "Basic good")) = 401
  ∧ delete (Some (js "Bearer forged")) = 401
  ∧ delete (Some (js "Bearer plain")) = 403
  ∧ delete (Some (js "Bearer good")) = 200
  ∧ replyStatus (router (V:=json) noSecret quietRuntime
                   (DeleteProductById (Some (js "Bearer good")) (js "1"))
                   shoeCatalog).2 = 500.
Proof. vm_compute. repeat split; reflexivity. Qed.

Example scenario_categories :
  map string_of_list_ascii (categoryNames (listCategories quietRuntime shoeCatalog).2)
  = ["Footwear"; "Headwear"]%string
  ∧ total (listCategories quietRuntime shoeCatalog).2 = 2.
Proof. vm_compute. split; reflexivity. Qed.

Example scenario_lookup :
  let found := (getProduct quietRuntime (js "2") shoeCatalog).2 in
  status found = 200
  ∧ (∃ p, body found = ProductBody p ∧ pub_name p = js "Blue Shoe")
  ∧ status (getProduct quietRuntime (js "9") shoeCatalog).2 = 404
  ∧ status (getProduct quietRuntime (js "0") shoeCatalog).2 = 400
  ∧ status (getProduct quietRuntime (js "two") shoeCatalog).2 = 400.
Proof. vm_compute. repeat split; try reflexivity. eexists. split; reflexivity. Qed.

Lemma written_product_found_witness :
  let created := createProduct quietRuntime lampData (initialState quietRuntime) in
  let updated :=
    updateProduct quietRuntime (js "2") renameData (initialState quietRuntime) in
  status created.2 = 201 ∧ status updated.2 = 200
  ∧ (∃ stored,
       body created.2
       = MutationBody (js "Product created successfully")
                      (Some (toPublicProduct stored))
       ∧ getProduct quietRuntime (id stored) created.1
         = (created.1, productFound (toPublicProduct stored)))
  ∧ (∃ stored,
       body updated.2
       = MutationBody (js "Product updated successfully")
                      (Some (toPublicProduct stored))
       ∧ id stored = js "2"
       ∧ getProduct quietRuntime (js "2") updated.1
         = (updated.1, productFound (toPublicProduct stored))).
Proof.
  intros created updated.
  assert (Hcreated : status (createProduct quietRuntime lampData
                               (serveCalls noSecret [] (initialState quietRuntime))).2
                     = 201) by reflexivity.
  assert (Hupdated : status (updateProduct quietRuntime (js "2") renameData
                               (serveCalls noSecret [] (initialState quietRuntime))).2
                     = 200) by reflexivity.
  destruct (written_product_found (V:=json) noSecret quietRuntime
              quietRuntime quietRuntime []) as [Hcreate Hupdate].
  destruct (Hcreate lampData Hcreated) as (stored & Hbody & _ & _ & Hget).
  destruct (Hupdate (js "2") renameData Hupdated)
    as (stored' & Hbody' & Hid' & _ & Hget').
  split; [exact Hcreated|]. split; [exact Hupdated|]. split.
  - exists stored. split; [exact Hbody | exact Hget].
  - exists stored'. split; [exact Hbody'|]. split; [exact Hid' | exact Hget'].
Defined.

Example scenario_create_and_read :
  let result := createProduct quietRuntime lampData shoeCatalog in
  let found := (getProduct quietRuntime (js "4") result.1).2 in
  status result.2 = 201
  ∧ status found = 200
  ∧ (∃ p, body found = ProductBody p
          ∧ pub_id p = js "4"
          ∧ pub_name p = js "Blue &lt;Lamp&gt;"
          ∧ pub_tags p = [js "light"])
  ∧ status (getProduct quietRuntime (js "4") shoeCatalog).2 = 404.
Proof. vm_compute. repeat split; try reflexivity. eexists. repeat split; reflexivity. Qed.



(** * Properties of the cart *)

Lemma itemsValue_app l1 l2 : itemsValue (l1 ++ l2) = itemsValue l1 + itemsValue l2.
Proof. induction l1 as [|x l1 IH]; simpl; [done|]. rewrite IH. lia. Qed.

Lemma itemsValue_insert items i old new :
  items !! i = Some old →
  itemsValue (<[i := new]> items) = itemsValue items - itemValue old + itemValue new.
Proof.
  revert i. induction items as [|x items IH]; intros [|i]; simpl; try done.
  - intros [= ->]. lia.
  - intros Hi. rewrite (IH i Hi). lia.
Qed.

Lemma itemsValue_delete items i old :
  items !! i = Some old →
  itemsValue (delete i items) = itemsValue items - itemValue old.
Proof.
  revert i. induction items as [|x items IH]; intros [|i]; simpl; try done.
  - intros [= ->]. lia.
  - intros Hi. rewrite (IH i Hi). lia.
Qed.

Section OnCarts.
Context {K : Type} `{Countable K}.
Context {V : Type} `{JSStrictEq V}.

Lemma getCart_sound rt (userId : K) carts :
  map_Forall (fun _ c => cartSound c) carts →
  map_Forall (fun _ c => cartSound c) (getCart rt userId carts).1
  ∧ cartSound (getCart rt userId carts).2
  ∧ (getCart rt userId carts).1 !! userId = Some (getCart rt userId carts).2.
Proof.
  intros Hall. unfold getCart. destruct (carts !! userId) as [c|] eqn:Hc; simpl.
  - split_and!; [done | by apply (Hall userId) | done].
  - assert (Hnew : cartSound {| cart_items := []; cart_total := 0;
                               cart_updatedAt := cartNow rt |})
      by (split; [done | constructor]).
    split_and!; [by apply map_Forall_insert_2 | done | apply lookup_insert_eq].
Qed.

Lemma addToCart_sound rt (userId : K) (productId quantity : option V) carts :
  map_Forall (fun _ c => cartSound c) carts →
  map_Forall (fun _ c => cartSound c) (addToCart rt userId productId quantity carts).1.
Proof.
  intros Hall. unfold addToCart.
  destruct (invalidProductId productId); [done|].
  destruct (asInteger _) as [q|]; [|done].
  destruct productId as [productId|]; [|done].
  destruct (Z.leb_spec q 0); [done|]. destruct (Z.ltb_spec 100 q); [done|]. cbn [orb].
  destruct (priceOf (ToString productId)) as [price|] eqn:Hprice; [|done].
  destruct (getCart_sound rt userId carts Hall) as (Hall' & [Htotal Hitems] & _).
  destruct (getCart rt userId carts) as [carts' cart]. cbn [fst snd] in *.
  apply map_Forall_insert_2; [|done].
  destruct (findItemStrict productId (cart_items cart)) as [[i item]|] eqn:Hfind.
  - apply list_find_Some in Hfind as (Hi & Hid%strictEq_ToString & _).
    pose proof (Forall_lookup_1 _ _ _ _ Hitems Hi) as [Hp Hq].
    rewrite Hid in Hprice. split; simpl.
    + rewrite (itemsValue_insert _ _ item) by done. rewrite Htotal.
      unfold itemValue. simpl. rewrite Hprice. simpl. lia.
    + apply Forall_insert; [done|]. simpl. split; [done | lia].
  - split; simpl.
    + rewrite itemsValue_app, Htotal. unfold itemsValue, itemValue. simpl.
      rewrite Hprice. simpl. lia.
    + apply Forall_app. split; [done|]. constructor; [|constructor].
      simpl. rewrite Hprice. split; [by eexists | lia].
Qed.

Lemma updateCartItem_sound rt (userId : K) (productId quantity : option V) carts :
  map_Forall (fun _ c => cartSound c) carts →
  map_Forall (fun _ c => cartSound c)
             (updateCartItem rt userId productId quantity carts).1.
Proof.
  intros Hall. unfold updateCartItem.
  destruct (invalidProductId productId); [done|].
  destruct (asInteger _) as [q|]; [|done].
  destruct productId as [productId|]; [|done].
  destruct (Z.ltb_spec q 0); [done|]. destruct (Z.ltb_spec 100 q); [done|]. cbn [orb].
  destruct (priceOf (ToString productId)) as [price|] eqn:Hprice; [|done].
  destruct (getCart_sound rt userId carts Hall) as (Hall' & [Htotal Hitems] & _).
  destruct (getCart rt userId carts) as [carts' cart]. cbn [fst snd] in *.
  destruct (findItem (ToString productId) (cart_items cart)) as [[i item]|] eqn:Hfind;
    [|done].
  apply list_find_Some in Hfind as (Hi & Hid & _).
  pose proof (Forall_lookup_1 _ _ _ _ Hitems Hi) as [Hp Hq].
  simpl. apply map_Forall_insert_2; [|done].
  assert (Hvalue : itemValue item = price * item_quantity item).
  { unfold itemValue. by rewrite Hid, Hprice. }
  destruct (Z.eqb_spec q 0) as [->|Hq0]; split; simpl.
  - rewrite (itemsValue_delete _ _ item) by done. lia.
  - by apply Forall_delete.
  - rewrite (itemsValue_insert _ _ item) by done. rewrite Htotal, Hvalue.
    unfold itemValue. simpl. rewrite Hid, Hprice. simpl. lia.
  - apply Forall_insert; [done|]. simpl. split; [done | lia].
Qed.

Lemma removeFromCart_sound rt (userId : K) (productId : option V) carts :
  map_Forall (fun _ c => cartSound c) carts →
  map_Forall (fun _ c => cartSound c) (removeFromCart rt userId productId carts).1.
Proof.
  intros Hall. unfold removeFromCart.
  destruct (invalidProductId productId); [done|].
  destruct productId as [productId|]; [|done].
  destruct (priceOf (ToString productId)) as [price|] eqn:Hprice; [|done].
  destruct (getCart_sound rt userId carts Hall) as (Hall' & [Htotal Hitems] & _).
  destruct (getCart rt userId carts) as [carts' cart]. cbn [fst snd] in *.
  destruct (findItem (ToString productId) (cart_items cart)) as [[i item]|] eqn:Hfind;
    [|done].
  apply list_find_Some in Hfind as (Hi & Hid & _).
  simpl. apply map_Forall_insert_2; [|done]. split; simpl.
  - rewrite (itemsValue_delete _ _ item) by done. rewrite Htotal.
    unfold itemValue. rewrite Hid, Hprice. simpl. lia.
  - by apply Forall_delete.
Qed.

Lemma cartStep_sound rt (e : CartEvent K V) carts :
  map_Forall (fun _ c => cartSound c) carts →
  map_Forall (fun _ c => cartSound c) (cartStep rt e carts).
Proof.
  intros Hall. destruct e; simpl.
  - unfold viewCart. pose proof (getCart_sound rt userId carts Hall) as [Hall' _].
    by destruct (getCart rt userId carts).
  - by apply addToCart_sound.
  - by apply updateCartItem_sound.
  - by apply removeFromCart_sound.
  - unfold cleanup. intros k c [Hc _]%map_lookup_filter_Some. by apply (Hall k).
Qed.

(** The total of a cart: whatever requests the users send and whenever
    the cleanup timer fires, the total of every cart is the sum, over its
    items, of the quantity times the price of the product; every item is
    of a product that has a price, and every quantity is 1 or more. *)
Theorem cart_total_consistent (events : list (CartRuntime * CartEvent K V)) :
  map_Forall (fun _ cart => cartSound cart) (cartRun events ∅).
Proof.
  assert (Hgen : ∀ carts, map_Forall (fun _ c => cartSound c) carts →
            map_Forall (fun _ c => cartSound c) (cartRun events carts)).
  { induction events as [|[rt e] events IH]; intros carts Hall; [done|].
    simpl. apply IH. by apply cartStep_sound. }
  apply Hgen, map_Forall_empty.
Qed.

Lemma getCart_other rt (userId other : K) carts :
  other ≠ userId → (getCart rt userId carts).1 !! other = carts !! other.
Proof.
  intros Hne. unfold getCart. destruct (carts !! userId); simpl; [done|].
  by rewrite lookup_insert_ne.
Qed.


(** The carts are separate: a request of a user leaves the cart of every
    other user as it is (and creates none for them). *)
Theorem cart_of_others_untouched rt (e : CartEvent K V) (userId other : K) carts :
  eventUser e = Some userId → other ≠ userId →
  cartStep rt e carts !! other = carts !! other.
Proof.
  intros He Hne. pose proof (getCart_other rt userId other carts Hne) as Hget.
  destruct e; simplify_eq/=.
  - unfold viewCart. by destruct (getCart rt userId carts).
  - unfold addToCart. repeat case_match; simplify_eq/=; try done;
      by rewrite lookup_insert_ne.
  - unfold updateCartItem. repeat case_match; simplify_eq/=; try done;
      by rewrite lookup_insert_ne.
  - unfold removeFromCart. repeat case_match; simplify_eq/=; try done;
      by rewrite lookup_insert_ne.
Qed.

Lemma insert_same_productId (items : list CartItem) (i : nat) item new :
  items !! i = Some item → item_productId new = item_productId item →
  item_productId <$> <[i := new]> items = item_productId <$> items.
Proof.
  intros Hi Hid. rewrite list_fmap_insert, Hid. apply list_insert_id.
  by rewrite list_lookup_fmap, Hi.
Qed.

Lemma delete_oneItem (items : list CartItem) (i : nat) :
  NoDup (item_productId <$> items) → NoDup (item_productId <$> delete i items).
Proof.
  intros Hnd. apply (sublist_NoDup _ (item_productId <$> items)); [exact Hnd | apply fmap_sublist, sublist_delete].
Qed.

Lemma getCart_oneItem rt (userId : K) carts :
  map_Forall (fun _ c => oneItemPerProduct c) carts →
  map_Forall (fun _ c => oneItemPerProduct c) (getCart rt userId carts).1
  ∧ oneItemPerProduct (getCart rt userId carts).2.
Proof.
  intros Hall. unfold getCart. destruct (carts !! userId) as [c|] eqn:Hc; simpl.
  - split; [done | by apply (Hall userId)].
  - assert (Hnew : oneItemPerProduct {| cart_items := []; cart_total := 0;
                                        cart_updatedAt := cartNow rt |})
      by apply NoDup_nil_2.
    split; [by apply map_Forall_insert_2 | done].
Qed.

Lemma cartStep_oneItem rt (e : CartEvent K V) carts :
  addsByString e →
  map_Forall (fun _ c => oneItemPerProduct c) carts →
  map_Forall (fun _ c => oneItemPerProduct c) (cartStep rt e carts).
Proof.
  intros Hstr Hall. destruct e; simpl.
  - unfold viewCart. pose proof (getCart_oneItem rt userId carts Hall) as [Hall' _].
    by destruct (getCart rt userId carts).
  - unfold addToCart.
    destruct (invalidProductId productId); [done|].
    destruct (asInteger _) as [q|]; [|done].
    destruct productId as [productId|]; [|done].
    destruct ((q <=? 0) || (100 <? q)); [done|].
    destruct (priceOf (ToString productId)) as [price|]; [|done].
    destruct (getCart_oneItem rt userId carts Hall) as [Hall' Hcart].
    destruct (getCart rt userId carts) as [carts' cart]. cbn [fst snd] in *.
    apply map_Forall_insert_2; [|done]. unfold oneItemPerProduct in *. simpl.
    destruct (findItemStrict productId (cart_items cart)) as [[i item]|] eqn:Hfind.
    + apply list_find_Some in Hfind as (Hi & _ & _).
      by rewrite (insert_same_productId _ _ item).
    + rewrite fmap_app. apply NoDup_app. split_and!; [done| |apply NoDup_singleton].
      intros key [item [-> Hitem]]%list_elem_of_fmap [=Hkey]%list_elem_of_singleton.
      eapply list_find_None in Hfind. rewrite Forall_forall in Hfind.
      apply (Hfind item Hitem). rewrite Hkey. exact Hstr.
  - unfold updateCartItem.
    destruct (invalidProductId productId); [done|].
    destruct (asInteger _) as [q|]; [|done].
    destruct productId as [productId|]; [|done].
    destruct ((q <? 0) || (100 <? q)); [done|].
    destruct (priceOf (ToString productId)) as [price|]; [|done].
    destruct (getCart_oneItem rt userId carts Hall) as [Hall' Hcart].
    destruct (getCart rt userId carts) as [carts' cart]. cbn [fst snd] in *.
    destruct (findItem (ToString productId) (cart_items cart)) as [[i item]|] eqn:Hfind;
      [|done].
    apply list_find_Some in Hfind as (Hi & _ & _).
    simpl. apply map_Forall_insert_2; [|done]. unfold oneItemPerProduct in *.
    destruct (q =? 0); simpl.
    + by apply delete_oneItem.
    + by rewrite (insert_same_productId _ _ item).
  - unfold removeFromCart.
    destruct (invalidProductId productId); [done|].
    destruct productId as [productId|]; [|done].
    destruct (priceOf (ToString productId)) as [price|]; [|done].
    destruct (getCart_oneItem rt userId carts Hall) as [Hall' Hcart].
    destruct (getCart rt userId carts) as [carts' cart]. cbn [fst snd] in *.
    destruct (findItem (ToString productId) (cart_items cart)) as [[i item]|] eqn:Hfind;
      [|done].
    simpl. apply map_Forall_insert_2; [|done]. by apply delete_oneItem.
  - unfold cleanup. intros k c [Hc _]%map_lookup_filter_Some. by apply (Hall k).
Qed.

(** One item per product: when the product id of every request that adds
    to a cart is a string, no cart ever has two items of one product. *)
Theorem one_item_per_product (events : list (CartRuntime * CartEvent K V)) :
  Forall (fun e => addsByString e.2) events →
  map_Forall (fun _ cart => oneItemPerProduct cart) (cartRun events ∅).
Proof.
  assert (Hgen : ∀ carts, Forall (fun e => addsByString e.2) events →
            map_Forall (fun _ c => oneItemPerProduct c) carts →
            map_Forall (fun _ c => oneItemPerProduct c) (cartRun events carts)).
  { induction events as [|[rt e] events IH]; intros carts Hstr Hall; [done|].
    inversion Hstr; subst. simpl. apply IH; [done|]. by apply cartStep_oneItem. }
  intros Hstr. by apply Hgen, map_Forall_empty.
Qed.


Lemma getCart_extends rt (userId : K) carts :
  carts ⊆ (getCart rt userId carts).1
  ∧ ∀ user cart, (getCart rt userId carts).1 !! user = Some cart →
      carts !! user = Some cart
      ∨ (carts !! user = None ∧ user = userId ∧ emptyCart cart).
Proof.
  unfold getCart. destruct (carts !! userId) as [c|] eqn:Hc; simpl.
  - split; [done | by left].
  - split; [by apply insert_subseteq|]. intros user cart.
    destruct (decide (user = userId)) as [->|Hne].
    + rewrite lookup_insert_eq. intros [= <-]. by right.
    + rewrite lookup_insert_ne by done. by left.
Qed.

(** A request that is refused changes no cart: every cart is as it was,
    and the only cart that may be new is an empty cart of the user of the
    request. *)
Theorem refused_request_keeps_carts rt (e : CartEvent K V) carts response :
  cartResponse rt e carts = Some response →
  cartStatus response ≠ 200 →
  carts ⊆ cartStep rt e carts
  ∧ ∀ user cart, cartStep rt e carts !! user = Some cart →
      carts !! user = Some cart
      ∨ (carts !! user = None ∧ eventUser e = Some user ∧ emptyCart cart).
Proof.
  assert (Hsame : carts ⊆ carts
            ∧ ∀ user cart, carts !! user = Some cart →
                carts !! user = Some cart
                ∨ (carts !! user = None ∧ eventUser e = Some user ∧ emptyCart cart))
    by (split; [done | by left]).
  intros He Hstatus. destruct e; simplify_eq/=.
  - by unfold viewCart in Hstatus; destruct (getCart rt userId carts).
  - pose proof (getCart_extends rt userId carts) as [Hsub Hnew].
    revert Hstatus. unfold addToCart.
    repeat case_match; simplify_eq/=; try done.
  - pose proof (getCart_extends rt userId carts) as [Hsub Hnew].
    revert Hstatus. unfold updateCartItem.
    repeat case_match; simplify_eq/=; try done.
    intros _. split; [done|]. intros user cart Hcart.
    destruct (Hnew user cart Hcart) as [?|(? & -> & ?)]; [by left | by right].
  - pose proof (getCart_extends rt userId carts) as [Hsub Hnew].
    revert Hstatus. unfold removeFromCart.
    repeat case_match; simplify_eq/=; try done.
    intros _. split; [done|]. intros user cart Hcart.
    destruct (Hnew user cart Hcart) as [?|(? & -> & ?)]; [by left | by right].
Qed.

End OnCarts.

(** The product 1 added twice by the number 1, then once by the string:
    two items of one product, and the string adds to the first. *)
Example scenario_cart_numbers :
  let add v := (cartRuntime, AddToCart 7 (Some v) None) in
  let carts : gmap Z Cart :=
    cartRun [add (JNumber 1); add (JNumber 1); add (JString (js "1"))] ∅ in
  (item_productId <$> itemsOf 7 carts) = [js "1"; js "1"]
  ∧ (item_quantity <$> itemsOf 7 carts) = [2; 1]
  ∧ (cart_total <$> carts !! 7) = Some 300.
Proof. vm_compute. done. Qed.

Lemma cart_of_others_untouched_witness :
  let carts : gmap Z Cart :=
    cartRun [(cartRuntime, AddToCart 1 (Some (JString (js "2"))) None)] ∅ in
  let e := AddToCart 2 (Some (JString (js "3"))) (Some (JNumber 4)) in
  eventUser e = Some 2 ∧ 1 ≠ 2
  ∧ cartStep cartRuntime e carts !! 1 = carts !! 1.
Proof.
  intros carts e. split; [reflexivity|]. split; [lia|].
  apply (cart_of_others_untouched cartRuntime e 2 1 carts); [reflexivity | lia].
Defined.

Lemma one_item_per_product_witness :
  let add (s : string) := (cartRuntime, AddToCart 7 (Some (JString (js s))) None) in
  let events : list (CartRuntime * CartEvent Z json) :=
    [add "1"; add "1"; add "2"; (cartRuntime, RemoveFromCart 7 (Some (JString (js "2"))))] in
  Forall (fun e => addsByString e.2) events
  ∧ map_Forall (fun _ cart => oneItemPerProduct cart) (cartRun events ∅).
Proof.
  intros add events.
  assert (Hstr : Forall (fun e => addsByString e.2) events).
  { repeat (constructor; [first [reflexivity | exact I]|]). constructor. }
  split; [exact Hstr | exact (one_item_per_product events Hstr)].
Defined.


Lemma refused_request_keeps_carts_witness :
  let carts : gmap Z Cart :=
    cartRun [(cartRuntime, AddToCart 7 (Some (JString (js "1"))) None)] ∅ in
  let e := UpdateCartItem 8 (Some (JString (js "1"))) (Some (JNumber 3)) in
  let response := cartError 404 "Item not found in cart" in
  cartResponse cartRuntime e carts = Some response
  ∧ cartStatus response ≠ 200
  ∧ carts ⊆ cartStep cartRuntime e carts
  ∧ ∀ user cart, cartStep cartRuntime e carts !! user = Some cart →
      carts !! user = Some cart
      ∨ (carts !! user = None ∧ eventUser e = Some user ∧ emptyCart cart).
Proof.
  intros carts e response.
  assert (Hresponse : cartResponse cartRuntime e carts = Some response) by reflexivity.
  assert (Hstatus : cartStatus response ≠ 200) by (simpl; lia).
  split; [exact Hresponse|]. split; [exact Hstatus|].
  exact (refused_request_keeps_carts cartRuntime e carts response Hresponse Hstatus).
Defined.
